(** * Fortune's sweep line: the beach-line tree and the sweep controller

    A shallow embedding of [tree.go] (the arc tree with its circle-event
    registries, and the [Voronoi] controller) and the properties of the
    controller's specification checked against it.

    Go pointers are addresses into explicit stores: a [*Node] is an
    [option nat] ([None] is [nil]) into the list of allocated nodes, a
    [*Event] an index into the list of allocated events.  Slices are lists.
    A run-time panic (nil dereference, index out of range, [panic(...)])
    is the result [Panic]; loops whose termination depends on the shape of
    the store take a fuel argument and answer [OutOfFuel] when it runs out.
    Logging ([log.Printf], [log.Println]) is not modelled. *)

From Stdlib Require Import ZArith Floats Lia.
From stdpp Require Import base option list gmap.

Open Scope Z_scope.

(** ** Results of partial computations *)

Inductive Res (A : Type) : Type :=
| Ok (a : A)
| Panic
| OutOfFuel.
Arguments Ok {A} a.
Arguments Panic {A}.
Arguments OutOfFuel {A}.

#[export] Instance Res_ret : MRet Res := fun A a => Ok a.
#[export] Instance Res_bind : MBind Res := fun A B f m =>
  match m with
  | Ok a => f a
  | Panic => Panic
  | OutOfFuel => OutOfFuel
  end.

(** [l[i]] with Go's bounds check. *)
Definition index_or_panic {A} (l : list A) (i : nat) : Res A :=
  match l !! i with
  | Some x => Ok x
  | None => Panic
  end.

(** ** Machine integers and float64 *)

(** Go's [int] on a 64-bit platform: two's complement wrap-around. *)
Definition wrap64 (z : Z) : Z := (z + 2 ^ 63) mod 2 ^ 64 - 2 ^ 63.
Definition int_add (a b : Z) : Z := wrap64 (a + b).
Definition int_sub (a b : Z) : Z := wrap64 (a - b).

(** [float64(n)]: the nearest binary64 value (ties to even). *)
Definition float64 (n : Z) : float :=
  SF2Prim (binary_normalize prec emax n 0 false).

(** [int(f)] as compiled for amd64: truncation toward zero, and the
    "integer indefinite" value for NaN, infinities and values out of
    range. *)
Definition int_of_float64 (f : float) : Z :=
  match Prim2SF f with
  | S754_zero _ => 0
  | S754_finite s m e =>
      let a := match e with
               | Z0 => Zpos m
               | Zpos p => Z.shiftl (Zpos m) (Zpos p)
               | Zneg p => Z.shiftr (Zpos m) (Zpos p)
               end in
      let z := if s then - a else a in
      if (- 2 ^ 63 <=? z) && (z <? 2 ^ 63) then z else - 2 ^ 63
  | _ => - 2 ^ 63
  end.

(** [math.Pow(t, 2)] and [math.Pow(t, 0.5)], the only two uses of
    [math.Pow]: the first multiplies [t] by itself, the second is
    [math.Sqrt(t)]. *)
Definition Pow2 (t : float) : float := (t * t)%float.
Definition Pow_half (t : float) : float := PrimFloat.sqrt t.

(** ** Addresses *)

Abbreviation Node_ptr := nat (only parsing).
Abbreviation Event_ptr := nat (only parsing).
Abbreviation Site_ptr := nat (only parsing).
Abbreviation Face_ptr := nat (only parsing).
Abbreviation Vertex_ptr := nat (only parsing).
Abbreviation HalfEdge_ptr := nat (only parsing).

(** ** Sites and events

    [Site] and [Event] are declared outside [tree.go]; the fields are the
    ones [tree.go] reads and writes.  A site's [Face] back-reference is
    kept beside the site list (see [Voronoi.SiteFace]); an event's queue
    slot [index] belongs to the queue (see [EventQueueImpl]). *)

Module Site.
Record t := mk { X : Z; Y : Z; ID : Z }.
End Site.

Inductive EventType := EventSite | EventCircle.

#[export] Instance EventType_eq_dec : EqDecision EventType.
Proof. solve_decision. Defined.

Module Event.
Record t := mk {
  EventType : EventType;
  X : Z;
  Y : Z;
  Radius : Z;
  Site : option Site_ptr;
  Node : option Node_ptr
}.
Definition set_Node (n : option Node_ptr) (e : t) : t :=
  mk (EventType e) (X e) (Y e) (Radius e) (Site e) n.
End Event.

(** ** CircleEvents: a slice of event pointers *)

Abbreviation CircleEvents_t := (list Event_ptr) (only parsing).

Module CircleEvents.

(** The loop of [RemoveEvent], which runs [i] from the last index down
    to 0; [k] is [i + 1]. *)
Fixpoint RemoveEvent_loop (event : Event_ptr) (k : nat) (ce : CircleEvents_t)
  : Res CircleEvents_t :=
  match k with
  | O => Ok ce
  | S i =>
      x ← index_or_panic ce i;
      if decide (x = event) then
        l ← index_or_panic ce (length ce - 1)%nat;
        RemoveEvent_loop event i (take (length ce - 1)%nat (<[i := l]> ce))
      else RemoveEvent_loop event i ce
  end.

Definition RemoveEvent (event : Event_ptr) (ce : CircleEvents_t)
  : Res CircleEvents_t :=
  RemoveEvent_loop event (length ce) ce.

Fixpoint HasEvent (event : Event_ptr) (ce : CircleEvents_t) : bool :=
  match ce with
  | [] => false
  | x :: rest => if decide (x = event) then true else HasEvent event rest
  end.

End CircleEvents.

(** ** Nodes of the arc tree *)

Module Node.

Record t := mk {
  Site : option Site_ptr;
  LeftEvents : CircleEvents_t;
  MiddleEvents : CircleEvents_t;
  RightEvents : CircleEvents_t;
  Parent : option Node_ptr;
  Left : option Node_ptr;
  Right : option Node_ptr;
  LeftEdges : list HalfEdge_ptr;
  RightEdges : list HalfEdge_ptr
}.

(** [&Node{}] *)
Definition zero : t := mk None [] [] [] None None None [] [].

Definition set_Site v (n : t) :=
  mk v (LeftEvents n) (MiddleEvents n) (RightEvents n) (Parent n) (Left n)
     (Right n) (LeftEdges n) (RightEdges n).
Definition set_LeftEvents v (n : t) :=
  mk (Site n) v (MiddleEvents n) (RightEvents n) (Parent n) (Left n)
     (Right n) (LeftEdges n) (RightEdges n).
Definition set_MiddleEvents v (n : t) :=
  mk (Site n) (LeftEvents n) v (RightEvents n) (Parent n) (Left n)
     (Right n) (LeftEdges n) (RightEdges n).
Definition set_RightEvents v (n : t) :=
  mk (Site n) (LeftEvents n) (MiddleEvents n) v (Parent n) (Left n)
     (Right n) (LeftEdges n) (RightEdges n).
Definition set_Parent v (n : t) :=
  mk (Site n) (LeftEvents n) (MiddleEvents n) (RightEvents n) v (Left n)
     (Right n) (LeftEdges n) (RightEdges n).
Definition set_Left v (n : t) :=
  mk (Site n) (LeftEvents n) (MiddleEvents n) (RightEvents n) (Parent n) v
     (Right n) (LeftEdges n) (RightEdges n).
Definition set_Right v (n : t) :=
  mk (Site n) (LeftEvents n) (MiddleEvents n) (RightEvents n) (Parent n)
     (Left n) v (LeftEdges n) (RightEdges n).
Definition set_LeftEdges v (n : t) :=
  mk (Site n) (LeftEvents n) (MiddleEvents n) (RightEvents n) (Parent n)
     (Left n) (Right n) v (RightEdges n).
Definition set_RightEdges v (n : t) :=
  mk (Site n) (LeftEvents n) (MiddleEvents n) (RightEvents n) (Parent n)
     (Left n) (Right n) (LeftEdges n) v.

(** Reading through a [*Node]: a nil pointer panics. *)
Definition deref (ns : list t) (p : option Node_ptr) : Res t :=
  match p with
  | None => Panic
  | Some i => index_or_panic ns i
  end.

Definition IsLeaf (ns : list t) (n : option Node_ptr) : Res bool :=
  nd ← deref ns n;
  mret (bool_decide (Left nd = None ∧ Right nd = None)).

(** [for !left.IsLeaf() { left = left.Right }] *)
Fixpoint PrevChildArc_loop (fuel : nat) (ns : list t) (left : option Node_ptr)
  : Res (option Node_ptr) :=
  match fuel with
  | O => OutOfFuel
  | S f =>
      leaf ← IsLeaf ns left;
      if leaf : bool then Ok left
      else nd ← deref ns left; PrevChildArc_loop f ns (Right nd)
  end.

Definition PrevChildArc (fuel : nat) (ns : list t) (n : option Node_ptr)
  : Res (option Node_ptr) :=
  nd ← deref ns n;
  PrevChildArc_loop fuel ns (Left nd).

Fixpoint NextChildArc_loop (fuel : nat) (ns : list t) (right : option Node_ptr)
  : Res (option Node_ptr) :=
  match fuel with
  | O => OutOfFuel
  | S f =>
      leaf ← IsLeaf ns right;
      if leaf : bool then Ok right
      else nd ← deref ns right; NextChildArc_loop f ns (Left nd)
  end.

Definition NextChildArc (fuel : nat) (ns : list t) (n : option Node_ptr)
  : Res (option Node_ptr) :=
  nd ← deref ns n;
  NextChildArc_loop fuel ns (Right nd).

(** [for first != nil && !first.IsLeaf() { ... }] *)
Fixpoint FirstArc (fuel : nat) (ns : list t) (first : option Node_ptr)
  : Res (option Node_ptr) :=
  match fuel with
  | O => OutOfFuel
  | S f =>
      match first with
      | None => Ok first
      | Some _ =>
          leaf ← IsLeaf ns first;
          if leaf : bool then Ok first
          else
            nd ← deref ns first;
            match Left nd with
            | Some _ => FirstArc f ns (Left nd)
            | None => FirstArc f ns (Right nd)
            end
      end
  end.

Fixpoint LastArc (fuel : nat) (ns : list t) (last : option Node_ptr)
  : Res (option Node_ptr) :=
  match fuel with
  | O => OutOfFuel
  | S f =>
      match last with
      | None => Ok last
      | Some _ =>
          leaf ← IsLeaf ns last;
          if leaf : bool then Ok last
          else
            nd ← deref ns last;
            match Right nd with
            | Some _ => LastArc f ns (Right nd)
            | None => LastArc f ns (Left nd)
            end
      end
  end.

(** The climbing loop of [PrevArc], [for parent.Left == node { ... }].
    [Ok None]: the loop body returned nil; [Ok (Some parent)]: the loop
    ended with this value of [parent]. *)
Fixpoint PrevArc_loop (fuel : nat) (ns : list t) (node parent : option Node_ptr)
  : Res (option (option Node_ptr)) :=
  match fuel with
  | O => OutOfFuel
  | S f =>
      p ← deref ns parent;
      if decide (Left p = node) then
        match Parent p with
        | None => Ok None
        | Some _ => PrevArc_loop f ns parent (Parent p)
        end
      else Ok (Some parent)
  end.

Definition PrevArc (fuel : nat) (ns : list t) (n : option Node_ptr)
  : Res (option Node_ptr) :=
  match n with
  | None => Ok None
  | Some _ =>
      leaf ← IsLeaf ns n;
      if negb (leaf : bool) then LastArc fuel ns n
      else
        nd ← deref ns n;
        match Parent nd with
        | None => Ok None
        | Some _ =>
            r ← PrevArc_loop fuel ns n (Parent nd);
            match r with
            | None => Ok None
            | Some parent =>
                p ← deref ns parent;
                leaf' ← IsLeaf ns (Left p);
                if leaf' : bool then Ok (Left p) else LastArc fuel ns (Left p)
            end
        end
  end.

Fixpoint NextArc_loop (fuel : nat) (ns : list t) (node parent : option Node_ptr)
  : Res (option (option Node_ptr)) :=
  match fuel with
  | O => OutOfFuel
  | S f =>
      p ← deref ns parent;
      if decide (Right p = node) then
        match Parent p with
        | None => Ok None
        | Some _ => NextArc_loop f ns parent (Parent p)
        end
      else Ok (Some parent)
  end.

Definition NextArc (fuel : nat) (ns : list t) (n : option Node_ptr)
  : Res (option Node_ptr) :=
  match n with
  | None => Ok None
  | Some _ =>
      leaf ← IsLeaf ns n;
      if negb (leaf : bool) then FirstArc fuel ns n
      else
        nd ← deref ns n;
        match Parent nd with
        | None => Ok None
        | Some _ =>
            r ← NextArc_loop fuel ns n (Parent nd);
            match r with
            | None => Ok None
            | Some parent =>
                p ← deref ns parent;
                leaf' ← IsLeaf ns (Right p);
                if leaf' : bool then Ok (Right p) else FirstArc fuel ns (Right p)
            end
        end
  end.

Definition AddLeftEvent (event : Event_ptr) (n : t) : t :=
  set_LeftEvents (LeftEvents n ++ [event]) n.
Definition AddMiddleEvent (event : Event_ptr) (n : t) : t :=
  set_MiddleEvents (MiddleEvents n ++ [event]) n.
Definition AddRightEvent (event : Event_ptr) (n : t) : t :=
  set_RightEvents (RightEvents n ++ [event]) n.

Definition RemoveEvent (event : Event_ptr) (n : t) : Res t :=
  l ← CircleEvents.RemoveEvent event (LeftEvents n);
  m ← CircleEvents.RemoveEvent event (MiddleEvents n);
  r ← CircleEvents.RemoveEvent event (RightEvents n);
  mret (set_RightEvents r (set_MiddleEvents m (set_LeftEvents l n))).

Definition HasEvent (event : Event_ptr) (n : t) : bool :=
  CircleEvents.HasEvent event (LeftEvents n)
  || CircleEvents.HasEvent event (MiddleEvents n)
  || CircleEvents.HasEvent event (RightEvents n).

End Node.

(** ** The circumscribed circle of three sites *)

Inductive error :=
| errClockwise   (* "circle is clockwise - sites ... are in reversed order" *)
| errNoCircle.   (* "no circle found connecting points ..." *)

Open Scope float_scope.

(** The orientation determinant and the two chord slopes of [calcCircle],
    as the float64 expressions of the source. *)
Definition determinant (site1 site2 site3 : Site.t) : float :=
  let x1 := float64 (Site.X site1) in
  let y1 := float64 (Site.Y site1) in
  let x2 := float64 (Site.X site2) in
  let y2 := float64 (Site.Y site2) in
  let x3 := float64 (Site.X site3) in
  let y3 := float64 (Site.Y site3) in
  (x2 * y3 + x1 * y2 + y1 * x3) - (y1 * x2 + y2 * x3 + x1 * y3).

Definition chord_dx (a b : Site.t) : float :=
  float64 (Site.X b) - float64 (Site.X a).

Definition chord_slope (a b : Site.t) : float :=
  (float64 (Site.Y b) - float64 (Site.Y a))
  / (float64 (Site.X b) - float64 (Site.X a)).

(** [calcCircle] returns [(x, y, r, err)].  Each float64 operation is
    rounded on its own (no fused multiply-add), as on amd64. *)
Definition calcCircle (site1 site2 site3 : Site.t)
  : Z * Z * Z * option error :=
  let x1 := float64 (Site.X site1) in
  let y1 := float64 (Site.Y site1) in
  let x2 := float64 (Site.X site2) in
  let y2 := float64 (Site.Y site2) in
  let x3 := float64 (Site.X site3) in
  let y3 := float64 (Site.Y site3) in
  if determinant site1 site2 site3 <? 0 then
    (0%Z, 0%Z, 0%Z, Some errClockwise)
  else if (chord_dx site1 site2 =? 0) || (chord_dx site2 site3 =? 0) then
    (0%Z, 0%Z, 0%Z, Some errNoCircle)
  else
    let mr := chord_slope site1 site2 in
    let mt := chord_slope site2 site3 in
    if (mr =? mt) || (mr - mt =? 0) || (mr =? 0) then
      (0%Z, 0%Z, 0%Z, Some errNoCircle)
    else
      let cx := (mr * mt * (y3 - y1) + mr * (x2 + x3) - mt * (x1 + x2))
                / (2 * (mr - mt)) in
      let cy := (y1 + y2) / 2 - (cx - (x1 + x2) / 2) / mr in
      let cr := Pow_half (Pow2 (x2 - cx) + Pow2 (y2 - cy)) in
      (int_of_float64 (cx + 0.5), int_of_float64 (cy + 0.5),
       int_of_float64 (cr + 0.5), None).

Close Scope float_scope.

(** The rejection test of [calcCircle], in the float64 quantities the
    source computes. *)
Definition calcCircle_rejects (site1 site2 site3 : Site.t) : bool :=
  ((determinant site1 site2 site3 <? 0)
   || (chord_dx site1 site2 =? 0) || (chord_dx site2 site3 =? 0)
   || (chord_slope site1 site2 =? chord_slope site2 site3)
   || (chord_slope site1 site2 - chord_slope site2 site3 =? 0)
   || (chord_slope site1 site2 =? 0))%float.

(** C5 as stated: a zero slope of either chord rejects the triple. *)
Definition calcCircle_rejects_as_claimed (site1 site2 site3 : Site.t) : bool :=
  ((determinant site1 site2 site3 <=? 0)
   || (chord_dx site1 site2 =? 0) || (chord_dx site2 site3 =? 0)
   || (chord_slope site1 site2 =? chord_slope site2 site3)
   || (chord_slope site1 site2 =? 0)
   || (chord_slope site2 site3 =? 0))%float.

(** ** The planar-graph collaborator

    Package [dcel] is an external library.  Its graph is modelled by the
    three lists it owns; a pointer to a vertex, face or half-edge is the
    position of the element in its list. *)

Module dcel.

Record Vertex := mkVertex { X : Z; Y : Z }.
Record Face := mkFace { ID : Z; Data : option Site_ptr }.
Record HalfEdge := mkHalfEdge {
  Target : option Vertex_ptr;
  IncidentFace : option Face_ptr;
  Twin : option HalfEdge_ptr
}.
Record DCEL := mkDCEL {
  Vertices : list Vertex;
  Faces : list Face;
  HalfEdges : list HalfEdge
}.

Definition NewDCEL : DCEL := mkDCEL [] [] [].

Definition NewFace (d : DCEL) : Face_ptr * DCEL :=
  (length (Faces d),
   mkDCEL (Vertices d) (Faces d ++ [mkFace 0 None]) (HalfEdges d)).

Definition set_Face (f : Face_ptr) (v : Face) (d : DCEL) : DCEL :=
  mkDCEL (Vertices d) (<[f := v]> (Faces d)) (HalfEdges d).

Definition NewVertex (x y : Z) (d : DCEL) : Vertex_ptr * DCEL :=
  (length (Vertices d),
   mkDCEL (Vertices d ++ [mkVertex x y]) (Faces d) (HalfEdges d)).

(** A pair of twin half-edges between [face1] and [face2]. *)
Definition NewEdge (face1 face2 : option Face_ptr) (vertex : option Vertex_ptr)
    (d : DCEL) : HalfEdge_ptr * HalfEdge_ptr * DCEL :=
  let n := length (HalfEdges d) in
  (n, S n,
   mkDCEL (Vertices d) (Faces d)
     (HalfEdges d ++ [mkHalfEdge vertex face1 (Some (S n));
                      mkHalfEdge None face2 (Some n)])).

End dcel.

(** ** The collaborators declared outside [tree.go]

    The event queue ([EventQueue] with [NewEventQueue], [Len], [Push],
    [Remove], and the [heap.Pop] of container/heap over it), the parabola
    geometry ([GetXOfInternalNode], [GetYByX]) and [CloseTwins] belong to
    this package but not to [tree.go].  The controller is defined over any
    implementation of them. *)

Class EventQueueImpl := {
  queue : Type;
  (** [NewEventQueue(sites)], given the site events it is seeded with
      (one per site, each with its address). *)
  NewEventQueue : list (Event_ptr * Event.t) -> queue;
  Len : queue -> Z;
  (** [heap.Pop(&q)]: the event handed out and the rest of the queue;
      [None] when the call panics. *)
  heap_Pop : queue -> option (Event_ptr * queue);
  Push : Event_ptr -> Event.t -> queue -> queue;
  Remove : Event_ptr -> queue -> queue;
  (** The event's slot token [e.index], which the queue maintains. *)
  index : queue -> Event_ptr -> Z
}.

Class Geometry := {
  (** [GetXOfInternalNode(node, sweepLine)]; [None] when it fails (an
      error result, on which [findNodeAbove] panics). *)
  GetXOfInternalNode :
    list Node.t -> list Site.t -> option Node_ptr -> Z -> option Z;
  GetYByX : Site.t -> Z -> Z -> Z;
  CloseTwins : list HalfEdge_ptr -> Vertex_ptr -> dcel.DCEL -> dcel.DCEL
}.

(** [image.Point] *)
Module Point.
Record t := mk { X : Z; Y : Z }.
End Point.

Record Rectangle := mkRectangle {
  MinX : Z; MinY : Z; MaxX : Z; MaxY : Z
}.

(** ** The sweep controller *)

Module Voronoi.
Section Controller.
Context {Q : EventQueueImpl} {G : Geometry}.

(** The fields of the [Voronoi] struct, then the memory its pointers
    refer to: the nodes and events allocated so far, and, for each site
    of [Sites], its [Face] back-reference ([Site.Face]). *)
Record t := mk {
  Bounds : Rectangle;
  Sites : list Site.t;
  EventQueue : queue;
  ParabolaTree : option Node_ptr;
  SweepLine : Z;
  DCEL : dcel.DCEL;
  Nodes : list Node.t;
  Events : list Event.t;
  SiteFace : gmap Site_ptr Face_ptr
}.

Definition set_EventQueue x (v : t) :=
  mk (Bounds v) (Sites v) x (ParabolaTree v) (SweepLine v) (DCEL v)
     (Nodes v) (Events v) (SiteFace v).
Definition set_ParabolaTree x (v : t) :=
  mk (Bounds v) (Sites v) (EventQueue v) x (SweepLine v) (DCEL v)
     (Nodes v) (Events v) (SiteFace v).
Definition set_SweepLine x (v : t) :=
  mk (Bounds v) (Sites v) (EventQueue v) (ParabolaTree v) x (DCEL v)
     (Nodes v) (Events v) (SiteFace v).
Definition set_DCEL x (v : t) :=
  mk (Bounds v) (Sites v) (EventQueue v) (ParabolaTree v) (SweepLine v) x
     (Nodes v) (Events v) (SiteFace v).
Definition set_Nodes x (v : t) :=
  mk (Bounds v) (Sites v) (EventQueue v) (ParabolaTree v) (SweepLine v)
     (DCEL v) x (Events v) (SiteFace v).
Definition set_Events x (v : t) :=
  mk (Bounds v) (Sites v) (EventQueue v) (ParabolaTree v) (SweepLine v)
     (DCEL v) (Nodes v) x (SiteFace v).
Definition set_SiteFace x (v : t) :=
  mk (Bounds v) (Sites v) (EventQueue v) (ParabolaTree v) (SweepLine v)
     (DCEL v) (Nodes v) (Events v) x.

(** *** The monad of the methods: state passing with panics

    A method takes the receiver's state and returns its result with the
    state it leaves, also when it panics. *)
Definition M (A : Type) : Type := t -> Res A * t.

#[global] Instance M_ret : MRet M := fun A a v => (Ok a, v).
#[global] Instance M_bind : MBind M := fun A B f m v =>
  match m v with
  | (Ok a, v') => f a v'
  | (Panic, v') => (Panic, v')
  | (OutOfFuel, v') => (OutOfFuel, v')
  end.

Definition lift {A} (r : Res A) : M A := fun v => (r, v).
Definition gets {A} (f : t -> A) : M A := fun v => (Ok (f v), v).
Definition modify (f : t -> t) : M unit := fun v => (Ok tt, f v).

Fixpoint for_each {A} (l : list A) (body : A -> M unit) : M unit :=
  match l with
  | [] => mret tt
  | x :: rest => body x ;; for_each rest body
  end.

(** Reads and writes through pointers. *)
Definition load (p : option Node_ptr) : M Node.t :=
  ns ← gets Nodes; lift (Node.deref ns p).

Definition update (p : option Node_ptr) (f : Node.t -> Node.t) : M unit :=
  nd ← load p;
  match p with
  | Some i => modify (fun v => set_Nodes (<[i := f nd]> (Nodes v)) v)
  | None => lift Panic
  end.

(** [&Node{...}] *)
Definition new_node (nd : Node.t) : M (option Node_ptr) :=
  ns ← gets Nodes;
  modify (set_Nodes (ns ++ [nd]));;
  mret (Some (length ns)).

Definition load_event (e : Event_ptr) : M Event.t :=
  es ← gets Events; lift (index_or_panic es e).

(** [&Event{...}] *)
Definition new_event (ev : Event.t) : M Event_ptr :=
  es ← gets Events;
  modify (set_Events (es ++ [ev]));;
  mret (length es).

Definition load_site (p : option Site_ptr) : M Site.t :=
  ss ← gets Sites;
  match p with
  | Some i => lift (index_or_panic ss i)
  | None => lift Panic
  end.

(** [site.Face] for a [site *Site]. *)
Definition load_face (p : option Site_ptr) : M (option Face_ptr) :=
  _ ← load_site p;
  fs ← gets SiteFace;
  match p with
  | Some i => mret (fs !! i)
  | None => lift Panic
  end.

Definition PrevArc (fuel : nat) (n : option Node_ptr) : M (option Node_ptr) :=
  ns ← gets Nodes; lift (Node.PrevArc fuel ns n).
Definition NextArc (fuel : nat) (n : option Node_ptr) : M (option Node_ptr) :=
  ns ← gets Nodes; lift (Node.NextArc fuel ns n).

(** Modelled from the spec: [NewEventQueue], declared outside [tree.go],
    seeds the queue with one site event per site.  The events are taken
    in the order of the site list, event [i] pointing to site [i] and
    carrying its coordinates. *)
Definition site_events (sites : list Site.t) : list Event.t :=
  imap (fun i s =>
          Event.mk EventSite (Site.X s) (Site.Y s) 0 (Some i) None) sites.

Definition with_addresses {A} (l : list A) : list (nat * A) :=
  imap (fun i x => (i, x)) l.

(** [Reset].  The nodes and events of an earlier run are no longer
    referred to once the queue and the tree are replaced, so the stores
    restart empty; the [Face] back-references live in the sites, which
    [Reset] keeps. *)
Definition Reset (v : t) : t :=
  mk (Bounds v) (Sites v)
     (NewEventQueue (with_addresses (site_events (Sites v))))
     None 0 dcel.NewDCEL
     [] (site_events (Sites v)) (SiteFace v).

(** *** Construction *)

(** [init]: as [Reset], except that the sweep line is left as it is. *)
Definition init (v : t) : t :=
  mk (Bounds v) (Sites v)
     (NewEventQueue (with_addresses (site_events (Sites v))))
     None (SweepLine v) dcel.NewDCEL
     [] (site_events (Sites v)) (SiteFace v).

(** [New]: the struct literal with [Bounds] only, the copy of [sites]
    ([faces] holds the [Face] fields of the sites copied), then [init],
    which assigns the queue and the graph; nothing is allocated yet. *)
Definition New (sites : list Site.t) (faces : gmap Site_ptr Face_ptr)
    (bounds : Rectangle) : t :=
  init (mk bounds sites (NewEventQueue []) None 0 dcel.NewDCEL [] [] faces).

(** The loop of [NewFromPoints]: [sites] is the slice built so far and
    [id] the [int64] counter. *)
Fixpoint NewFromPoints_loop (points : list Point.t) (sites : list Site.t)
    (id : Z) : list Site.t :=
  match points with
  | [] => sites
  | point :: points' =>
      NewFromPoints_loop points'
        (sites ++ [Site.mk (Point.X point) (Point.Y point) id])
        (wrap64 (id + 1))
  end.

(** The sites are built without [Face]. *)
Definition NewFromPoints (points : list Point.t) (bounds : Rectangle) : t :=
  New (NewFromPoints_loop points [] 0) ∅ bounds.

(** *** Circle events *)

Definition addCircleEvent (arc1 arc2 arc3 : option Node_ptr) : M unit :=
  match arc1, arc2, arc3 with
  | Some _, Some _, Some _ =>
      n1 ← load arc1;
      n2 ← load arc2;
      n3 ← load arc3;
      site1 ← load_site (Node.Site n1);
      site2 ← load_site (Node.Site n2);
      site3 ← load_site (Node.Site n3);
      let '(x, y, r, err) := calcCircle site1 site2 site3 in
      match err with
      | Some _ => mret tt
      | None =>
          let bottomY := int_add y r in
          sweep ← gets SweepLine;
          if bottomY <? sweep then mret tt
          else
            event ← new_event (Event.mk EventCircle x bottomY r None None);
            ev ← load_event event;
            modify (fun v => set_EventQueue (Push event ev (EventQueue v)) v);;
            update arc1 (Node.AddLeftEvent event);;
            update arc2 (Node.AddMiddleEvent event);;
            update arc3 (Node.AddRightEvent event);;
            modify (fun v =>
                      set_Events
                        (<[event := Event.set_Node arc2 ev]> (Events v)) v)
      end
  | _, _, _ => mret tt
  end.

(** The body shared by the two cancellation loops: skip an event whose
    slot token says it left the queue, else remove it from the queue. *)
Definition still_queued (e : Event_ptr) : M bool :=
  q ← gets EventQueue;
  mret (negb (index q e <=? -1)).

Definition queue_Remove (e : Event_ptr) : M unit :=
  modify (fun v => set_EventQueue (Remove e (EventQueue v)) v).

(** [removeCircleEvent] removes only the circle events where the node
    is the middle arc. *)
Definition removeCircleEvent (fuel : nat) (middleNode : option Node_ptr)
  : M unit :=
  match middleNode with
  | None => mret tt
  | Some _ =>
      nd ← load middleNode;
      if (0 <? length (Node.MiddleEvents nd))%nat then
        for_each (Node.MiddleEvents nd) (fun e =>
          live ← still_queued e;
          if live : bool then queue_Remove e else mret tt);;
        update middleNode (Node.set_MiddleEvents []);;
        prevArc ← PrevArc fuel middleNode;
        match prevArc with
        | Some _ => update prevArc (Node.set_RightEvents [])
        | None => mret tt
        end;;
        nextArc ← NextArc fuel middleNode;
        match nextArc with
        | Some _ => update nextArc (Node.set_LeftEvents [])
        | None => mret tt
        end
      else mret tt
  end.

(** [n.RemoveEvent(e)] on a [*Node]. *)
Definition Node_RemoveEvent (e : Event_ptr) (n : option Node_ptr) : M unit :=
  nd ← load n;
  nd' ← lift (Node.RemoveEvent e nd);
  update n (fun _ => nd').

(** [removeAllCircleEvents] removes all circle events in which the node
    takes part. *)
Definition removeAllCircleEvents (fuel : nat) (node : option Node_ptr)
  : M unit :=
  match node with
  | None => mret tt
  | Some _ =>
      update node (fun nd =>
        Node.set_MiddleEvents (Node.MiddleEvents nd ++ Node.LeftEvents nd) nd);;
      update node (fun nd =>
        Node.set_MiddleEvents (Node.MiddleEvents nd ++ Node.RightEvents nd) nd);;
      p1 ← PrevArc fuel node;
      n0 ← PrevArc fuel p1;
      n1 ← PrevArc fuel node;
      n2 ← NextArc fuel node;
      x1 ← NextArc fuel node;
      n3 ← NextArc fuel x1;
      let neighbours := [n0; n1; n2; n3] in
      nd ← load node;
      if (0 <? length (Node.MiddleEvents nd))%nat then
        for_each (Node.MiddleEvents nd) (fun e =>
          live ← still_queued e;
          if live : bool then
            queue_Remove e;;
            for_each neighbours (Node_RemoveEvent e)
          else mret tt);;
        update node (Node.set_LeftEvents []);;
        update node (Node.set_MiddleEvents []);;
        update node (Node.set_RightEvents [])
      else mret tt
  end.

(** *** The arc tree under the controller *)

Definition removeArc (node : option Node_ptr) : M unit :=
  nd ← load node;
  let parent := Node.Parent nd in
  p ← load parent;
  let other := if decide (Node.Left p = node) then Node.Right p
               else Node.Left p in
  let grandParent := Node.Parent p in
  match grandParent with
  | None =>
      modify (set_ParabolaTree other);;
      update other (Node.set_Parent None)
  | Some _ =>
      g ← load grandParent;
      if decide (Node.Left g = parent) then
        update grandParent (Node.set_Left other);;
        update other (Node.set_Parent grandParent)
      else if decide (Node.Right g = parent) then
        update grandParent (Node.set_Right other);;
        update other (Node.set_Parent grandParent)
      else mret tt
  end.

(** The descent of [findNodeAbove], [for !node.IsLeaf() { ... }].  The
    two neighbour lookups are the arguments of the log line of the loop
    body. *)
Fixpoint findNodeAbove_loop (fuel : nat) (site : option Site_ptr)
    (node : option Node_ptr) : M (option Node_ptr) :=
  match fuel with
  | O => lift OutOfFuel
  | S f =>
      ns ← gets Nodes;
      leaf ← lift (Node.IsLeaf ns node);
      if leaf : bool then mret node
      else
        _ ← lift (Node.PrevChildArc fuel ns node);
        _ ← lift (Node.NextChildArc fuel ns node);
        ss ← gets Sites;
        sweep ← gets SweepLine;
        match GetXOfInternalNode ns ss node sweep with
        | None => lift Panic
        | Some x =>
            s ← load_site site;
            nd ← load node;
            if Site.X s <? x then findNodeAbove_loop f site (Node.Left nd)
            else findNodeAbove_loop f site (Node.Right nd)
        end
  end.

Definition findNodeAbove (fuel : nat) (site : option Site_ptr)
  : M (option Node_ptr) :=
  root ← gets ParabolaTree;
  findNodeAbove_loop fuel site root.

(** Calls into the planar graph. *)
Definition DCEL_NewFace : M Face_ptr :=
  d ← gets DCEL;
  let '(f, d') := dcel.NewFace d in
  modify (set_DCEL d');; mret f.

Definition DCEL_NewVertex (x y : Z) : M Vertex_ptr :=
  d ← gets DCEL;
  let '(p, d') := dcel.NewVertex x y d in
  modify (set_DCEL d');; mret p.

Definition DCEL_NewEdge (face1 face2 : option Face_ptr) (vertex : Vertex_ptr)
  : M (HalfEdge_ptr * HalfEdge_ptr) :=
  d ← gets DCEL;
  let '(e1, e2, d') := dcel.NewEdge face1 face2 (Some vertex) d in
  modify (set_DCEL d');; mret (e1, e2).

Definition do_CloseTwins (edges : list HalfEdge_ptr) (vertex : Vertex_ptr)
  : M unit :=
  modify (fun v => set_DCEL (CloseTwins edges vertex (DCEL v)) v).

(** *** Site events *)

(** The first lines of [handleSiteEvent]: a face for the site, linked
    to it. *)
Definition new_site_face (site : option Site_ptr) : M unit :=
  face ← DCEL_NewFace;
  s ← load_site site;
  modify (fun v =>
            set_DCEL (dcel.set_Face face (dcel.mkFace (Site.ID s) site)
                        (DCEL v)) v);;
  match site with
  | Some i => modify (fun v => set_SiteFace (<[i := face]> (SiteFace v)) v)
  | None => lift Panic
  end.

(** The split of [arcAbove] by the arc of [site]: the node becomes the
    breakpoint above [oldArcRight] and a new breakpoint, which is above
    [oldArcLeft] and [newArc].  Returns
    [(oldArcLeft, newArc, oldArcRight)]. *)
Definition split_arc (arcAbove : option Node_ptr) (site : option Site_ptr)
  : M (option Node_ptr * option Node_ptr * option Node_ptr) :=
  a ← load arcAbove;
  oldArcRight ← new_node
    (Node.set_Parent arcAbove
       (Node.set_LeftEvents (Node.LeftEvents a)
          (Node.set_Site (Node.Site a) Node.zero)));
  update arcAbove (Node.set_Right oldArcRight);;
  a ← load arcAbove;
  update oldArcRight (Node.set_RightEdges (Node.RightEdges a));;
  mid ← new_node (Node.set_Parent arcAbove Node.zero);
  update arcAbove (Node.set_Left mid);;
  newArc ← new_node (Node.set_Parent mid (Node.set_Site site Node.zero));
  update mid (Node.set_Right newArc);;
  a ← load arcAbove;
  oldArcLeft ← new_node
    (Node.set_Parent mid
       (Node.set_RightEvents (Node.RightEvents a)
          (Node.set_Site (Node.Site a) Node.zero)));
  update mid (Node.set_Left oldArcLeft);;
  a ← load arcAbove;
  update oldArcLeft (Node.set_LeftEdges (Node.LeftEdges a));;
  update arcAbove (Node.set_Site None);;
  update arcAbove (Node.set_LeftEvents []);;
  update arcAbove (Node.set_MiddleEvents []);;
  update arcAbove (Node.set_RightEvents []);;
  mret (oldArcLeft, newArc, oldArcRight).

(** [n.Site.Face] for a [n *Node]. *)
Definition face_of_arc (n : option Node_ptr) : M (option Face_ptr) :=
  nd ← load n; load_face (Node.Site nd).

(** The last part of [handleSiteEvent], after the split: the two pairs
    of half edges that leave [vertex] between the new arc and the two
    copies, then the circle events of the two triples around the new
    arc. *)
Definition link_new_arc (fuel : nat) (vertex : Vertex_ptr)
    (oldArcLeft newArc oldArcRight : option Node_ptr) : M unit :=
  f1 ← face_of_arc oldArcLeft;
  f2 ← face_of_arc newArc;
  '(edge1, edge2) ← DCEL_NewEdge f1 f2 vertex;
  update oldArcLeft
    (fun n => Node.set_RightEdges (Node.RightEdges n ++ [edge1]) n);;
  update newArc
    (fun n => Node.set_LeftEdges (Node.LeftEdges n ++ [edge2]) n);;
  f3 ← face_of_arc newArc;
  f4 ← face_of_arc oldArcRight;
  '(edge3, edge4) ← DCEL_NewEdge f3 f4 vertex;
  update newArc
    (fun n => Node.set_RightEdges (Node.RightEdges n ++ [edge3]) n);;
  update oldArcRight
    (fun n => Node.set_LeftEdges (Node.LeftEdges n ++ [edge4]) n);;
  prevArc ← PrevArc fuel newArc;
  prevPrevArc ← PrevArc fuel prevArc;
  addCircleEvent prevPrevArc prevArc newArc;;
  nextArc ← NextArc fuel newArc;
  nextNextArc ← NextArc fuel nextArc;
  addCircleEvent newArc nextArc nextNextArc.

Definition handleSiteEvent (fuel : nat) (event : Event_ptr) : M unit :=
  ev ← load_event event;
  new_site_face (Event.Site ev);;
  root ← gets ParabolaTree;
  match root with
  | None =>
      r ← new_node (Node.set_Site (Event.Site ev) Node.zero);
      modify (set_ParabolaTree r)
  | Some _ =>
      arcAbove ← findNodeAbove fuel (Event.Site ev);
      match arcAbove with
      | None => mret tt
      | Some _ =>
          removeCircleEvent fuel arcAbove;;
          a ← load arcAbove;
          asite ← load_site (Node.Site a);
          esite ← load_site (Event.Site ev);
          sweep ← gets SweepLine;
          let y := GetYByX asite (Site.X esite) sweep in
          vertex ← DCEL_NewVertex (Site.X esite) y;
          '(oldArcLeft, newArc, oldArcRight) ←
            split_arc arcAbove (Event.Site ev);
          link_new_arc fuel vertex oldArcLeft newArc oldArcRight
      end
  end.

(** *** Circle events firing *)

Definition handleCircleEvent (fuel : nat) (event : Event_ptr) : M unit :=
  ev ← load_event event;
  vertex ← DCEL_NewVertex (Event.X ev) (int_sub (Event.Y ev) (Event.Radius ev));
  nd ← load (Event.Node ev);
  do_CloseTwins (Node.LeftEdges nd) vertex;;
  nd ← load (Event.Node ev);
  do_CloseTwins (Node.RightEdges nd) vertex;;
  prevArc ← PrevArc fuel (Event.Node ev);
  nextArc ← NextArc fuel (Event.Node ev);
  removeArc (Event.Node ev);;
  removeAllCircleEvents fuel (Event.Node ev);;
  prevPrevArc ← PrevArc fuel prevArc;
  addCircleEvent prevPrevArc prevArc nextArc;;
  nextNextArc ← NextArc fuel nextArc;
  addCircleEvent prevArc nextArc nextNextArc;;
  p ← load prevArc;
  do_CloseTwins (Node.RightEdges p) vertex;;
  n ← load nextArc;
  do_CloseTwins (Node.LeftEdges n) vertex;;
  f1 ← face_of_arc prevArc;
  f2 ← face_of_arc nextArc;
  '(edge1, edge2) ← DCEL_NewEdge f1 f2 vertex;
  update prevArc
    (fun n => Node.set_RightEdges (Node.RightEdges n ++ [edge1]) n);;
  update nextArc
    (fun n => Node.set_LeftEdges (Node.LeftEdges n ++ [edge2]) n).

(** *** The step loop *)

Definition HandleNextEvent (fuel : nat) : M unit :=
  q ← gets EventQueue;
  if Len q <=? 0 then mret tt
  else
    match heap_Pop q with
    | None => lift Panic
    | Some (event, q') =>
        modify (set_EventQueue q');;
        ev ← load_event event;
        sweep ← gets SweepLine;
        if Event.Y ev <? sweep then mret tt
        else
          modify (set_SweepLine (Event.Y ev));;
          if decide (Event.EventType ev = EventSite)
          then handleSiteEvent fuel event
          else handleCircleEvent fuel event
    end.

(** [for v.EventQueue.Len() > 0 { v.HandleNextEvent() }] *)
Fixpoint Generate_loop (fuel : nat) (n : nat) : M unit :=
  match n with
  | O => lift OutOfFuel
  | S n' =>
      q ← gets EventQueue;
      if 0 <? Len q then HandleNextEvent fuel;; Generate_loop fuel n'
      else mret tt
  end.

Definition Generate (fuel : nat) : M unit :=
  modify Reset;; Generate_loop fuel fuel.

End Controller.

Arguments t : clear implicits.
Arguments t Q : assert.
Arguments M : clear implicits.
Arguments M Q A%_type : assert.

End Voronoi.

(** ** A reference implementation of the collaborators

    Used to run the controller on concrete inputs. *)

Module Reference.

(** Modelled from the spec: the event queue, declared outside [tree.go],
    is "a priority queue of events ordered by the sweep coordinate,
    supporting push, pop-minimum, and in-place removal of an arbitrary
    still-queued event"; equal trigger y falls back on insertion order;
    a removed event's slot token is the sentinel -1.  The queue is the
    list of the queued events with their trigger y, oldest first. *)
Definition queue_t : Type := list (Event_ptr * Z).

Fixpoint min_entry (best : Event_ptr * Z) (l : queue_t) : Event_ptr * Z :=
  match l with
  | [] => best
  | x :: rest =>
      if x.2 <? best.2 then min_entry x rest else min_entry best rest
  end.

Definition without (e : Event_ptr) (q : queue_t) : queue_t :=
  filter (fun x => x.1 <> e) q.

Definition pop_min (q : queue_t) : option (Event_ptr * queue_t) :=
  match q with
  | [] => None
  | x :: rest => let m := min_entry x rest in Some (m.1, without m.1 q)
  end.

Fixpoint slot (e : Event_ptr) (i : Z) (q : queue_t) : Z :=
  match q with
  | [] => -1
  | x :: rest => if decide (x.1 = e) then i else slot e (i + 1) rest
  end.

Definition list_queue : EventQueueImpl := {|
  queue := queue_t;
  NewEventQueue := fun evs => (fun x => (x.1, Event.Y x.2)) <$> evs;
  Len := fun q => Z.of_nat (length q);
  heap_Pop := pop_min;
  Push := fun e ev q => q ++ [(e, Event.Y ev)];
  Remove := without;
  index := fun q e => slot e 0 q
|}.

Open Scope float_scope.

(** Modelled from the spec: [GetYByX], declared outside [tree.go], is
    the "y-coordinate of a parabola (arc) at a given x and sweep
    position", the parabola with the site as focus and the sweep line as
    directrix. *)
Definition parabola_y (site : Site.t) (x sweepLine : Z) : Z :=
  let fx := float64 (Site.X site) in
  let fy := float64 (Site.Y site) in
  let d := float64 sweepLine in
  let dx := float64 x - fx in
  int_of_float64 ((dx * dx + fy * fy - d * d) / (2 * (fy - d))).

(** Modelled from the spec: [GetXOfInternalNode], declared outside
    [tree.go], is the "breakpoint x-coordinate between two arcs at a given
    sweep position", the arcs being the ones next to the node on its left
    and on its right: where the left parabola passes under the right
    one. *)
Definition breakpoint_x (l r : Site.t) (sweepLine : Z) : option Z :=
  let x1 := float64 (Site.X l) in
  let y1 := float64 (Site.Y l) in
  let x2 := float64 (Site.X r) in
  let y2 := float64 (Site.Y r) in
  let d := float64 sweepLine in
  if y1 =? y2 then Some (int_of_float64 ((x1 + x2) / 2))
  else if y1 =? d then Some (Site.X l)
  else if y2 =? d then Some (Site.X r)
  else
    let d1 := 2 * (y1 - d) in
    let d2 := 2 * (y2 - d) in
    let a := 1 / d1 - 1 / d2 in
    let b := -2 * (x1 / d1 - x2 / d2) in
    let c := (x1 * x1 + y1 * y1 - d * d) / d1
             - (x2 * x2 + y2 * y2 - d * d) / d2 in
    let disc := b * b - 4 * a * c in
    if disc <? 0 then None
    else Some (int_of_float64 ((- b - PrimFloat.sqrt disc) / (2 * a))).

Close Scope float_scope.

Definition site_of_arc (ns : list Node.t) (ss : list Site.t)
    (n : option Node_ptr) : option Site.t :=
  match Node.deref ns n with
  | Ok nd => i ← Node.Site nd; ss !! i
  | _ => None
  end.

Definition internal_x (ns : list Node.t) (ss : list Site.t)
    (node : option Node_ptr) (sweepLine : Z) : option Z :=
  match Node.PrevChildArc (length ns) ns node,
        Node.NextChildArc (length ns) ns node with
  | Ok l, Ok r =>
      sl ← site_of_arc ns ss l;
      sr ← site_of_arc ns ss r;
      breakpoint_x sl sr sweepLine
  | _, _ => None
  end.

(** Modelled from the spec: [CloseTwins], declared outside [tree.go],
    "closes a half-edge pair by assigning it an origin vertex": of each
    listed half-edge and its twin, the first one with no vertex yet gets
    the vertex. *)
Definition close_edge (vertex : Vertex_ptr) (d : dcel.DCEL) (h : HalfEdge_ptr)
  : dcel.DCEL :=
  let set_target i d :=
    match dcel.HalfEdges d !! i with
    | Some he =>
        dcel.mkDCEL (dcel.Vertices d) (dcel.Faces d)
          (<[i := dcel.mkHalfEdge (Some vertex) (dcel.IncidentFace he)
                    (dcel.Twin he)]> (dcel.HalfEdges d))
    | None => d
    end in
  match dcel.HalfEdges d !! h with
  | Some he =>
      match dcel.Target he, dcel.Twin he with
      | None, _ => set_target h d
      | Some _, Some tw =>
          match dcel.HalfEdges d !! tw with
          | Some twe =>
              match dcel.Target twe with
              | None => set_target tw d
              | Some _ => d
              end
          | None => d
          end
      | Some _, None => d
      end
  | None => d
  end.

Definition parabolas : Geometry := {|
  GetXOfInternalNode := internal_x;
  GetYByX := parabola_y;
  CloseTwins := fun edges vertex d => foldl (close_edge vertex) d edges
|}.

End Reference.

(** ** The shape of the arc tree in the store *)

(** The binary tree that a root pointer stands for: each constructor
    carries the address of its node. *)
Inductive tree :=
| TLeaf (p : Node_ptr)
| TNode (p : Node_ptr) (l r : tree).

Definition root_of (t : tree) : Node_ptr :=
  match t with
  | TLeaf p => p
  | TNode p _ _ => p
  end.

Fixpoint leaves (t : tree) : list Node_ptr :=
  match t with
  | TLeaf p => [p]
  | TNode _ l r => leaves l ++ leaves r
  end.

Fixpoint internals (t : tree) : list Node_ptr :=
  match t with
  | TLeaf _ => []
  | TNode p l r => p :: internals l ++ internals r
  end.

Fixpoint height (t : tree) : nat :=
  match t with
  | TLeaf _ => 0
  | TNode _ l r => S (height l `max` height r)
  end.

Fixpoint leftmost (t : tree) : Node_ptr :=
  match t with
  | TLeaf p => p
  | TNode _ l _ => leftmost l
  end.

Fixpoint rightmost (t : tree) : Node_ptr :=
  match t with
  | TLeaf p => p
  | TNode _ _ r => rightmost r
  end.

(** [is_tree ns parent t]: the store [ns] holds the well-formed tree [t]
    below [parent]: a leaf has no child, a breakpoint has its two
    children, and every node points back to its parent. *)
Fixpoint is_tree (ns : list Node.t) (parent : option Node_ptr) (t : tree)
  : Prop :=
  match t with
  | TLeaf p =>
      exists nd, ns !! p = Some nd
        /\ Node.Parent nd = parent
        /\ Node.Left nd = None /\ Node.Right nd = None
  | TNode p l r =>
      exists nd, ns !! p = Some nd
        /\ Node.Parent nd = parent
        /\ Node.Left nd = Some (root_of l)
        /\ Node.Right nd = Some (root_of r)
        /\ is_tree ns (Some p) l /\ is_tree ns (Some p) r
  end.

(** The tree read back from the store, for running examples. *)
Fixpoint tree_of (fuel : nat) (ns : list Node.t) (p : Node_ptr)
  : option tree :=
  match fuel with
  | O => None
  | S f =>
      nd ← ns !! p;
      match Node.Left nd, Node.Right nd with
      | None, None => Some (TLeaf p)
      | Some l, Some r =>
          tl ← tree_of f ns l; tr ← tree_of f ns r; Some (TNode p tl tr)
      | _, _ => None
      end
  end.

(** The store [ns] with node [p] replaced by [a] and the nodes [ex]
    allocated after it. *)
Definition grown (ns : list Node.t) (p : Node_ptr) (a : Node.t)
    (ex : list Node.t) : list Node.t :=
  <[p := a]> ns ++ ex.

(** The store after the arc [a] at [p] is split around an arc of
    [site]: [p] becomes a breakpoint, and four nodes are allocated, in
    this order: the right copy of the arc, the second breakpoint, the new
    arc, the left copy of the arc. *)
Definition split_nodes (ns : list Node.t) (p : Node_ptr) (a : Node.t)
    (site : option Site_ptr) : list Node.t :=
  let n := length ns in
  grown ns p
    (Node.mk None [] [] [] (Node.Parent a) (Some (n + 1)%nat) (Some (n + 0)%nat)
       (Node.LeftEdges a) (Node.RightEdges a))
    [Node.mk (Node.Site a) (Node.LeftEvents a) [] [] (Some p) None None
       [] (Node.RightEdges a);
     Node.mk None [] [] [] (Some p) (Some (n + 3)%nat) (Some (n + 2)%nat) [] [];
     Node.mk site [] [] [] (Some (n + 1)%nat) None None [] [];
     Node.mk (Node.Site a) [] [] (Node.RightEvents a) (Some (n + 1)%nat)
       None None (Node.LeftEdges a) []].

(** A tree and all the trees below it. *)
Fixpoint subtrees (t : tree) : list tree :=
  t :: match t with
       | TLeaf _ => []
       | TNode _ l r => subtrees l ++ subtrees r
       end.

(** The depth of the leftmost and of the rightmost leaf. *)
Fixpoint ldepth (t : tree) : nat :=
  match t with
  | TLeaf _ => 0
  | TNode _ l _ => S (ldepth l)
  end.

Fixpoint rdepth (t : tree) : nat :=
  match t with
  | TLeaf _ => 0
  | TNode _ _ r => S (rdepth r)
  end.

(** The part of [PrevArc] that climbs from a leaf: nil when the node has
    no parent, else the loop. *)
Definition climb_prev (ns : list Node.t) (fuel : nat) (n : option Node_ptr)
  : Res (option (option Node_ptr)) :=
  nd ← Node.deref ns n;
  match Node.Parent nd with
  | None => Ok None
  | Some _ => Node.PrevArc_loop fuel ns n (Node.Parent nd)
  end.

Definition climb_next (ns : list Node.t) (fuel : nat) (n : option Node_ptr)
  : Res (option (option Node_ptr)) :=
  nd ← Node.deref ns n;
  match Node.Parent nd with
  | None => Ok None
  | Some _ => Node.NextArc_loop fuel ns n (Node.Parent nd)
  end.

(** ** Concrete states *)

Module Examples.

Definition Vor : Type := Voronoi.t Reference.list_queue.

Definition run (fuel : nat) (v : Vor) : Res unit * Vor :=
  Voronoi.Generate (G := Reference.parabolas) fuel v.

Definition step (fuel : nat) (v : Vor) : Res unit * Vor :=
  Voronoi.HandleNextEvent (G := Reference.parabolas) fuel v.

Definition empty_queue : @queue Reference.list_queue := [].

Definition fresh (sites : list Site.t) : Vor :=
  Voronoi.mk (mkRectangle 0 0 10 10) sites
    (@NewEventQueue Reference.list_queue []) None 0 dcel.NewDCEL [] [] ∅.

(** Two sites, the second below the first: after both site events the
    first arc is split in three around the arc of the second site. *)
Definition two_sites : Vor := fresh [Site.mk 0 0 0; Site.mk 5 10 1].

Definition after_two_sites : Vor := Eval vm_compute in (run 8 two_sites).2.

Definition tree_after_two_sites : tree :=
  TNode 0 (TNode 2 (TLeaf 4) (TLeaf 3)) (TLeaf 1).

(** Three sites in general position: the third site event finds the
    triple of arcs of sites 0, 1, 2 converging and queues a circle
    event. *)
Definition three_sites : Vor :=
  fresh [Site.mk 0 0 0; Site.mk 4 2 1; Site.mk 2 6 2].

Fixpoint steps (n : nat) (v : Vor) : Res unit * Vor :=
  match n with
  | O => (Ok tt, v)
  | S k =>
      match step 20 v with
      | (Ok _, v') => steps k v'
      | r => r
      end
  end.

Definition after_three_sites : Vor :=
  Eval vm_compute in (steps 3 (Voronoi.Reset three_sites)).2.

(** The state after the three site events with the sweep position
    moved past the trigger y of the queued circle event. *)
Definition stale : Vor := Voronoi.set_SweepLine 7 after_three_sites.


(** Four sites: the fourth site event splits the leftmost arc (node 4),
    which is then the left participant of the queued circle event 4. *)
Definition four_sites : Vor :=
  fresh [Site.mk 0 0 0; Site.mk 4 2 1; Site.mk 2 6 2; Site.mk (-5) 6 3].

Definition before_fourth_site : Vor :=
  Eval vm_compute in (steps 3 (Voronoi.Reset four_sites)).2.

(** The arc tree of [before_fourth_site]: five arcs. *)
Definition tree_before_fourth_site : tree :=
  TNode 0 (TNode 2 (TLeaf 4) (TNode 3 (TNode 6 (TLeaf 8) (TLeaf 7)) (TLeaf 5)))
    (TLeaf 1).

(** The state of [two_sites] after its first site event: one arc. *)
Definition after_first_site : Vor :=
  Eval vm_compute in (steps 1 (Voronoi.Reset two_sites)).2.

(** An arc that takes part in five circle events: two as left, one as
    middle and two as right arc. *)
Definition busy_arc : Node.t :=
  Node.mk (Some 1%nat) [1%nat; 2%nat] [3%nat] [4%nat; 5%nat]
    (Some 6%nat) None None [0%nat] [1%nat].

(** A triple whose second chord is horizontal. *)
Definition flat_second_chord : Site.t * Site.t * Site.t :=
  (Site.mk 0 0 0, Site.mk 1 1 1, Site.mk 0 1 2).

End Examples.

(** ** Well-formed beach lines *)

Section BeachLine.
Context {Q : EventQueueImpl}.

(** [p] is an arc of [v] with site [s]. *)
Definition arc_with_site (v : Voronoi.t Q) (p : Node_ptr) (s : Site.t) : Prop :=
  exists nd i, Voronoi.Nodes v !! p = Some nd
    /\ Node.Site nd = Some i /\ Voronoi.Sites v !! i = Some s.

(** The state [addCircleEvent] leaves when it queues the event. *)
Definition with_circle_event (v : Voronoi.t Q) (a b c : Node_ptr) (x bottomY r : Z)
  : Voronoi.t Q :=
  let event := length (Voronoi.Events v) in
  let ev := Event.mk EventCircle x bottomY r None None in
  Voronoi.mk (Voronoi.Bounds v) (Voronoi.Sites v)
    (Push event ev (Voronoi.EventQueue v))
    (Voronoi.ParabolaTree v) (Voronoi.SweepLine v) (Voronoi.DCEL v)
    (alter (Node.AddRightEvent event) c
       (alter (Node.AddMiddleEvent event) b
          (alter (Node.AddLeftEvent event) a (Voronoi.Nodes v))))
    (Voronoi.Events v ++ [Event.set_Node (Some b) ev])
    (Voronoi.SiteFace v).

(** The arc tree of [v] is the well-formed tree [t], no arc occurs in
    it twice, and each of its arcs has a site of the site list. *)
Definition wf_beach (v : Voronoi.t Q) (t : tree) : Prop :=
  is_tree (Voronoi.Nodes v) None t
  /\ Voronoi.ParabolaTree v = Some (root_of t)
  /\ NoDup (leaves t)
  /\ forall x, x ∈ leaves t -> exists s, arc_with_site v x s.

(** The invariant of the steps of a site event on the beach line [t]
    over the sites [ss], and the methods that return normally and keep
    it, with a result that satisfies [post]. *)
Definition beach_inv (ss : list Site.t) (t : tree) (v : Voronoi.t Q) : Prop :=
  wf_beach v t /\ Voronoi.Sites v = ss.

Definition safe {A} (ss : list Site.t) (t : tree) (post : A -> Prop)
    (m : Voronoi.M Q A) : Prop :=
  forall v, beach_inv ss t v ->
    exists a v', m v = (Ok a, v') /\ beach_inv ss t v' /\ post a.

(** Nil, or an arc of [t]. *)
Definition arc_or_nil (t : tree) (x : option Node_ptr) : Prop :=
  x = None \/ exists q, x = Some q /\ q ∈ leaves t.

End BeachLine.

(** Two nodes with the same site and the same links; two stores with
    the same nodes up to their event and edge lists. *)
Definition same_links (a b : Node.t) : Prop :=
  Node.Site a = Node.Site b /\ Node.Parent a = Node.Parent b
  /\ Node.Left a = Node.Left b /\ Node.Right a = Node.Right b.

Definition same_shape (ns ns' : list Node.t) : Prop :=
  Forall2 same_links ns ns'.

(** [graft p u t]: the tree [t] with the leaf [p] replaced by [u]. *)
Fixpoint graft (p : Node_ptr) (u : tree) (t : tree) : tree :=
  match t with
  | TLeaf q => if decide (q = p) then u else t
  | TNode q l r => TNode q (graft p u l) (graft p u r)
  end.

(** What the split of the arc [p] puts in its place, in a store that
    had [n] nodes. *)
Definition split_tree (p : Node_ptr) (n : nat) : tree :=
  TNode p (TNode (n + 1) (TLeaf (n + 3)) (TLeaf (n + 2))) (TLeaf (n + 0)).

(** The addresses of all the nodes of a tree, root first. *)
Fixpoint nodes (t : tree) : list Node_ptr :=
  match t with
  | TLeaf p => [p]
  | TNode p l r => p :: nodes l ++ nodes r
  end.

(** [prune x t]: the tree [t] without the arc [x]: the breakpoint above
    [x] gives its place to its other child. *)
Fixpoint prune (x : Node_ptr) (t : tree) : tree :=
  match t with
  | TLeaf _ => t
  | TNode p l r =>
      if decide (root_of l = x) then r
      else if decide (root_of r = x) then l
      else TNode p (prune x l) (prune x r)
  end.

(** ** Runs of the step loop *)

Section Runs.
Context {Q : EventQueueImpl} {G : Geometry}.

(** The state after one call of [HandleNextEvent], and after [n]
    successive calls. *)
Definition step_state (fuel : nat) (v : Voronoi.t Q) : Voronoi.t Q :=
  (Voronoi.HandleNextEvent fuel v).2.

Definition after_steps (fuel n : nat) (v : Voronoi.t Q) : Voronoi.t Q :=
  Nat.iter n (step_state fuel) v.

(** [Generate] called a second time on the same instance: the state
    the second call leaves and its result. *)
Definition Generate_again (fuel : nat) (v : Voronoi.t Q)
  : Res unit * Voronoi.t Q :=
  Voronoi.Generate fuel (Voronoi.Generate fuel v).2.

(** [n] successive calls of [HandleNextEvent] that all return, and the
    state they leave. *)
Fixpoint run_steps (fuel n : nat) (v : Voronoi.t Q) : Res (Voronoi.t Q) :=
  match n with
  | O => Ok v
  | S k =>
      match Voronoi.HandleNextEvent fuel v with
      | (Ok _, v') => run_steps fuel k v'
      | (Panic, _) => Panic
      | (OutOfFuel, _) => OutOfFuel
      end
  end.

(** The circle event is among the middle events of its middle arc. *)
Definition listed_by_middle_arc (v : Voronoi.t Q) (event : Event_ptr) : bool :=
  match Voronoi.Events v !! event with
  | Some ev =>
      match Node.deref (Voronoi.Nodes v) (Event.Node ev) with
      | Ok nd => CircleEvents.HasEvent event (Node.MiddleEvents nd)
      | _ => false
      end
  | None => false
  end.

End Runs.

(** ** Two runs side by side *)

(** The counts read off a planar graph: vertices, edges (pairs of twin
    half-edges), faces, and, face by face, the half-edges incident to
    the face. *)
Definition vertex_count (d : dcel.DCEL) : nat := length (dcel.Vertices d).

Definition half_edge_count (d : dcel.DCEL) : nat :=
  length (dcel.HalfEdges d).

Definition edge_count (d : dcel.DCEL) : nat :=
  Nat.div2 (length (dcel.HalfEdges d)).

Definition face_count (d : dcel.DCEL) : nat := length (dcel.Faces d).

Definition edges_of_face (d : dcel.DCEL) (f : Face_ptr) : nat :=
  length (filter (fun e => dcel.IncidentFace e = Some f) (dcel.HalfEdges d)).

Definition face_edge_counts (d : dcel.DCEL) : list nat :=
  edges_of_face d <$> seq 0 (face_count d).

Section Alike.
Context {Q : EventQueueImpl}.

(** The site of the node, if it has one, is among [W]. *)
Definition site_in (W : Site_ptr -> Prop) (nd : Node.t) : Prop :=
  forall i, Node.Site nd = Some i -> W i.

(** [alike W v1 v2]: the two states differ at most in the [Face]
    back-references of the sites outside [W], and no node has a site
    outside [W]. *)
Definition alike (W : Site_ptr -> Prop) (v1 v2 : Voronoi.t Q) : Prop :=
  v2 = Voronoi.set_SiteFace (Voronoi.SiteFace v2) v1
  /\ (forall i, W i -> Voronoi.SiteFace v1 !! i = Voronoi.SiteFace v2 !! i)
  /\ Forall (site_in W) (Voronoi.Nodes v1).

(** [m] has the same result in two states alike on [W], a result that
    satisfies [post], and leaves them alike on [W]. *)
Definition rel {A} (W : Site_ptr -> Prop) (post : A -> Prop)
    (m : Voronoi.M Q A) : Prop :=
  forall v1 v2, alike W v1 v2 ->
    (m v1).1 = (m v2).1 /\ alike W (m v1).2 (m v2).2
    /\ forall a, (m v1).1 = Ok a -> post a.

(** The same, when the set of sites may grow. *)
Definition rel_any {A} (m : Voronoi.M Q A) : Prop :=
  forall v1 v2, (exists W, alike W v1 v2) ->
    (m v1).1 = (m v2).1 /\ exists W, alike W (m v1).2 (m v2).2.

End Alike.

(** ** Cancelled events *)

(** The queue after the loop of the two cancellation methods over the
    events [es]: each event still queued (its slot token is above -1
    when its turn comes) is removed. *)
Definition cancel_queued {Q : EventQueueImpl} (es : list Event_ptr) (q : queue)
  : queue :=
  foldl (fun q e => if index q e <=? -1 then q else Remove e q) q es.

(** A write through a pointer that may be nil, in which case nothing is
    written. *)
Definition alter_at {A} (g : A -> A) (p : option nat) (l : list A) : list A :=
  match p with
  | Some i => alter g i l
  | None => l
  end.

(** ** Queued events and the arcs that list them *)

Section Queued.
Context {Q : EventQueueImpl}.

(** The test of the two cancellation loops, [e.index <= -1], fails: the
    event is still in the queue. *)
Definition queued (q : queue) (e : Event_ptr) : Prop :=
  (index q e <=? -1) = false.

(** Modelled from the spec: the event queue, declared outside
    [tree.go], is a priority queue "supporting push, pop-minimum, and
    in-place removal (cancellation) of an arbitrary still-queued event",
    seeded "with one site-event per site"; an event out of the queue has
    the slot token -1.  So: the events of a new queue are the ones it is
    seeded with; the event popped was queued, and the others queued
    after a pop were queued before; after a push the pushed event and
    the events queued before are the only ones queued; the removal of a
    queued event leaves it out and adds none. *)
Class LawfulQueue : Prop := {
  queued_New evs e : queued (NewEventQueue evs) e -> e ∈ evs.*1;
  queued_Pop q e q' :
    heap_Pop q = Some (e, q') ->
    queued q e /\ forall e', queued q' e' -> queued q e';
  queued_Push e ev q e' : queued (Push e ev q) e' -> e' = e \/ queued q e';
  queued_Remove e q e' :
    queued q e -> queued (Remove e q) e' -> queued q e' /\ e' <> e
}.

(** The middle events of the node at [x] (none where there is no
    node). *)
Definition mid (v : Voronoi.t Q) (x : Node_ptr) : list Event_ptr :=
  match Voronoi.Nodes v !! x with
  | Some nd => Node.MiddleEvents nd
  | None => []
  end.

(** Every queued event is allocated, and every queued circle event is
    listed by its middle arc. *)
Definition queue_listed (v : Voronoi.t Q) : Prop :=
  forall e, queued (Voronoi.EventQueue v) e ->
    exists ev, Voronoi.Events v !! e = Some ev
      /\ (Event.EventType ev = EventCircle ->
          listed_by_middle_arc v e = true).

(** During a cancellation: besides [queue_listed], the events of [L]
    are out of the queue, and the middle events of [x] are among [L0]. *)
Definition cancelling (L : list Event_ptr) (x : Node_ptr)
    (L0 : list Event_ptr) (v : Voronoi.t Q) : Prop :=
  queue_listed v
  /\ (forall e, e ∈ L -> ~ queued (Voronoi.EventQueue v) e)
  /\ mid v x ⊆ L0.

(** Two states with the same queue, the same events and the same middle
    events node by node; methods that leave such a state, whatever their
    result. *)
Definition same_listing (v v' : Voronoi.t Q) : Prop :=
  Voronoi.EventQueue v' = Voronoi.EventQueue v
  /\ Voronoi.Events v' = Voronoi.Events v
  /\ forall x, mid v' x = mid v x.

Definition quiet {A} (m : Voronoi.M Q A) : Prop :=
  forall v, same_listing v (m v).2.

End Queued.

(** ** The links of the arc tree *)

(** What the shape of the tree reads of a node, and of the state: the
    site and the three links of each node, and the root pointer. *)
Definition links (nd : Node.t)
  : option Site_ptr * option Node_ptr * option Node_ptr * option Node_ptr :=
  (Node.Site nd, Node.Parent nd, Node.Left nd, Node.Right nd).

Definition skeleton {Q : EventQueueImpl} (v : Voronoi.t Q) :=
  (links <$> Voronoi.Nodes v, Voronoi.ParabolaTree v).

(** ** Views of the state *)

Section Views.
Context {Q : EventQueueImpl}.

(** [keeps f m]: running [m] does not change the view [f] of the state,
    whatever the result, a panic included. *)
Definition keeps {A B} (f : Voronoi.t Q -> B) (m : Voronoi.M Q A) : Prop :=
  forall v, f (m v).2 = f v.

(** Views that no write to the tree, the stores or the queue changes;
    that no write to the graph changes; that no write to a face
    back-reference changes. *)
Class Stable {B} (f : Voronoi.t Q -> B) : Prop := {
  stable_Nodes x v : f (Voronoi.set_Nodes x v) = f v;
  stable_Events x v : f (Voronoi.set_Events x v) = f v;
  stable_EventQueue x v : f (Voronoi.set_EventQueue x v) = f v;
  stable_ParabolaTree x v : f (Voronoi.set_ParabolaTree x v) = f v
}.

Class StableDCEL {B} (f : Voronoi.t Q -> B) : Prop :=
  stable_DCEL x v : f (Voronoi.set_DCEL x v) = f v.

Class StableFace {B} (f : Voronoi.t Q -> B) : Prop :=
  stable_SiteFace x v : f (Voronoi.set_SiteFace x v) = f v.

(** [adds f k m]: when [m] returns, it has added [k] to the count [f]
    of the state. *)
Definition adds {A} (f : Voronoi.t Q -> nat) (k : nat) (m : Voronoi.M Q A)
  : Prop :=
  forall v a v', m v = (Ok a, v') -> f v' = (f v + k)%nat.

End Views.

(** * Properties *)

(** ** Circle-event participation lists *)

Lemma HasEvent_elem_of e (ce : list Event_ptr) :
  CircleEvents.HasEvent e ce = true <-> e ∈ ce.
Proof.
  induction ce as [|x ce IH]; simpl.
  - split; [discriminate | intros H; inversion H].
  - destruct (decide (x = e)) as [->|Hne].
    + split; [intros _; left | done].
    + rewrite IH. split; [by right | intros H; inversion H; subst; done].
Qed.

Lemma filter_Forall_id {A} (P : A -> Prop) `{!forall x, Decision (P x)}
    (l : list A) :
  Forall P l -> filter P l = l.
Proof.
  induction 1 as [|x l Hx _ IH]; [done|].
  rewrite filter_cons_True by done. by rewrite IH.
Qed.

(** One swap-with-last step of [RemoveEvent]: when everything after
    index [i] already differs from [e], it keeps that true from [i] on and
    keeps the events other than [e]. *)
Lemma swap_remove_shape (e : Event_ptr) (ce : list Event_ptr) i l :
  ce !! i = Some e ->
  ce !! (length ce - 1)%nat = Some l ->
  Forall (fun x => x <> e) (drop (S i) ce) ->
  let ce1 := take (length ce - 1)%nat (<[i := l]> ce) in
  (i <= length ce1)%nat
  /\ Forall (fun x => x <> e) (drop i ce1)
  /\ filter (fun x => x <> e) ce1 ≡ₚ filter (fun x => x <> e) ce.
Proof.
  intros Hi Hl Hinv.
  destruct (list_elem_of_split_length _ _ _ Hi) as (pre & suf & -> & ->).
  assert (drop (S (length pre)) (pre ++ e :: suf) = suf) as Hd.
  { rewrite (cons_middle e pre suf), app_assoc.
    apply drop_app_length'. rewrite length_app. simpl. lia. }
  rewrite Hd in Hinv. clear Hd.
  rewrite length_app in *. simpl in *.
  destruct (decide (suf = [])) as [->|Hne].
  - simpl. replace (length pre + 1 - 1)%nat with (length pre) by lia.
    rewrite take_insert_ge by lia. rewrite take_app_length.
    rewrite drop_ge by lia. repeat split; [lia|constructor|].
    rewrite filter_app, filter_cons_False, filter_nil, app_nil_r
      by (intros ?; done).
    done.
  - destruct (exists_last Hne) as (mid & z & ->).
    rewrite length_app in *. simpl in *.
    replace (length pre + S (length mid + 1) - 1)%nat
      with (length pre + S (length mid))%nat in * by lia.
    assert (z = l) as ->.
    { rewrite lookup_app_r in Hl by lia.
      replace (length pre + S (length mid) - length pre)%nat
        with (S (length mid)) in Hl by lia.
      simpl in Hl. rewrite lookup_app_r in Hl by lia.
      replace (length mid - length mid)%nat with 0%nat in Hl by lia.
      by inversion Hl. }
    rewrite insert_app_r_alt by lia.
    replace (length pre - length pre)%nat with 0%nat by lia. simpl.
    replace (pre ++ l :: mid ++ [l]) with ((pre ++ l :: mid) ++ [l])
      by (by rewrite <- app_assoc).
    rewrite take_app_length' by (rewrite length_app; simpl; lia).
    apply Forall_app in Hinv as [Hmid Hlast]. apply Forall_inv in Hlast.
    repeat split.
    + rewrite length_app. simpl. lia.
    + rewrite drop_app_length. by constructor.
    + rewrite !filter_app, filter_cons_True by done.
      rewrite (filter_cons_False _ e) by (intros ?; done).
      rewrite filter_app, (filter_cons_True _ l) by done. rewrite filter_nil.
      apply Permutation_app_head. symmetry.
      rewrite <- Permutation_cons_append. done.
Qed.

Lemma index_or_panic_Some {A} (l : list A) i x :
  l !! i = Some x -> index_or_panic l i = Ok x.
Proof. unfold index_or_panic. by intros ->. Qed.

Lemma RemoveEvent_loop_spec e k (ce : list Event_ptr) :
  (k <= length ce)%nat ->
  Forall (fun x => x <> e) (drop k ce) ->
  exists ce', CircleEvents.RemoveEvent_loop e k ce = Ok ce'
    /\ ce' ≡ₚ filter (fun x => x <> e) ce.
Proof.
  revert ce. induction k as [|i IH]; intros ce Hk Hinv; simpl.
  - exists ce. split; [done|]. rewrite drop_0 in Hinv.
    by rewrite filter_Forall_id.
  - destruct (lookup_lt_is_Some_2 ce i ltac:(lia)) as [x Hx].
    rewrite (index_or_panic_Some _ _ _ Hx). simpl.
    destruct (decide (x = e)) as [->|Hne].
    + destruct (lookup_lt_is_Some_2 ce (length ce - 1) ltac:(lia)) as [l Hl].
      rewrite (index_or_panic_Some _ _ _ Hl). simpl.
      destruct (swap_remove_shape e ce i l Hx Hl Hinv) as (H1 & H2 & H3).
      destruct (IH _ H1 H2) as (ce' & Hr & Hp).
      exists ce'. split; [done|]. by rewrite Hp.
    + destruct (IH ce) as (ce' & Hr & Hp); [lia| |by exists ce'].
      rewrite (drop_S _ _ _ Hx). by constructor.
Qed.

Lemma RemoveEvent_total e (ce : list Event_ptr) :
  exists ce', CircleEvents.RemoveEvent e ce = Ok ce'
    /\ ce' ≡ₚ filter (fun x => x <> e) ce.
Proof.
  apply RemoveEvent_loop_spec; [lia|]. rewrite drop_all. constructor.
Qed.

(** C9. [RemoveEvent(e)] returns (no index goes out of range); the list
    it leaves holds no occurrence of [e], so [HasEvent(e)] is false on it,
    and it holds every other event as often as before: it is a
    permutation of the list with the occurrences of [e] filtered out. *)
Theorem RemoveEvent_removes_exactly e (ce : list Event_ptr) :
  exists ce',
    CircleEvents.RemoveEvent e ce = Ok ce'
    /\ CircleEvents.HasEvent e ce' = false
    /\ ce' ≡ₚ filter (fun x => x <> e) ce
    /\ forall x, x <> e -> x ∈ ce -> x ∈ ce'.
Proof.
  destruct (RemoveEvent_total e ce) as (ce' & Hr & Hp).
  exists ce'. repeat split; [done| |done|].
  - destruct (CircleEvents.HasEvent e ce') eqn:Hh; [|done].
    apply HasEvent_elem_of in Hh. rewrite Hp in Hh.
    apply list_elem_of_filter in Hh as [? _]. done.
  - intros x Hx Hin. rewrite Hp. by apply list_elem_of_filter.
Qed.

(** ** Running the monad *)

Arguments index_or_panic : simpl never.
Arguments Node.deref : simpl never.
Arguments Node.IsLeaf : simpl never.

Ltac mred :=
  cbv beta iota zeta delta
    [mbind mret Voronoi.M_bind Voronoi.M_ret Res_bind Res_ret
     Voronoi.gets Voronoi.lift Voronoi.modify].

Section Run.
Context {Q : EventQueueImpl}.
Implicit Types v : Voronoi.t Q.

Lemma bind_Ok {A B} (m : Voronoi.M Q A) (k : A -> Voronoi.M Q B) v a v' :
  m v = (Ok a, v') -> (m ≫= k) v = k a v'.
Proof. intros H. mred. by rewrite H. Qed.

Lemma bind_Panic {A B} (m : Voronoi.M Q A) (k : A -> Voronoi.M Q B) v v' :
  m v = (Panic, v') -> (m ≫= k) v = (Panic, v').
Proof. intros H. mred. by rewrite H. Qed.

Lemma deref_Some (ns : list Node.t) p nd :
  ns !! p = Some nd -> Node.deref ns (Some p) = Ok nd.
Proof. apply index_or_panic_Some. Qed.

Lemma load_Some v p nd :
  Voronoi.Nodes v !! p = Some nd -> Voronoi.load (Some p) v = (Ok nd, v).
Proof.
  intros H. unfold Voronoi.load. mred. by rewrite (deref_Some _ _ _ H).
Qed.

End Run.

(** ** Walking the arc tree *)

Section Walks.
Variable ns : list Node.t.

Lemma is_tree_root par t :
  is_tree ns par t ->
  exists nd, ns !! root_of t = Some nd /\ Node.Parent nd = par.
Proof. destruct t; simpl; intros (nd & ? & ? & _); eauto. Qed.

Lemma IsLeaf_leaf par p :
  is_tree ns par (TLeaf p) -> Node.IsLeaf ns (Some p) = Ok true.
Proof.
  intros (nd & Hnd & _ & Hl & Hr). unfold Node.IsLeaf.
  rewrite (deref_Some _ _ _ Hnd). simpl. by rewrite bool_decide_true.
Qed.

Lemma IsLeaf_node par p l r :
  is_tree ns par (TNode p l r) -> Node.IsLeaf ns (Some p) = Ok false.
Proof.
  intros (nd & Hnd & _ & Hl & _). unfold Node.IsLeaf.
  rewrite (deref_Some _ _ _ Hnd). simpl. rewrite bool_decide_false; [done|].
  intros [? _]. congruence.
Qed.

Lemma LastArc_rightmost par t fuel :
  is_tree ns par t -> (height t < fuel)%nat ->
  Node.LastArc fuel ns (Some (root_of t)) = Ok (Some (rightmost t)).
Proof.
  revert par fuel. induction t as [p|p l IHl r IHr]; intros par fuel Ht Hf;
    (destruct fuel as [|f]; [lia|]); simpl.
  - by rewrite (IsLeaf_leaf _ _ Ht).
  - rewrite (IsLeaf_node _ _ _ _ Ht). simpl.
    destruct Ht as (nd & Hnd & _ & _ & Hr & _ & Htr).
    rewrite (deref_Some _ _ _ Hnd). simpl. rewrite Hr.
    apply (IHr (Some p)); [done|]. simpl in Hf. lia.
Qed.

Lemma FirstArc_leftmost par t fuel :
  is_tree ns par t -> (height t < fuel)%nat ->
  Node.FirstArc fuel ns (Some (root_of t)) = Ok (Some (leftmost t)).
Proof.
  revert par fuel. induction t as [p|p l IHl r IHr]; intros par fuel Ht Hf;
    (destruct fuel as [|f]; [lia|]); simpl.
  - by rewrite (IsLeaf_leaf _ _ Ht).
  - rewrite (IsLeaf_node _ _ _ _ Ht). simpl.
    destruct Ht as (nd & Hnd & _ & Hl & _ & Htl & _).
    rewrite (deref_Some _ _ _ Hnd). simpl. rewrite Hl.
    apply (IHl (Some p)); [done|]. simpl in Hf. lia.
Qed.

Lemma PrevArc_leaf fuel p nd :
  ns !! p = Some nd -> Node.Left nd = None -> Node.Right nd = None ->
  Node.PrevArc fuel ns (Some p) =
    r ← climb_prev ns fuel (Some p);
    match r with
    | None => Ok None
    | Some parent =>
        pn ← Node.deref ns parent;
        leaf' ← Node.IsLeaf ns (Node.Left pn);
        if leaf' : bool then Ok (Node.Left pn)
        else Node.LastArc fuel ns (Node.Left pn)
    end.
Proof.
  intros Hnd Hl Hr. unfold Node.PrevArc, climb_prev, Node.IsLeaf.
  rewrite (deref_Some _ _ _ Hnd). simpl.
  rewrite bool_decide_true by done. simpl.
  by destruct (Node.Parent nd).
Qed.

Lemma NextArc_leaf fuel p nd :
  ns !! p = Some nd -> Node.Left nd = None -> Node.Right nd = None ->
  Node.NextArc fuel ns (Some p) =
    r ← climb_next ns fuel (Some p);
    match r with
    | None => Ok None
    | Some parent =>
        pn ← Node.deref ns parent;
        leaf' ← Node.IsLeaf ns (Node.Right pn);
        if leaf' : bool then Ok (Node.Right pn)
        else Node.FirstArc fuel ns (Node.Right pn)
    end.
Proof.
  intros Hnd Hl Hr. unfold Node.NextArc, climb_next, Node.IsLeaf.
  rewrite (deref_Some _ _ _ Hnd). simpl.
  rewrite bool_decide_true by done. simpl.
  by destruct (Node.Parent nd).
Qed.

(** One turn of the loop from a left child moves to the parent. *)
Lemma climb_prev_left_child fuel c p cn pn :
  ns !! c = Some cn -> Node.Parent cn = Some p ->
  ns !! p = Some pn -> Node.Left pn = Some c ->
  climb_prev ns (S fuel) (Some c) = climb_prev ns fuel (Some p).
Proof.
  intros Hc Hcp Hp Hl. unfold climb_prev.
  rewrite (deref_Some _ _ _ Hc), (deref_Some _ _ _ Hp). simpl.
  rewrite Hcp. simpl. rewrite (deref_Some _ _ _ Hp). simpl.
  rewrite Hl. rewrite decide_True by done. done.
Qed.

Lemma climb_next_right_child fuel c p cn pn :
  ns !! c = Some cn -> Node.Parent cn = Some p ->
  ns !! p = Some pn -> Node.Right pn = Some c ->
  climb_next ns (S fuel) (Some c) = climb_next ns fuel (Some p).
Proof.
  intros Hc Hcp Hp Hl. unfold climb_next.
  rewrite (deref_Some _ _ _ Hc), (deref_Some _ _ _ Hp). simpl.
  rewrite Hcp. simpl. rewrite (deref_Some _ _ _ Hp). simpl.
  rewrite Hl. rewrite decide_True by done. done.
Qed.

Lemma ldepth_height t : (ldepth t <= height t)%nat.
Proof. induction t; simpl; lia. Qed.

Lemma rdepth_height t : (rdepth t <= height t)%nat.
Proof. induction t; simpl; lia. Qed.

(** From the leftmost leaf of a subtree the loop climbs its left spine
    up to the root of the subtree. *)
Lemma climb_prev_leftmost par t k :
  is_tree ns par t ->
  climb_prev ns (ldepth t + k) (Some (leftmost t)) =
  climb_prev ns k (Some (root_of t)).
Proof.
  revert par k. induction t as [p|p l IHl r _]; intros par k Ht; [done|].
  destruct Ht as (nd & Hnd & _ & Hl & _ & Htl & _). simpl.
  replace (S (ldepth l + k)) with (ldepth l + S k)%nat by lia.
  rewrite (IHl _ _ Htl).
  destruct (is_tree_root _ _ Htl) as (cn & Hcn & Hcp).
  by apply (climb_prev_left_child _ _ _ cn nd).
Qed.

Lemma climb_next_rightmost par t k :
  is_tree ns par t ->
  climb_next ns (rdepth t + k) (Some (rightmost t)) =
  climb_next ns k (Some (root_of t)).
Proof.
  revert par k. induction t as [p|p l _ r IHr]; intros par k Ht; [done|].
  destruct Ht as (nd & Hnd & _ & _ & Hr & _ & Htr). simpl.
  replace (S (rdepth r + k)) with (rdepth r + S k)%nat by lia.
  rewrite (IHr _ _ Htr).
  destruct (is_tree_root _ _ Htr) as (cn & Hcn & Hcp).
  by apply (climb_next_right_child _ _ _ cn nd).
Qed.

Lemma is_tree_leftmost par t :
  is_tree ns par t ->
  exists nd, ns !! leftmost t = Some nd
    /\ Node.Left nd = None /\ Node.Right nd = None.
Proof.
  revert par. induction t as [p|p l IHl r _]; intros par Ht.
  - destruct Ht as (nd & ? & _ & ? & ?). eauto.
  - destruct Ht as (nd & _ & _ & _ & _ & Htl & _). eauto.
Qed.

Lemma is_tree_rightmost par t :
  is_tree ns par t ->
  exists nd, ns !! rightmost t = Some nd
    /\ Node.Left nd = None /\ Node.Right nd = None.
Proof.
  revert par. induction t as [p|p l _ r IHr]; intros par Ht.
  - destruct Ht as (nd & ? & _ & ? & ?). eauto.
  - destruct Ht as (nd & _ & _ & _ & _ & _ & Htr). eauto.
Qed.

Lemma PrevArc_leftmost t fuel :
  is_tree ns None t -> (height t <= fuel)%nat ->
  Node.PrevArc fuel ns (Some (leftmost t)) = Ok None.
Proof.
  intros Ht Hf.
  destruct (is_tree_leftmost _ _ Ht) as (nd & Hnd & Hl & Hr).
  rewrite (PrevArc_leaf _ _ _ Hnd Hl Hr).
  pose proof (ldepth_height t).
  replace fuel with (ldepth t + (fuel - ldepth t))%nat by lia.
  rewrite (climb_prev_leftmost _ _ _ Ht).
  destruct (is_tree_root _ _ Ht) as (rn & Hrn & Hpar).
  unfold climb_prev. rewrite (deref_Some _ _ _ Hrn). simpl. by rewrite Hpar.
Qed.

Lemma NextArc_rightmost t fuel :
  is_tree ns None t -> (height t <= fuel)%nat ->
  Node.NextArc fuel ns (Some (rightmost t)) = Ok None.
Proof.
  intros Ht Hf.
  destruct (is_tree_rightmost _ _ Ht) as (nd & Hnd & Hl & Hr).
  rewrite (NextArc_leaf _ _ _ Hnd Hl Hr).
  pose proof (rdepth_height t).
  replace fuel with (rdepth t + (fuel - rdepth t))%nat by lia.
  rewrite (climb_next_rightmost _ _ _ Ht).
  destruct (is_tree_root _ _ Ht) as (rn & Hrn & Hpar).
  unfold climb_next. rewrite (deref_Some _ _ _ Hrn). simpl. by rewrite Hpar.
Qed.

End Walks.

(** ** The ends of the beach line *)

Section Ends.
Context {Q : EventQueueImpl}.


Lemma addCircleEvent_nil_2 (v : Voronoi.t Q) a c :
  Voronoi.addCircleEvent a None c v = (Ok tt, v).
Proof. by destruct a. Qed.

Lemma addCircleEvent_nil_3 (v : Voronoi.t Q) a b :
  Voronoi.addCircleEvent a b None v = (Ok tt, v).
Proof. by destruct a, b. Qed.

(** C10. In a well-formed tree [PrevArc] of the leftmost leaf and
    [NextArc] of the rightmost leaf return nil (with fuel for the height
    of the tree; a single root leaf needs none), [PrevArc] and [NextArc]
    of nil are nil, and a probe of a neighbour triple that reaches past
    an end is a no-op of [addCircleEvent]: it returns normally and leaves
    the state as it was. *)
Theorem beach_line_ends_absorbed (v : Voronoi.t Q) (t : tree) (fuel : nat)
    (b c : option Node_ptr) :
  is_tree (Voronoi.Nodes v) None t ->
  (height t <= fuel)%nat ->
  Node.PrevArc fuel (Voronoi.Nodes v) (Some (leftmost t)) = Ok None
  /\ Node.NextArc fuel (Voronoi.Nodes v) (Some (rightmost t)) = Ok None
  /\ Node.PrevArc fuel (Voronoi.Nodes v) None = Ok None
  /\ Node.NextArc fuel (Voronoi.Nodes v) None = Ok None
  /\ (prevArc ← Voronoi.PrevArc fuel (Some (leftmost t));
      Voronoi.addCircleEvent prevArc b c) v = (Ok tt, v)
  /\ (nextArc ← Voronoi.NextArc fuel (Some (rightmost t));
      Voronoi.addCircleEvent b c nextArc) v = (Ok tt, v)
  /\ (prevArc ← Voronoi.PrevArc fuel (Some (leftmost t));
      prevPrevArc ← Voronoi.PrevArc fuel prevArc;
      Voronoi.addCircleEvent prevPrevArc prevArc c) v = (Ok tt, v)
  /\ (nextArc ← Voronoi.NextArc fuel (Some (rightmost t));
      nextNextArc ← Voronoi.NextArc fuel nextArc;
      Voronoi.addCircleEvent b nextArc nextNextArc) v = (Ok tt, v).
Proof.
  intros Ht Hf.
  pose proof (PrevArc_leftmost _ _ _ Ht Hf) as Hp.
  pose proof (NextArc_rightmost _ _ _ Ht Hf) as Hn.
  repeat split; try done.
  - unfold Voronoi.PrevArc. mred. rewrite Hp. done.
  - unfold Voronoi.NextArc. mred. rewrite Hn. apply addCircleEvent_nil_3.
  - unfold Voronoi.PrevArc. mred. rewrite Hp. done.
  - unfold Voronoi.NextArc. mred. rewrite Hn. apply addCircleEvent_nil_2.
Qed.

End Ends.

Lemma beach_line_ends_absorbed_witness :
  Node.PrevArc 2 (Voronoi.Nodes Examples.after_two_sites) (Some 4%nat) = Ok None
  /\ Node.NextArc 2 (Voronoi.Nodes Examples.after_two_sites) (Some 1%nat) = Ok None.
Proof.
  assert (is_tree (Voronoi.Nodes Examples.after_two_sites) None
            Examples.tree_after_two_sites) as Ht.
  { simpl. repeat (eexists; repeat split). }
  destruct (beach_line_ends_absorbed Examples.after_two_sites
              Examples.tree_after_two_sites 2 None None Ht)
    as (H1 & H2 & _); [simpl; lia|].
  exact (conj H1 H2).
Defined.

(** ** The circumscribed circle *)

(** C5, counterexample. The second chord of (0,0), (1,1), (0,1) has
    slope zero, a rejection as the claim has it, and [calcCircle] returns
    the circle (1, 1) of radius 1 with no error. *)
Lemma calcCircle_accepts_flat_second_chord :
  let '(site1, site2, site3) := Examples.flat_second_chord in
  calcCircle_rejects_as_claimed site1 site2 site3 = true
  /\ (chord_slope site2 site3 =? 0)%float = true
  /\ calcCircle site1 site2 site3 = (1, 1, 1, None).
Proof. vm_compute. done. Qed.

(** C5, amended. [calcCircle] returns an error exactly when the
    determinant is negative, or one of the two consecutive pairs of sites
    has a zero difference of x, or the two chord slopes are equal (or
    their difference is zero), or the slope of the first chord is zero;
    the results are then all 0.  In every other case it returns the
    rounded centre and radius with no error. *)
Theorem calcCircle_error_cases (site1 site2 site3 : Site.t) :
  (calcCircle_rejects site1 site2 site3 = true <->
   is_Some (calcCircle site1 site2 site3).2)
  /\ (calcCircle_rejects site1 site2 site3 = true ->
      (calcCircle site1 site2 site3).1 = (0, 0, 0))
  /\ (calcCircle_rejects site1 site2 site3 = false ->
      exists x y r, calcCircle site1 site2 site3 = (x, y, r, None)).
Proof.
  unfold calcCircle_rejects, calcCircle.
  destruct (determinant site1 site2 site3 <? 0)%float; simpl;
    [by eauto|].
  destruct (chord_dx site1 site2 =? 0)%float; simpl; [by eauto|].
  destruct (chord_dx site2 site3 =? 0)%float; simpl; [by eauto|].
  destruct (chord_slope site1 site2 =? chord_slope site2 site3)%float; simpl;
    [by eauto|].
  destruct (chord_slope site1 site2 - chord_slope site2 site3 =? 0)%float;
    simpl; [by eauto|].
  destruct (chord_slope site1 site2 =? 0)%float; simpl; [by eauto|].
  split; [split; [done | by intros [? [=]]] |].
  split; [done | by eauto].
Qed.

(** ** Circle-event creation *)

Section Prims.
Context {Q : EventQueueImpl}.
Implicit Types v : Voronoi.t Q.

Lemma insert_as_alter {A} (f : A -> A) (l : list A) i x :
  l !! i = Some x -> <[i := f x]> l = alter f i l.
Proof.
  intros H. apply list_eq. intros j.
  destruct (decide (i = j)) as [->|Hne].
  - rewrite list_lookup_alter_eq, H. simpl.
    apply list_lookup_insert_eq. by eapply lookup_lt_Some.
  - by rewrite list_lookup_insert_ne, list_lookup_alter_ne.
Qed.

Lemma update_Some v p f nd :
  Voronoi.Nodes v !! p = Some nd ->
  Voronoi.update (Some p) f v =
  (Ok tt, Voronoi.set_Nodes (alter f p (Voronoi.Nodes v)) v).
Proof.
  intros H. unfold Voronoi.update.
  rewrite (bind_Ok _ _ _ _ _ (load_Some _ _ _ H)). mred.
  by rewrite (insert_as_alter _ _ _ _ H).
Qed.

Lemma load_site_Some v i s :
  Voronoi.Sites v !! i = Some s -> Voronoi.load_site (Some i) v = (Ok s, v).
Proof.
  intros H. unfold Voronoi.load_site. mred.
  by rewrite (index_or_panic_Some _ _ _ H).
Qed.

Lemma load_event_Some v e ev :
  Voronoi.Events v !! e = Some ev -> Voronoi.load_event e v = (Ok ev, v).
Proof.
  intros H. unfold Voronoi.load_event. mred.
  by rewrite (index_or_panic_Some _ _ _ H).
Qed.

Lemma alter_lookup_Some {A} (f : A -> A) (l : list A) i j x :
  l !! j = Some x -> exists y, alter f i l !! j = Some y.
Proof.
  intros H. rewrite list_lookup_alter. case_decide; subst.
  - rewrite H. simpl. eauto.
  - eauto.
Qed.

End Prims.

Section AddCircleEvent.
Context {Q : EventQueueImpl}.
Implicit Types v : Voronoi.t Q.

Lemma addCircleEvent_arcs v a b c s1 s2 s3 x y r err :
  arc_with_site v a s1 -> arc_with_site v b s2 -> arc_with_site v c s3 ->
  calcCircle s1 s2 s3 = (x, y, r, err) ->
  Voronoi.addCircleEvent (Some a) (Some b) (Some c) v =
  (Ok tt,
   if bool_decide (is_Some err) || (int_add y r <? Voronoi.SweepLine v)
   then v else with_circle_event v a b c x (int_add y r) r).
Proof.
  intros (n1 & i1 & Hn1 & Hi1 & Hs1) (n2 & i2 & Hn2 & Hi2 & Hs2)
    (n3 & i3 & Hn3 & Hi3 & Hs3) Hcc.
  unfold Voronoi.addCircleEvent.
  rewrite (bind_Ok _ _ _ _ _ (load_Some _ _ _ Hn1)).
  rewrite (bind_Ok _ _ _ _ _ (load_Some _ _ _ Hn2)).
  rewrite (bind_Ok _ _ _ _ _ (load_Some _ _ _ Hn3)).
  rewrite Hi1, Hi2, Hi3.
  rewrite (bind_Ok _ _ _ _ _ (load_site_Some _ _ _ Hs1)).
  rewrite (bind_Ok _ _ _ _ _ (load_site_Some _ _ _ Hs2)).
  rewrite (bind_Ok _ _ _ _ _ (load_site_Some _ _ _ Hs3)).
  rewrite Hcc. destruct err as [e|]; [done|].
  rewrite bool_decide_false by (by intros [? [=]]). simpl.
  mred. destruct (int_add y r <? Voronoi.SweepLine v); [done|].
  unfold Voronoi.new_event. mred.
  set (event := length (Voronoi.Events v)).
  set (ev := Event.mk EventCircle x (int_add y r) r None None).
  unfold Voronoi.load_event. mred. simpl.
  assert ((Voronoi.Events v ++ [ev]) !! event = Some ev) as Hev.
  { by apply list_lookup_middle. }
  rewrite (index_or_panic_Some _ _ _ Hev). mred.
  unfold Voronoi.update, Voronoi.load. mred. simpl.
  rewrite (deref_Some _ _ _ Hn1). mred. simpl.
  rewrite (insert_as_alter _ _ _ _ Hn1).
  destruct (alter_lookup_Some (Node.AddLeftEvent event) _ a b _ Hn2)
    as (n2' & Hn2').
  rewrite (deref_Some _ _ _ Hn2'). mred. simpl.
  rewrite (insert_as_alter _ _ _ _ Hn2').
  destruct (alter_lookup_Some (Node.AddLeftEvent event) _ a c _ Hn3)
    as (n3' & Hn3').
  destruct (alter_lookup_Some (Node.AddMiddleEvent event) _ b c _ Hn3')
    as (n3'' & Hn3'').
  rewrite (deref_Some _ _ _ Hn3''). mred. simpl.
  rewrite (insert_as_alter _ _ _ _ Hn3'').
  unfold with_circle_event. fold event. fold ev.
  do 2 f_equal.
  replace event with (length (Voronoi.Events v) + 0)%nat at 1 by (unfold event; lia).
  by rewrite insert_app_r.
Qed.


End AddCircleEvent.


(** ** What a method leaves alone *)

Section Frames.
Context {Q : EventQueueImpl} {G : Geometry}.
Implicit Types v : Voronoi.t Q.

#[global] Instance SweepLine_Stable : Stable (@Voronoi.SweepLine Q).
Proof. by split. Qed.
#[global] Instance SweepLine_StableDCEL : StableDCEL (@Voronoi.SweepLine Q).
Proof. done. Qed.
#[global] Instance SweepLine_StableFace : StableFace (@Voronoi.SweepLine Q).
Proof. done. Qed.

Lemma keeps_ret {A B} (f : Voronoi.t Q -> B) (a : A) : keeps f (mret a).
Proof. done. Qed.

Lemma keeps_lift {A B} (f : Voronoi.t Q -> B) (r : Res A) :
  keeps f (Voronoi.lift r).
Proof. done. Qed.

Lemma keeps_gets {A B} (f : Voronoi.t Q -> B) (g : Voronoi.t Q -> A) :
  keeps f (Voronoi.gets g).
Proof. done. Qed.

Lemma keeps_modify {B} (f : Voronoi.t Q -> B) (g : Voronoi.t Q -> Voronoi.t Q) :
  (forall v, f (g v) = f v) -> keeps f (Voronoi.modify g).
Proof. intros H v. apply H. Qed.

Lemma keeps_bind {A A' B} (f : Voronoi.t Q -> B) (m : Voronoi.M Q A)
    (k : A -> Voronoi.M Q A') :
  keeps f m -> (forall a, keeps f (k a)) -> keeps f (m ≫= k).
Proof.
  intros Hm Hk v. mred. specialize (Hm v).
  destruct (m v) as [[a| |] v']; simpl in *; [|done..].
  rewrite <- Hm. apply Hk.
Qed.

Lemma keeps_for_each {A B} (f : Voronoi.t Q -> B) (l : list A)
    (body : A -> Voronoi.M Q unit) :
  (forall x, keeps f (body x)) -> keeps f (Voronoi.for_each l body).
Proof.
  intros H. induction l as [|x l IH]; simpl; [apply keeps_ret|].
  apply keeps_bind; [apply H | by intros _].
Qed.

End Frames.

Create HintDb keeps discriminated.

Ltac keeps_write :=
  intros; cbv beta;
  first [ apply stable_Nodes | apply stable_Events | apply stable_EventQueue
        | apply stable_ParabolaTree | apply stable_DCEL
        | apply stable_SiteFace ].

Ltac keeps_tac :=
  repeat first
    [ apply keeps_ret
    | apply keeps_lift
    | apply keeps_gets
    | apply keeps_modify; keeps_write
    | apply keeps_for_each; intros ?
    | solve [eauto with keeps]
    | apply keeps_bind; [|intros ?]
    | match goal with
      | |- keeps _ (match ?x with _ => _ end) => destruct x
      end ].

Section FramesOfMethods.
Context {Q : EventQueueImpl} {G : Geometry}.
Context {B : Type} (f : Voronoi.t Q -> B).
Context `{!Stable f}.

Lemma keeps_load p : keeps f (Voronoi.load p).
Proof. unfold Voronoi.load. keeps_tac. Qed.
Hint Resolve keeps_load : keeps.

Lemma keeps_update p g : keeps f (Voronoi.update p g).
Proof. unfold Voronoi.update. keeps_tac. Qed.
Hint Resolve keeps_update : keeps.

Lemma keeps_new_node nd : keeps f (Voronoi.new_node nd).
Proof. unfold Voronoi.new_node. keeps_tac. Qed.
Hint Resolve keeps_new_node : keeps.

Lemma keeps_load_event e : keeps f (Voronoi.load_event e).
Proof. unfold Voronoi.load_event. keeps_tac. Qed.
Hint Resolve keeps_load_event : keeps.

Lemma keeps_new_event ev : keeps f (Voronoi.new_event ev).
Proof. unfold Voronoi.new_event. keeps_tac. Qed.
Hint Resolve keeps_new_event : keeps.

Lemma keeps_load_site p : keeps f (Voronoi.load_site p).
Proof. unfold Voronoi.load_site. keeps_tac. Qed.
Hint Resolve keeps_load_site : keeps.

Lemma keeps_load_face p : keeps f (Voronoi.load_face p).
Proof. unfold Voronoi.load_face. keeps_tac. Qed.
Hint Resolve keeps_load_face : keeps.

Lemma keeps_face_of_arc p : keeps f (Voronoi.face_of_arc p).
Proof. unfold Voronoi.face_of_arc. keeps_tac. Qed.
Hint Resolve keeps_face_of_arc : keeps.

Lemma keeps_PrevArc fuel p : keeps f (Voronoi.PrevArc fuel p).
Proof. unfold Voronoi.PrevArc. keeps_tac. Qed.
Hint Resolve keeps_PrevArc : keeps.

Lemma keeps_NextArc fuel p : keeps f (Voronoi.NextArc fuel p).
Proof. unfold Voronoi.NextArc. keeps_tac. Qed.
Hint Resolve keeps_NextArc : keeps.

Lemma keeps_addCircleEvent a b c : keeps f (Voronoi.addCircleEvent a b c).
Proof. unfold Voronoi.addCircleEvent. keeps_tac. Qed.
Hint Resolve keeps_addCircleEvent : keeps.

Lemma keeps_still_queued e : keeps f (Voronoi.still_queued e).
Proof. unfold Voronoi.still_queued. keeps_tac. Qed.
Hint Resolve keeps_still_queued : keeps.

Lemma keeps_queue_Remove e : keeps f (Voronoi.queue_Remove e).
Proof. unfold Voronoi.queue_Remove. keeps_tac. Qed.
Hint Resolve keeps_queue_Remove : keeps.

Lemma keeps_removeCircleEvent fuel p :
  keeps f (Voronoi.removeCircleEvent fuel p).
Proof. unfold Voronoi.removeCircleEvent. keeps_tac. Qed.
Hint Resolve keeps_removeCircleEvent : keeps.

Lemma keeps_Node_RemoveEvent e p : keeps f (Voronoi.Node_RemoveEvent e p).
Proof. unfold Voronoi.Node_RemoveEvent. keeps_tac. Qed.
Hint Resolve keeps_Node_RemoveEvent : keeps.

Lemma keeps_removeAllCircleEvents fuel p :
  keeps f (Voronoi.removeAllCircleEvents fuel p).
Proof. unfold Voronoi.removeAllCircleEvents. keeps_tac. Qed.
Hint Resolve keeps_removeAllCircleEvents : keeps.

Lemma keeps_removeArc p : keeps f (Voronoi.removeArc p).
Proof. unfold Voronoi.removeArc. keeps_tac. Qed.
Hint Resolve keeps_removeArc : keeps.

Lemma keeps_findNodeAbove_loop fuel site node :
  keeps f (Voronoi.findNodeAbove_loop fuel site node).
Proof.
  revert node. induction fuel as [|n IH]; intros node; simpl; keeps_tac.
Qed.
Hint Resolve keeps_findNodeAbove_loop : keeps.

Lemma keeps_findNodeAbove fuel site : keeps f (Voronoi.findNodeAbove fuel site).
Proof. unfold Voronoi.findNodeAbove. keeps_tac. Qed.
Hint Resolve keeps_findNodeAbove : keeps.

Lemma keeps_split_arc p site : keeps f (Voronoi.split_arc p site).
Proof. unfold Voronoi.split_arc. keeps_tac. Qed.
Hint Resolve keeps_split_arc : keeps.

Context `{!StableDCEL f}.

Lemma keeps_DCEL_NewFace : keeps f Voronoi.DCEL_NewFace.
Proof. unfold Voronoi.DCEL_NewFace. keeps_tac. Qed.
Hint Resolve keeps_DCEL_NewFace : keeps.

Lemma keeps_DCEL_NewVertex x y : keeps f (Voronoi.DCEL_NewVertex x y).
Proof. unfold Voronoi.DCEL_NewVertex. keeps_tac. Qed.
Hint Resolve keeps_DCEL_NewVertex : keeps.

Lemma keeps_DCEL_NewEdge f1 f2 x : keeps f (Voronoi.DCEL_NewEdge f1 f2 x).
Proof. unfold Voronoi.DCEL_NewEdge. keeps_tac. Qed.
Hint Resolve keeps_DCEL_NewEdge : keeps.

Lemma keeps_do_CloseTwins es x : keeps f (Voronoi.do_CloseTwins es x).
Proof. unfold Voronoi.do_CloseTwins. keeps_tac. Qed.
Hint Resolve keeps_do_CloseTwins : keeps.

Lemma keeps_link_new_arc fuel x l n r :
  keeps f (Voronoi.link_new_arc fuel x l n r).
Proof. unfold Voronoi.link_new_arc. keeps_tac. Qed.
Hint Resolve keeps_link_new_arc : keeps.

Lemma keeps_handleCircleEvent fuel e :
  keeps f (Voronoi.handleCircleEvent fuel e).
Proof. unfold Voronoi.handleCircleEvent. keeps_tac. Qed.

Context `{!StableFace f}.

Lemma keeps_new_site_face site : keeps f (Voronoi.new_site_face site).
Proof. unfold Voronoi.new_site_face. keeps_tac. Qed.
Hint Resolve keeps_new_site_face : keeps.

Lemma keeps_handleSiteEvent fuel e :
  keeps f (Voronoi.handleSiteEvent fuel e).
Proof. unfold Voronoi.handleSiteEvent. keeps_tac. Qed.

End FramesOfMethods.

(** ** The step loop *)

Section StepLoop.
Context {Q : EventQueueImpl} {G : Geometry}.
Implicit Types v : Voronoi.t Q.

(** What [HandleNextEvent] does with a popped event, by cases. *)
Lemma HandleNextEvent_popped fuel v event q' ev :
  0 < Len (Voronoi.EventQueue v) ->
  heap_Pop (Voronoi.EventQueue v) = Some (event, q') ->
  Voronoi.Events v !! event = Some ev ->
  Voronoi.HandleNextEvent fuel v =
  if Event.Y ev <? Voronoi.SweepLine v
  then (Ok tt, Voronoi.set_EventQueue q' v)
  else
    let v' := Voronoi.set_SweepLine (Event.Y ev) (Voronoi.set_EventQueue q' v) in
    if decide (Event.EventType ev = EventSite)
    then Voronoi.handleSiteEvent fuel event v'
    else Voronoi.handleCircleEvent fuel event v'.
Proof.
  intros Hlen Hpop Hev. unfold Voronoi.HandleNextEvent. mred.
  apply Z.leb_gt in Hlen. rewrite Hlen, Hpop.
  unfold Voronoi.load_event. mred. simpl.
  rewrite (index_or_panic_Some _ _ _ Hev).
  destruct (Event.Y ev <? Voronoi.SweepLine v); [done|].
  by destruct (decide (Event.EventType ev = EventSite)).
Qed.

(** C6. When the event that [HandleNextEvent] pops has a trigger y
    strictly less than the sweep position, the call returns normally and
    the only change of state is that the event has left the queue: the
    sweep position, the arc tree and its stores, and the graph are as
    before, and no handler has run. *)
Theorem stale_event_is_discarded fuel v event q' ev :
  0 < Len (Voronoi.EventQueue v) ->
  heap_Pop (Voronoi.EventQueue v) = Some (event, q') ->
  Voronoi.Events v !! event = Some ev ->
  Event.Y ev < Voronoi.SweepLine v ->
  Voronoi.HandleNextEvent fuel v = (Ok tt, Voronoi.set_EventQueue q' v)
  /\ let v' := (Voronoi.HandleNextEvent fuel v).2 in
     Voronoi.SweepLine v' = Voronoi.SweepLine v
     /\ Voronoi.ParabolaTree v' = Voronoi.ParabolaTree v
     /\ Voronoi.Nodes v' = Voronoi.Nodes v
     /\ Voronoi.DCEL v' = Voronoi.DCEL v
     /\ Voronoi.Events v' = Voronoi.Events v
     /\ Voronoi.SiteFace v' = Voronoi.SiteFace v.
Proof.
  intros Hlen Hpop Hev Hlt.
  rewrite (HandleNextEvent_popped _ _ _ _ _ Hlen Hpop Hev).
  apply Z.ltb_lt in Hlt. by rewrite Hlt.
Qed.

Lemma HandleNextEvent_sweep fuel v :
  Voronoi.SweepLine v <= Voronoi.SweepLine (Voronoi.HandleNextEvent fuel v).2.
Proof.
  unfold Voronoi.HandleNextEvent. mred.
  destruct (Len (Voronoi.EventQueue v) <=? 0); [done|].
  destruct (heap_Pop (Voronoi.EventQueue v)) as [[event q']|]; [|done].
  unfold Voronoi.load_event. mred. simpl.
  destruct (index_or_panic (Voronoi.Events v) event) as [ev| |]; [|done..].
  destruct (Event.Y ev <? Voronoi.SweepLine v) eqn:Hy; [done|].
  apply Z.ltb_ge in Hy.
  set (v' := Voronoi.set_SweepLine _ _).
  assert (Voronoi.SweepLine v' = Event.Y ev) as Hv' by done.
  destruct (decide (Event.EventType ev = EventSite)).
  - rewrite (keeps_handleSiteEvent (@Voronoi.SweepLine Q) fuel event v').
    by rewrite Hv'.
  - rewrite (keeps_handleCircleEvent (@Voronoi.SweepLine Q) fuel event v').
    by rewrite Hv'.
Qed.

Lemma after_steps_sweep fuel v n k :
  Voronoi.SweepLine (after_steps fuel n v)
  <= Voronoi.SweepLine (after_steps fuel (n + k) v).
Proof.
  induction k as [|k IH].
  - by rewrite Nat.add_0_r.
  - rewrite Nat.add_succ_r. simpl. etrans; [apply IH|].
    apply HandleNextEvent_sweep.
Qed.

(** C2. No call of [HandleNextEvent] leaves the sweep position smaller
    than it found it, whether it returns or panics; so along the
    successive steps of a run that starts from a reset state the sweep
    position is non-decreasing (and never below the 0 that [Reset]
    assigns). *)
Theorem sweep_position_never_decreases fuel v :
  Voronoi.SweepLine v <= Voronoi.SweepLine (Voronoi.HandleNextEvent fuel v).2
  /\ forall n k,
       0 <= Voronoi.SweepLine (after_steps fuel n (Voronoi.Reset v))
       /\ Voronoi.SweepLine (after_steps fuel n (Voronoi.Reset v))
          <= Voronoi.SweepLine (after_steps fuel (n + k) (Voronoi.Reset v)).
Proof.
  split; [apply HandleNextEvent_sweep|].
  intros n k. split; [|apply after_steps_sweep].
  apply (after_steps_sweep fuel (Voronoi.Reset v) 0 n).
Qed.

End StepLoop.

(** ** Neighbours of any arc *)

Section Neighbours.
Variable ns : list Node.t.

Lemma subtrees_self t : t ∈ subtrees t.
Proof. destruct t; simpl; left. Qed.

Lemma subtrees_inv u t :
  u ∈ subtrees t ->
  u = t \/ match t with
           | TLeaf _ => False
           | TNode _ l r => u ∈ subtrees l \/ u ∈ subtrees r
           end.
Proof.
  destruct t; simpl; intros [->|H]%elem_of_cons; auto.
  - inversion H.
  - right. by apply elem_of_app.
Qed.

Lemma subtrees_trans u t w : u ∈ subtrees t -> t ∈ subtrees w -> u ∈ subtrees w.
Proof.
  revert t. induction w as [p|p l IHl r IHr]; intros t Hu Ht.
  - apply subtrees_inv in Ht as [->|[]]. done.
  - apply subtrees_inv in Ht as [->|[Ht|Ht]]; [done|..]; simpl; right;
      apply elem_of_app; eauto.
Qed.

Lemma subtrees_children p l r t :
  TNode p l r ∈ subtrees t -> l ∈ subtrees t /\ r ∈ subtrees t.
Proof.
  intros H. split; (eapply subtrees_trans; [|exact H]); simpl; right;
    apply elem_of_app; [left|right]; apply subtrees_self.
Qed.

Lemma subtrees_is_tree par t u :
  is_tree ns par t -> u ∈ subtrees t -> exists par', is_tree ns par' u.
Proof.
  revert par. induction t as [p|p l IHl r IHr]; intros par Ht Hu.
  - apply subtrees_inv in Hu as [->|[]]. eauto.
  - apply subtrees_inv in Hu as [->|[Hu|Hu]]; [by eauto|..];
      destruct Ht as (nd & _ & _ & _ & _ & Htl & Htr); eauto.
Qed.

Lemma subtrees_height t u : u ∈ subtrees t -> (height u <= height t)%nat.
Proof.
  induction t as [p|p l IHl r IHr]; intros Hu.
  - apply subtrees_inv in Hu as [->|[]]. done.
  - apply subtrees_inv in Hu as [->|[Hu|Hu]]; [done|..]; simpl;
      [specialize (IHl Hu) | specialize (IHr Hu)]; lia.
Qed.

Lemma subtrees_leaves t u x : u ∈ subtrees t -> x ∈ leaves u -> x ∈ leaves t.
Proof.
  induction t as [p|p l IHl r IHr]; intros Hu Hx.
  - apply subtrees_inv in Hu as [->|[]]. done.
  - apply subtrees_inv in Hu as [->|[Hu|Hu]]; [done|..]; simpl;
      apply elem_of_app; eauto.
Qed.

Lemma leaves_subtrees t x : x ∈ leaves t -> TLeaf x ∈ subtrees t.
Proof.
  induction t as [p|p l IHl r IHr]; simpl; intros Hx.
  - apply list_elem_of_singleton in Hx as ->. left.
  - right. apply elem_of_app. apply elem_of_app in Hx as [Hx|Hx]; eauto.
Qed.

Lemma rightmost_leaf t : rightmost t ∈ leaves t.
Proof.
  induction t as [p|p l _ r IHr]; simpl; [left|].
  apply elem_of_app. by right.
Qed.

Lemma leftmost_leaf t : leftmost t ∈ leaves t.
Proof.
  induction t as [p|p l IHl r _]; simpl; [left|].
  apply elem_of_app. by left.
Qed.

Lemma IsLeaf_root par t :
  is_tree ns par t ->
  Node.IsLeaf ns (Some (root_of t)) =
  Ok (match t with TLeaf _ => true | TNode _ _ _ => false end).
Proof.
  destruct t; intros Ht; [by eapply IsLeaf_leaf | by eapply IsLeaf_node].
Qed.

(** Climbing from the root of a subtree [u] of [t]: within [height t]
    turns the loop either stands at the root of [t], or has left at a
    breakpoint of [t] that it reached from the right. *)
Lemma climb_prev_outcome par t u :
  is_tree ns par t -> u ∈ subtrees t ->
  exists d, (d <= height t)%nat /\
    ((forall k, climb_prev ns (d + k) (Some (root_of u)) =
                climb_prev ns k (Some (root_of t)))
     \/ (exists p l r, TNode p l r ∈ subtrees t /\
           forall k, climb_prev ns (d + S k) (Some (root_of u)) =
                     Ok (Some (Some p)))).
Proof.
  revert par. induction t as [p|p l IHl r IHr]; intros par Ht Hu.
  - apply subtrees_inv in Hu as [->|[]]. exists 0%nat. split; [done|by left].
  - apply subtrees_inv in Hu as [->|[Hu|Hu]].
    { exists 0%nat. split; [lia|by left]. }
    + destruct Ht as (nd & Hnd & _ & Hl & _ & Htl & _).
      destruct (IHl _ Htl Hu) as (d & Hd & [Hup|(q & ql & qr & Hq & Hex)]).
      * exists (S d). split; [simpl; lia|]. left. intros k.
        replace (S d + k)%nat with (d + S k)%nat by lia. rewrite Hup.
        destruct (is_tree_root _ _ _ Htl) as (cn & Hcn & Hcp).
        by apply (climb_prev_left_child _ _ _ _ cn nd).
      * exists d. split; [simpl; lia|]. right. exists q, ql, qr.
        split; [|done]. simpl. right. apply elem_of_app. by left.
    + destruct Ht as (nd & Hnd & _ & Hl & _ & _ & Htr).
      destruct (IHr _ Htr Hu) as (d & Hd & [Hup|(q & ql & qr & Hq & Hex)]).
      * destruct (is_tree_root _ _ _ Htr) as (cn & Hcn & Hcp).
        destruct (decide (root_of l = root_of r)) as [Heq|Hne].
        -- exists (S d). split; [simpl; lia|]. left. intros k.
           replace (S d + k)%nat with (d + S k)%nat by lia. rewrite Hup.
           apply (climb_prev_left_child _ _ _ _ cn nd); try done.
           by rewrite Hl, Heq.
        -- exists d. split; [simpl; lia|]. right. exists p, l, r.
           split; [apply subtrees_self|]. intros k. rewrite Hup.
           unfold climb_prev. rewrite (deref_Some _ _ _ Hcn). simpl.
           rewrite Hcp. simpl. rewrite (deref_Some _ _ _ Hnd). simpl.
           rewrite Hl. rewrite decide_False; [done|]. congruence.
      * exists d. split; [simpl; lia|]. right. exists q, ql, qr.
        split; [|done]. simpl. right. apply elem_of_app. by right.
Qed.

Lemma climb_next_outcome par t u :
  is_tree ns par t -> u ∈ subtrees t ->
  exists d, (d <= height t)%nat /\
    ((forall k, climb_next ns (d + k) (Some (root_of u)) =
                climb_next ns k (Some (root_of t)))
     \/ (exists p l r, TNode p l r ∈ subtrees t /\
           forall k, climb_next ns (d + S k) (Some (root_of u)) =
                     Ok (Some (Some p)))).
Proof.
  revert par. induction t as [p|p l IHl r IHr]; intros par Ht Hu.
  - apply subtrees_inv in Hu as [->|[]]. exists 0%nat. split; [done|by left].
  - apply subtrees_inv in Hu as [->|[Hu|Hu]].
    { exists 0%nat. split; [lia|by left]. }
    + destruct Ht as (nd & Hnd & _ & _ & Hr & Htl & _).
      destruct (IHl _ Htl Hu) as (d & Hd & [Hup|(q & ql & qr & Hq & Hex)]).
      * destruct (is_tree_root _ _ _ Htl) as (cn & Hcn & Hcp).
        destruct (decide (root_of r = root_of l)) as [Heq|Hne].
        -- exists (S d). split; [simpl; lia|]. left. intros k.
           replace (S d + k)%nat with (d + S k)%nat by lia. rewrite Hup.
           apply (climb_next_right_child _ _ _ _ cn nd); try done.
           by rewrite Hr, Heq.
        -- exists d. split; [simpl; lia|]. right. exists p, l, r.
           split; [apply subtrees_self|]. intros k. rewrite Hup.
           unfold climb_next. rewrite (deref_Some _ _ _ Hcn). simpl.
           rewrite Hcp. simpl. rewrite (deref_Some _ _ _ Hnd). simpl.
           rewrite Hr. rewrite decide_False; [done|]. congruence.
      * exists d. split; [simpl; lia|]. right. exists q, ql, qr.
        split; [|done]. simpl. right. apply elem_of_app. by left.
    + destruct Ht as (nd & Hnd & _ & _ & Hr & _ & Htr).
      destruct (IHr _ Htr Hu) as (d & Hd & [Hup|(q & ql & qr & Hq & Hex)]).
      * exists (S d). split; [simpl; lia|]. left. intros k.
        replace (S d + k)%nat with (d + S k)%nat by lia. rewrite Hup.
        destruct (is_tree_root _ _ _ Htr) as (cn & Hcn & Hcp).
        by apply (climb_next_right_child _ _ _ _ cn nd).
      * exists d. split; [simpl; lia|]. right. exists q, ql, qr.
        split; [|done]. simpl. right. apply elem_of_app. by right.
Qed.

(** In a well-formed tree, with fuel for its height, [PrevArc] and
    [NextArc] of an arc return: nil or an arc of the tree. *)
Lemma PrevArc_total t x fuel :
  is_tree ns None t -> x ∈ leaves t -> (height t < fuel)%nat ->
  exists r, Node.PrevArc fuel ns (Some x) = Ok r
    /\ (r = None \/ exists q, r = Some q /\ q ∈ leaves t).
Proof.
  intros Ht Hx Hf. pose proof (leaves_subtrees _ _ Hx) as Hu.
  destruct (subtrees_is_tree _ _ _ Ht Hu) as (px & nd & Hnd & _ & Hl & Hr).
  rewrite (PrevArc_leaf _ _ _ _ Hnd Hl Hr).
  destruct (climb_prev_outcome _ _ _ Ht Hu)
    as (d & Hd & [Hup|(p & l & r & Hp & Hex)]).
  - assert (climb_prev ns fuel (Some x) = Ok None) as ->; [|by eauto].
    replace fuel with (d + (fuel - d))%nat by lia. rewrite Hup.
    destruct (is_tree_root _ _ _ Ht) as (rn & Hrn & Hpar).
    unfold climb_prev. rewrite (deref_Some _ _ _ Hrn). simpl.
    by rewrite Hpar.
  - assert (climb_prev ns fuel (Some x) = Ok (Some (Some p))) as ->.
    { replace fuel with (d + S (fuel - d - 1))%nat by lia. apply Hex. }
    simpl.
    destruct (subtrees_is_tree _ _ _ Ht Hp)
      as (pp & pn & Hpn & _ & Hpl & _ & Htl & _).
    rewrite (deref_Some _ _ _ Hpn). simpl. rewrite Hpl.
    rewrite (IsLeaf_root _ _ Htl). simpl.
    apply subtrees_children in Hp as [Hlt _].
    destruct l as [lp|lp ll lr]; simpl.
    + eexists. split; [done|]. right. eexists. split; [done|].
      eapply subtrees_leaves; [exact Hlt|left].
    + pose proof (subtrees_height _ _ Hlt).
      pose proof (LastArc_rightmost _ _ (TNode lp ll lr) fuel Htl
                    ltac:(lia)) as HL.
      simpl in HL. rewrite HL.
      eexists. split; [done|]. right. eexists. split; [done|].
      eapply subtrees_leaves; [exact Hlt|].
      apply (rightmost_leaf (TNode lp ll lr)).
Qed.

Lemma NextArc_total t x fuel :
  is_tree ns None t -> x ∈ leaves t -> (height t < fuel)%nat ->
  exists r, Node.NextArc fuel ns (Some x) = Ok r
    /\ (r = None \/ exists q, r = Some q /\ q ∈ leaves t).
Proof.
  intros Ht Hx Hf. pose proof (leaves_subtrees _ _ Hx) as Hu.
  destruct (subtrees_is_tree _ _ _ Ht Hu) as (px & nd & Hnd & _ & Hl & Hr).
  rewrite (NextArc_leaf _ _ _ _ Hnd Hl Hr).
  destruct (climb_next_outcome _ _ _ Ht Hu)
    as (d & Hd & [Hup|(p & l & r & Hp & Hex)]).
  - assert (climb_next ns fuel (Some x) = Ok None) as ->; [|by eauto].
    replace fuel with (d + (fuel - d))%nat by lia. rewrite Hup.
    destruct (is_tree_root _ _ _ Ht) as (rn & Hrn & Hpar).
    unfold climb_next. rewrite (deref_Some _ _ _ Hrn). simpl.
    by rewrite Hpar.
  - assert (climb_next ns fuel (Some x) = Ok (Some (Some p))) as ->.
    { replace fuel with (d + S (fuel - d - 1))%nat by lia. apply Hex. }
    simpl.
    destruct (subtrees_is_tree _ _ _ Ht Hp)
      as (pp & pn & Hpn & _ & _ & Hpr & _ & Htr).
    rewrite (deref_Some _ _ _ Hpn). simpl. rewrite Hpr.
    rewrite (IsLeaf_root _ _ Htr). simpl.
    apply subtrees_children in Hp as [_ Hrt].
    destruct r as [rp|rp rl rr]; simpl.
    + eexists. split; [done|]. right. eexists. split; [done|].
      eapply subtrees_leaves; [exact Hrt|left].
    + pose proof (subtrees_height _ _ Hrt).
      pose proof (FirstArc_leftmost _ _ (TNode rp rl rr) fuel Htr
                    ltac:(lia)) as HL.
      simpl in HL. rewrite HL.
      eexists. split; [done|]. right. eexists. split; [done|].
      eapply subtrees_leaves; [exact Hrt|].
      apply (leftmost_leaf (TNode rp rl rr)).
Qed.

End Neighbours.

Lemma stale_event_is_discarded_witness :
  Examples.step 5 Examples.stale
  = (Ok tt, Voronoi.set_EventQueue Examples.empty_queue Examples.stale).
Proof.
  refine (proj1 (stale_event_is_discarded (G := Reference.parabolas)
                   5 Examples.stale 3%nat Examples.empty_queue
                   (Event.mk EventCircle 1 6 3 None (Some 8%nat)) _ _ _ _));
    by vm_compute.
Defined.


Section Dispatch.
Context {Q : EventQueueImpl} {G : Geometry}.
Implicit Types v : Voronoi.t Q.


End Dispatch.


(** ** Splitting an arc *)

Section Grown.
Variables (ns : list Node.t) (p : Node_ptr) (a0 : Node.t).
Hypothesis Hp : ns !! p = Some a0.

Lemma grown_init : ns = grown ns p a0 [].
Proof. unfold grown. by rewrite list_insert_id, app_nil_r. Qed.

Lemma grown_old a ex : grown ns p a ex !! p = Some a.
Proof.
  unfold grown. apply lookup_lt_Some in Hp.
  rewrite lookup_app_l by (by rewrite length_insert).
  by apply list_lookup_insert_eq.
Qed.

Lemma grown_other a ex i :
  i <> p -> (i < length ns)%nat -> grown ns p a ex !! i = ns !! i.
Proof.
  intros Hne Hlt. unfold grown.
  rewrite lookup_app_l by (by rewrite length_insert).
  by apply list_lookup_insert_ne.
Qed.

Lemma grown_new a ex k : grown ns p a ex !! (length ns + k)%nat = ex !! k.
Proof.
  unfold grown. rewrite lookup_app_r by (rewrite length_insert; lia).
  f_equal. rewrite length_insert. lia.
Qed.

Lemma grown_set_old a ex y : <[p := y]> (grown ns p a ex) = grown ns p y ex.
Proof.
  unfold grown. apply lookup_lt_Some in Hp.
  rewrite insert_app_l by (by rewrite length_insert).
  by rewrite list_insert_insert_eq.
Qed.

Lemma grown_set_new a ex k y :
  <[(length ns + k)%nat := y]> (grown ns p a ex) = grown ns p a (<[k := y]> ex).
Proof.
  unfold grown. rewrite <- (length_insert ns p a) at 1.
  by rewrite insert_app_r.
Qed.

Lemma grown_app a ex x : grown ns p a ex ++ [x] = grown ns p a (ex ++ [x]).
Proof. unfold grown. by rewrite app_assoc. Qed.

Lemma grown_length a ex :
  length (grown ns p a ex) = (length ns + length ex)%nat.
Proof. unfold grown. by rewrite length_app, length_insert. Qed.

End Grown.

Section StoreSteps.
Context {Q : EventQueueImpl}.
Implicit Types v : Voronoi.t Q.

Lemma update_insert v i f nd :
  Voronoi.Nodes v !! i = Some nd ->
  Voronoi.update (Some i) f v =
  (Ok tt, Voronoi.set_Nodes (<[i := f nd]> (Voronoi.Nodes v)) v).
Proof.
  intros H. unfold Voronoi.update.
  by rewrite (bind_Ok _ _ _ _ _ (load_Some _ _ _ H)).
Qed.

Lemma new_node_eq v x :
  Voronoi.new_node x v =
  (Ok (Some (length (Voronoi.Nodes v))),
   Voronoi.set_Nodes (Voronoi.Nodes v ++ [x]) v).
Proof. done. Qed.

End StoreSteps.

(** Symbolic execution of reads, writes and allocations on a store of
    the form [grown ns p a ex]. *)
Ltac state_norm :=
  cbv beta iota delta
    [Voronoi.Nodes Voronoi.Bounds Voronoi.Sites Voronoi.EventQueue
     Voronoi.ParabolaTree Voronoi.SweepLine Voronoi.DCEL Voronoi.Events
     Voronoi.SiteFace Voronoi.set_Nodes Voronoi.set_Events
     Voronoi.set_EventQueue Voronoi.set_ParabolaTree Voronoi.set_SweepLine
     Voronoi.set_DCEL Voronoi.set_SiteFace].

Ltac store_norm :=
  state_norm;
  repeat first
    [ erewrite grown_set_old by eassumption
    | rewrite grown_set_new
    | rewrite grown_app
    | rewrite grown_length ];
  cbn [length app Nat.add insert list_insert].

Ltac store_lookup :=
  state_norm;
  first [ eapply grown_old; eassumption
        | rewrite grown_new; reflexivity ].

Ltac store_step :=
  first
    [ erewrite bind_Ok by (apply load_Some; store_lookup)
    | erewrite bind_Ok by (apply update_insert; store_lookup)
    | erewrite bind_Ok by (apply new_node_eq) ];
  store_norm.

Section Split.
Context {Q : EventQueueImpl}.
Implicit Types v : Voronoi.t Q.

Lemma split_arc_spec v p a site :
  Voronoi.Nodes v !! p = Some a ->
  let n := length (Voronoi.Nodes v) in
  Voronoi.split_arc (Some p) site v =
  (Ok (Some (n + 3)%nat, Some (n + 2)%nat, Some (n + 0)%nat),
   Voronoi.set_Nodes (split_nodes (Voronoi.Nodes v) p a site) v).
Proof.
  intros Hp n. subst n. destruct v as [bo si q t sw d ns es sf].
  simpl in Hp. unfold Voronoi.split_arc, split_nodes. state_norm.
  rewrite (grown_init ns p a Hp) at 1.
  repeat store_step.
  reflexivity.
Qed.

(** C3, amended. The split allocates, after the [n] nodes of the
    store, the right copy at [n], the new arc at [n + 2] and the left
    copy at [n + 3] (with the second breakpoint at [n + 1]).  Both
    copies have the site of the original arc.  The left copy has a copy
    of its left edges and its right events, and no left event; the right
    copy has a copy of its right edges and its left events, and no right
    event.  Neither copy has a middle event. *)
Theorem split_arc_inheritance v p a site :
  Voronoi.Nodes v !! p = Some a ->
  exists v' oldArcLeft newArc oldArcRight l r,
    Voronoi.split_arc (Some p) site v =
      (Ok (Some oldArcLeft, Some newArc, Some oldArcRight), v')
    /\ Voronoi.Nodes v' !! oldArcLeft = Some l
    /\ Voronoi.Nodes v' !! oldArcRight = Some r
    /\ Node.Site l = Node.Site a /\ Node.Site r = Node.Site a
    /\ Node.LeftEdges l = Node.LeftEdges a
    /\ Node.RightEvents l = Node.RightEvents a
    /\ Node.LeftEvents l = [] /\ Node.MiddleEvents l = []
    /\ Node.RightEdges r = Node.RightEdges a
    /\ Node.LeftEvents r = Node.LeftEvents a
    /\ Node.RightEvents r = [] /\ Node.MiddleEvents r = [].
Proof.
  intros Hp. rewrite (split_arc_spec _ _ _ _ Hp).
  set (n := length (Voronoi.Nodes v)).
  exists (Voronoi.set_Nodes (split_nodes (Voronoi.Nodes v) p a site) v),
    (n + 3)%nat, (n + 2)%nat, (n + 0)%nat.
  exists (Node.mk (Node.Site a) [] [] (Node.RightEvents a) (Some (n + 1)%nat)
            None None (Node.LeftEdges a) []),
    (Node.mk (Node.Site a) (Node.LeftEvents a) [] [] (Some p) None None
       [] (Node.RightEdges a)).
  split; [done|].
  change (Voronoi.Nodes (Voronoi.set_Nodes ?x v)) with x.
  unfold split_nodes. fold n. unfold n. rewrite !grown_new. done.
Qed.

End Split.

Lemma split_arc_inheritance_witness :
  exists v' oldArcLeft newArc oldArcRight l r,
    Voronoi.split_arc (Some 4%nat) (Some 3%nat) Examples.before_fourth_site =
      (Ok (Some oldArcLeft, Some newArc, Some oldArcRight), v')
    /\ Voronoi.Nodes v' !! oldArcLeft = Some l
    /\ Voronoi.Nodes v' !! oldArcRight = Some r
    /\ Node.Site l = Some 0%nat /\ Node.Site r = Some 0%nat
    /\ Node.LeftEdges l = []
    /\ Node.RightEvents l = []
    /\ Node.LeftEvents l = [] /\ Node.MiddleEvents l = []
    /\ Node.RightEdges r = [0%nat]
    /\ Node.LeftEvents r = [4%nat]
    /\ Node.RightEvents r = [] /\ Node.MiddleEvents r = [].
Proof.
  exact (split_arc_inheritance Examples.before_fourth_site 4
           (Node.mk (Some 0%nat) [4%nat] [] [] (Some 2%nat) None None
              [] [0%nat])
           (Some 3%nat) eq_refl).
Defined.

(** C3, counterexample. Before the fourth site event of
    [Examples.four_sites] the leftmost arc (node 4) has the left event 4
    and no right event.  The site event splits it: the left copy
    (node 12) has no left event, the right copy (node 9) has the left
    event 4. *)
Lemma left_copy_does_not_inherit_left_events :
  Node.LeftEvents <$> Voronoi.Nodes Examples.before_fourth_site !! 4%nat
  = Some [4%nat]
  /\ (Examples.step 20 Examples.before_fourth_site).1 = Ok tt
  /\ tree_of 9 (Voronoi.Nodes Examples.before_fourth_site) 0
     = Some (TNode 0 (TNode 2 (TLeaf 4)
                        (TNode 3 (TNode 6 (TLeaf 8) (TLeaf 7)) (TLeaf 5)))
               (TLeaf 1))
  /\ tree_of 9 (Voronoi.Nodes (Examples.step 20 Examples.before_fourth_site).2) 0
     = Some (TNode 0
               (TNode 2 (TNode 4 (TNode 10 (TLeaf 12) (TLeaf 11)) (TLeaf 9))
                  (TNode 3 (TNode 6 (TLeaf 8) (TLeaf 7)) (TLeaf 5)))
               (TLeaf 1))
  /\ Node.LeftEvents <$>
       Voronoi.Nodes (Examples.step 20 Examples.before_fourth_site).2 !! 12%nat
     = Some []
  /\ Node.LeftEvents <$>
       Voronoi.Nodes (Examples.step 20 Examples.before_fourth_site).2 !! 9%nat
     = Some [4%nat].
Proof. vm_compute. done. Qed.

(** ** Methods that keep the beach line well formed *)

Lemma same_links_refl a : same_links a a.
Proof. done. Qed.

Lemma same_shape_refl ns : same_shape ns ns.
Proof. apply Forall2_same_length_lookup. split; [done|]. by intros i x y -> [= ->]. Qed.

Lemma same_shape_trans ns1 ns2 ns3 :
  same_shape ns1 ns2 -> same_shape ns2 ns3 -> same_shape ns1 ns3.
Proof.
  unfold same_shape. intros H1 H2. revert ns3 H2.
  induction H1 as [|a b l1 l2 Hab _ IH]; intros ns3 H2; inversion H2; subst;
    constructor; [|by apply IH].
  destruct Hab as (? & ? & ? & ?).
  match goal with H : same_links b _ |- _ => destruct H as (? & ? & ? & ?) end.
  repeat split; congruence.
Qed.

Lemma same_shape_alter f ns i :
  (forall nd, same_links nd (f nd)) -> same_shape ns (alter f i ns).
Proof.
  intros Hf. revert i. induction ns as [|a ns IH]; intros [|i]; simpl.
  - constructor.
  - constructor.
  - constructor; [apply Hf | apply same_shape_refl].
  - constructor; [done | apply IH].
Qed.

Lemma same_shape_lookup ns ns' p nd :
  same_shape ns ns' -> ns !! p = Some nd ->
  exists nd', ns' !! p = Some nd' /\ same_links nd nd'.
Proof. intros H Hp. by apply (Forall2_lookup_l _ _ _ _ _ H Hp). Qed.

Lemma is_tree_same_shape ns ns' par t :
  same_shape ns ns' -> is_tree ns par t -> is_tree ns' par t.
Proof.
  intros Hs. revert par. induction t as [p|p l IHl r IHr]; intros par.
  - intros (nd & Hnd & Hpar & Hl & Hr).
    destruct (same_shape_lookup _ _ _ _ Hs Hnd) as (nd' & Hnd' & _ & ? & ? & ?).
    exists nd'. repeat split; congruence.
  - intros (nd & Hnd & Hpar & Hl & Hr & Htl & Htr).
    destruct (same_shape_lookup _ _ _ _ Hs Hnd) as (nd' & Hnd' & _ & ? & ? & ?).
    exists nd'. repeat split; try congruence; auto.
Qed.

Section Safe.
Context {Q : EventQueueImpl} {G : Geometry}.
Implicit Types v : Voronoi.t Q.
Variables (ss : list Site.t) (t : tree) (fuel : nat).
Hypothesis Hfuel : (height t < fuel)%nat.

Lemma beach_inv_shape v v' :
  beach_inv ss t v ->
  same_shape (Voronoi.Nodes v) (Voronoi.Nodes v') ->
  Voronoi.Sites v' = Voronoi.Sites v ->
  Voronoi.ParabolaTree v' = Voronoi.ParabolaTree v ->
  beach_inv ss t v'.
Proof.
  intros [(Ht & Hroot & Hnd & Harcs) Hss] Hs Hsites Htree.
  split; [|congruence].
  split; [by eapply is_tree_same_shape|].
  split; [congruence|]. split; [done|].
  intros x Hx. destruct (Harcs x Hx) as (s & nd & i & Hnd' & Hi & Hsi).
  destruct (same_shape_lookup _ _ _ _ Hs Hnd') as (nd' & ? & Hsite & _).
  exists s, nd', i. repeat split; congruence.
Qed.

Lemma beach_inv_ext v v' :
  beach_inv ss t v ->
  Voronoi.Nodes v' = Voronoi.Nodes v ->
  Voronoi.Sites v' = Voronoi.Sites v ->
  Voronoi.ParabolaTree v' = Voronoi.ParabolaTree v ->
  beach_inv ss t v'.
Proof.
  intros Hinv Hn. apply beach_inv_shape; [done|].
  rewrite Hn. apply same_shape_refl.
Qed.

Lemma safe_ret {A} (post : A -> Prop) a : post a -> safe ss t post (mret a).
Proof. intros Ha v Hv. by exists a, v. Qed.

Lemma safe_bind {A B} (post : A -> Prop) (post' : B -> Prop)
    (m : Voronoi.M Q A) (k : A -> Voronoi.M Q B) :
  safe ss t post m -> (forall a, post a -> safe ss t post' (k a)) ->
  safe ss t post' (m ≫= k).
Proof.
  intros Hm Hk v Hv. destruct (Hm v Hv) as (a & v1 & Hr & Hv1 & Ha).
  rewrite (bind_Ok _ _ _ _ _ Hr). by apply Hk.
Qed.

Lemma safe_mono {A} (post post' : A -> Prop) (m : Voronoi.M Q A) :
  safe ss t post m -> (forall a, post a -> post' a) -> safe ss t post' m.
Proof.
  intros Hm Himp v Hv. destruct (Hm v Hv) as (a & v1 & ? & ? & ?).
  exists a, v1. auto.
Qed.

Lemma safe_gets {A} (f : Voronoi.t Q -> A) :
  safe ss t (fun _ => True) (Voronoi.gets f).
Proof. intros v Hv. by exists (f v), v. Qed.

Lemma safe_modify (g : Voronoi.t Q -> Voronoi.t Q) :
  (forall v, beach_inv ss t v -> beach_inv ss t (g v)) ->
  safe ss t (fun _ => True) (Voronoi.modify g).
Proof. intros Hg v Hv. exists tt, (g v). auto. Qed.

Lemma safe_for_each {A} (l : list A) (body : A -> Voronoi.M Q unit) :
  (forall x, safe ss t (fun _ => True) (body x)) ->
  safe ss t (fun _ => True) (Voronoi.for_each l body).
Proof.
  intros H. induction l as [|x l IH]; simpl; [by apply safe_ret|].
  eapply safe_bind; [apply H | by intros _ _].
Qed.

Lemma beach_inv_arc v x :
  beach_inv ss t v -> x ∈ leaves t ->
  exists nd i s, Voronoi.Nodes v !! x = Some nd
    /\ Node.Site nd = Some i /\ ss !! i = Some s.
Proof.
  intros [(_ & _ & _ & Harcs) Hss] Hx.
  destruct (Harcs x Hx) as (s & nd & i & ? & ? & ?).
  exists nd, i, s. repeat split; congruence.
Qed.

Lemma safe_load x :
  x ∈ leaves t ->
  safe ss t (fun nd => exists i s, Node.Site nd = Some i /\ ss !! i = Some s)
    (Voronoi.load (Some x)).
Proof.
  intros Hx v Hv. destruct (beach_inv_arc v x Hv Hx) as (nd & i & s & Hnd & ? & ?).
  exists nd, v. rewrite (load_Some _ _ _ Hnd). split; [done|].
  split; [done|]. eauto.
Qed.

Lemma safe_load_site i s :
  ss !! i = Some s -> safe ss t (fun r => r = s) (Voronoi.load_site (Some i)).
Proof.
  intros Hi v Hv. exists s, v. destruct Hv as [? Hss].
  rewrite (load_site_Some v i s) by congruence. by split.
Qed.

Lemma safe_update x f :
  x ∈ leaves t -> (forall nd, same_links nd (f nd)) ->
  safe ss t (fun _ => True) (Voronoi.update (Some x) f).
Proof.
  intros Hx Hf v Hv. destruct (beach_inv_arc v x Hv Hx) as (nd & i & s & Hnd & _).
  exists tt. eexists. rewrite (update_Some _ _ _ _ Hnd). split; [done|].
  split; [|done]. eapply beach_inv_shape; [exact Hv| |done..].
  by apply same_shape_alter.
Qed.

Lemma safe_face_of_arc x :
  x ∈ leaves t -> safe ss t (fun _ => True) (Voronoi.face_of_arc (Some x)).
Proof.
  intros Hx v Hv. destruct (beach_inv_arc v x Hv Hx) as (nd & i & s & Hnd & Hi & Hs).
  unfold Voronoi.face_of_arc. rewrite (bind_Ok _ _ _ _ _ (load_Some _ _ _ Hnd)).
  unfold Voronoi.load_face. rewrite Hi.
  destruct Hv as [Hwf Hss].
  rewrite (bind_Ok _ _ _ _ _ (load_site_Some v i s ltac:(congruence))).
  mred. eexists _, v. by split.
Qed.

Lemma safe_DCEL_NewVertex x y :
  safe ss t (fun _ => True) (Voronoi.DCEL_NewVertex x y).
Proof.
  intros v Hv. unfold Voronoi.DCEL_NewVertex. mred.
  eexists _, _. split; [done|]. split; [|done].
  by eapply beach_inv_ext.
Qed.

Lemma safe_DCEL_NewEdge f1 f2 x :
  safe ss t (fun _ => True) (Voronoi.DCEL_NewEdge f1 f2 x).
Proof.
  intros v Hv. unfold Voronoi.DCEL_NewEdge. mred.
  eexists _, _. split; [done|]. split; [|done].
  by eapply beach_inv_ext.
Qed.

Lemma safe_PrevArc x :
  arc_or_nil t x -> safe ss t (arc_or_nil t) (Voronoi.PrevArc fuel x).
Proof.
  intros Hx v Hv. unfold Voronoi.PrevArc. mred.
  destruct Hx as [->|(q & -> & Hq)].
  - exists None, v. split; [done|]. split; [done|by left].
  - pose proof Hv as [(Ht & ?) ?].
    destruct (PrevArc_total _ _ _ _ Ht Hq Hfuel) as (r & -> & Hr).
    by exists r, v.
Qed.

Lemma safe_NextArc x :
  arc_or_nil t x -> safe ss t (arc_or_nil t) (Voronoi.NextArc fuel x).
Proof.
  intros Hx v Hv. unfold Voronoi.NextArc. mred.
  destruct Hx as [->|(q & -> & Hq)].
  - exists None, v. split; [done|]. split; [done|by left].
  - pose proof Hv as [(Ht & ?) ?].
    destruct (NextArc_total _ _ _ _ Ht Hq Hfuel) as (r & -> & Hr).
    by exists r, v.
Qed.

Lemma safe_addCircleEvent a b c :
  arc_or_nil t a -> arc_or_nil t b -> arc_or_nil t c ->
  safe ss t (fun _ => True) (Voronoi.addCircleEvent a b c).
Proof.
  intros [->|(qa & -> & Ha)]; [intros _ _ v Hv; by exists tt, v|].
  intros [->|(qb & -> & Hb)]; [intros _ v Hv; by exists tt, v|].
  intros [->|(qc & -> & Hc)]; [intros v Hv; by exists tt, v|].
  intros v Hv. pose proof Hv as [(_ & _ & _ & Harcs) Hss].
  destruct (Harcs _ Ha) as (s1 & H1).
  destruct (Harcs _ Hb) as (s2 & H2).
  destruct (Harcs _ Hc) as (s3 & H3).
  destruct (calcCircle s1 s2 s3) as [[[x y] r] err] eqn:Hcc.
  rewrite (addCircleEvent_arcs _ _ _ _ _ _ _ _ _ _ _ H1 H2 H3 Hcc).
  exists tt. eexists. split; [done|]. split; [|done].
  destruct (bool_decide (is_Some err) || (int_add y r <? Voronoi.SweepLine v));
    [done|].
  eapply beach_inv_shape; [exact Hv| |done..].
  unfold with_circle_event. simpl.
  eapply same_shape_trans; [|by apply same_shape_alter].
  eapply same_shape_trans; [|by apply same_shape_alter].
  by apply same_shape_alter.
Qed.

Lemma safe_still_queued e :
  safe ss t (fun _ => True) (Voronoi.still_queued e).
Proof.
  unfold Voronoi.still_queued.
  eapply safe_bind; [apply safe_gets|]. intros q _. by apply safe_ret.
Qed.

Lemma safe_queue_Remove e :
  safe ss t (fun _ => True) (Voronoi.queue_Remove e).
Proof. apply safe_modify. intros v Hv. by eapply beach_inv_ext. Qed.

Lemma safe_removeCircleEvent x :
  x ∈ leaves t ->
  safe ss t (fun _ => True) (Voronoi.removeCircleEvent fuel (Some x)).
Proof.
  intros Hx. unfold Voronoi.removeCircleEvent.
  eapply safe_bind; [by apply safe_load|]. intros nd _.
  destruct (0 <? length (Node.MiddleEvents nd))%nat; [|by apply safe_ret].
  eapply safe_bind.
  { apply safe_for_each. intros e.
    eapply safe_bind; [apply safe_still_queued|].
    intros [] _; [apply safe_queue_Remove | by apply safe_ret]. }
  intros _ _. eapply safe_bind; [by apply safe_update|]. intros _ _.
  eapply safe_bind.
  { apply safe_PrevArc. right. eauto. }
  intros prevArc Hprev. apply (safe_bind (fun _ => True)).
  { destruct Hprev as [->|(q & -> & Hq)];
      [by apply safe_ret | by apply safe_update]. }
  intros _ _. eapply safe_bind.
  { apply safe_NextArc. right. eauto. }
  intros nextArc [->|(q & -> & Hq)];
    [by apply safe_ret | by apply safe_update].
Qed.

End Safe.

(** ** The arc above a site *)

Section ArcAbove.
Context {Q : EventQueueImpl} {G : Geometry}.
Implicit Types v : Voronoi.t Q.

(** [findNodeAbove] only reads, and only the nodes, the sites and the
    sweep position. *)
Lemma findNodeAbove_loop_reads fuel site node v v' :
  Voronoi.Nodes v' = Voronoi.Nodes v ->
  Voronoi.Sites v' = Voronoi.Sites v ->
  Voronoi.SweepLine v' = Voronoi.SweepLine v ->
  exists r, Voronoi.findNodeAbove_loop fuel site node v = (r, v)
    /\ Voronoi.findNodeAbove_loop fuel site node v' = (r, v').
Proof.
  intros Hn Hs Hw. revert node.
  induction fuel as [|f IH]; intros node; simpl; [by eexists|].
  unfold Voronoi.load_site, Voronoi.load.
  mred. rewrite ?Hn, ?Hs, ?Hw.
  destruct (Node.IsLeaf (Voronoi.Nodes v) node) as [[|]| |]; try by eexists.
  destruct (Node.PrevChildArc _ _ _) as [?| |]; try by eexists.
  destruct (Node.NextChildArc _ _ _) as [?| |]; try by eexists.
  rewrite ?Hn, ?Hs, ?Hw.
  destruct (GetXOfInternalNode _ _ _ _) as [x|]; try by eexists.
  rewrite ?Hn, ?Hs, ?Hw.
  destruct site as [i|]; mred; [|by eexists].
  destruct (index_or_panic (Voronoi.Sites v) i) as [s| |]; try by eexists.
  rewrite ?Hn, ?Hs, ?Hw.
  destruct (Node.deref (Voronoi.Nodes v) node) as [nd| |]; try by eexists.
  destruct (Site.X s <? x); apply IH.
Qed.

Lemma findNodeAbove_reads fuel site v v' :
  Voronoi.Nodes v' = Voronoi.Nodes v ->
  Voronoi.Sites v' = Voronoi.Sites v ->
  Voronoi.SweepLine v' = Voronoi.SweepLine v ->
  Voronoi.ParabolaTree v' = Voronoi.ParabolaTree v ->
  exists r, Voronoi.findNodeAbove fuel site v = (r, v)
    /\ Voronoi.findNodeAbove fuel site v' = (r, v').
Proof.
  intros Hn Hs Hw Ht. unfold Voronoi.findNodeAbove. mred. rewrite Ht.
  by apply findNodeAbove_loop_reads.
Qed.

(** When it returns, it returns an arc of the tree it descends. *)
Lemma findNodeAbove_loop_leaf fuel site v par u r v' :
  is_tree (Voronoi.Nodes v) par u ->
  Voronoi.findNodeAbove_loop fuel site (Some (root_of u)) v = (Ok r, v') ->
  exists p, r = Some p /\ p ∈ leaves u.
Proof.
  revert par u. induction fuel as [|f IH]; intros par u Hu; simpl; [done|].
  unfold Voronoi.load_site, Voronoi.load.
  mred. rewrite (IsLeaf_root _ _ _ Hu).
  destruct u as [p|p l rt]; simpl.
  { intros [= <- _]. exists p. split; [done|left]. }
  destruct (Node.PrevChildArc _ _ _) as [?| |]; try done.
  destruct (Node.NextChildArc _ _ _) as [?| |]; try done.
  destruct (GetXOfInternalNode _ _ _ _) as [x|]; try done.
  destruct site as [i|]; mred; [|done].
  destruct (index_or_panic (Voronoi.Sites v) i) as [s| |]; try done.
  destruct Hu as (nd & Hnd & _ & Hl & Hr & Htl & Htr).
  rewrite (deref_Some _ _ _ Hnd). rewrite Hl, Hr.
  destruct (Site.X s <? x); intros Hres.
  - destruct (IH _ _ Htl Hres) as (q & -> & Hq). exists q. split; [done|].
    apply elem_of_app. by left.
  - destruct (IH _ _ Htr Hres) as (q & -> & Hq). exists q. split; [done|].
    apply elem_of_app. by right.
Qed.

Lemma new_site_face_spec v i s :
  Voronoi.Sites v !! i = Some s ->
  exists d sf,
    Voronoi.new_site_face (Some i) v =
    (Ok tt, Voronoi.set_SiteFace sf (Voronoi.set_DCEL d v)).
Proof.
  intros Hi. unfold Voronoi.new_site_face, Voronoi.DCEL_NewFace. mred.
  unfold Voronoi.load_site. mred. simpl.
  rewrite (index_or_panic_Some _ _ _ Hi). by eexists _, _.
Qed.

(** The two neighbour lookups of the loop body return. *)
Lemma PrevChildArc_loop_rightmost ns par t fuel :
  is_tree ns par t -> (height t < fuel)%nat ->
  Node.PrevChildArc_loop fuel ns (Some (root_of t)) = Ok (Some (rightmost t)).
Proof.
  revert par fuel. induction t as [p|p l IHl r IHr]; intros par fuel Ht Hf;
    (destruct fuel as [|f]; [lia|]); simpl.
  - by rewrite (IsLeaf_leaf _ _ _ Ht).
  - rewrite (IsLeaf_node _ _ _ _ _ Ht). simpl.
    destruct Ht as (nd & Hnd & _ & _ & Hr & _ & Htr).
    rewrite (deref_Some _ _ _ Hnd). simpl. rewrite Hr.
    apply (IHr (Some p)); [done|]. simpl in Hf. lia.
Qed.

Lemma NextChildArc_loop_leftmost ns par t fuel :
  is_tree ns par t -> (height t < fuel)%nat ->
  Node.NextChildArc_loop fuel ns (Some (root_of t)) = Ok (Some (leftmost t)).
Proof.
  revert par fuel. induction t as [p|p l IHl r IHr]; intros par fuel Ht Hf;
    (destruct fuel as [|f]; [lia|]); simpl.
  - by rewrite (IsLeaf_leaf _ _ _ Ht).
  - rewrite (IsLeaf_node _ _ _ _ _ Ht). simpl.
    destruct Ht as (nd & Hnd & _ & Hl & _ & Htl & _).
    rewrite (deref_Some _ _ _ Hnd). simpl. rewrite Hl.
    apply (IHl (Some p)); [done|]. simpl in Hf. lia.
Qed.

(** With enough fuel for the height of the tree, and a breakpoint
    position for each breakpoint on the way, the descent returns an arc
    and leaves the state as it is. *)
Lemma findNodeAbove_loop_total fuel i s v par u :
  is_tree (Voronoi.Nodes v) par u ->
  Voronoi.Sites v !! i = Some s ->
  (forall q, q ∈ internals u ->
     is_Some (GetXOfInternalNode (Voronoi.Nodes v) (Voronoi.Sites v)
                (Some q) (Voronoi.SweepLine v))) ->
  (height u < fuel)%nat ->
  exists p, Voronoi.findNodeAbove_loop fuel (Some i) (Some (root_of u)) v
            = (Ok (Some p), v)
    /\ p ∈ leaves u.
Proof.
  intros Hu Hs. revert par fuel Hu.
  induction u as [p|p l IHl r IHr]; intros par fuel Hu Hx Hf;
    (destruct fuel as [|f]; [lia|]); simpl in *.
  - mred. rewrite (IsLeaf_leaf _ _ _ Hu). exists p. split; [done|left].
  - unfold Voronoi.load_site, Voronoi.load. mred.
    rewrite (IsLeaf_node _ _ _ _ _ Hu).
    destruct Hu as (nd & Hnd & _ & Hl & Hr & Htl & Htr).
    unfold Node.PrevChildArc, Node.NextChildArc.
    rewrite (deref_Some _ _ _ Hnd). mred. rewrite Hl, Hr.
    rewrite (PrevChildArc_loop_rightmost _ _ l (S f) Htl) by lia.
    rewrite (NextChildArc_loop_leftmost _ _ r (S f) Htr) by lia.
    destruct (Hx p) as [x ->]; [left|].
    rewrite (index_or_panic_Some _ _ _ Hs), (deref_Some _ _ _ Hnd), Hl, Hr.
    destruct (Site.X s <? x).
    + destruct (IHl (Some p) f Htl) as (q & -> & Hq); [|lia|].
      { intros q Hq. apply Hx. right. apply elem_of_app. by left. }
      exists q. split; [done|]. apply elem_of_app. by left.
    + destruct (IHr (Some p) f Htr) as (q & -> & Hq); [|lia|].
      { intros q Hq. apply Hx. right. apply elem_of_app. by right. }
      exists q. split; [done|]. apply elem_of_app. by right.
Qed.

End ArcAbove.

(** ** The tree after a split *)

Section Graft.
Variables (p : Node_ptr) (u : tree).

Lemma root_graft t : root_of u = p -> root_of (graft p u t) = root_of t.
Proof. intros Hu. destruct t as [q|q l r]; simpl; [|done]. by case_decide; subst. Qed.

Lemma graft_notin t : p ∉ leaves t -> graft p u t = t.
Proof.
  induction t as [q|q l IHl r IHr]; simpl; intros Hp.
  - case_decide; [|done]. subst. by destruct Hp; left.
  - rewrite elem_of_app in Hp. rewrite IHl, IHr; tauto.
Qed.

(** The arcs after the graft: those of [u] in the place of [p]. *)
Lemma leaves_graft t :
  NoDup (leaves t) -> p ∈ leaves t ->
  exists l1 l2, leaves t = l1 ++ p :: l2
    /\ leaves (graft p u t) = l1 ++ leaves u ++ l2.
Proof.
  induction t as [q|q l IHl r IHr]; simpl; intros Hnd Hp.
  - apply list_elem_of_singleton in Hp as ->. exists [], [].
    rewrite decide_True by done. by rewrite app_nil_r.
  - apply NoDup_app in Hnd as (Hl & Hlr & Hr).
    apply elem_of_app in Hp as [Hp|Hp].
    + destruct (IHl Hl Hp) as (l1 & l2 & E1 & E2).
      rewrite (graft_notin r) by auto.
      exists l1, (l2 ++ leaves r). rewrite E1, E2.
      by rewrite <- !app_assoc.
    + destruct (IHr Hr Hp) as (l1 & l2 & E1 & E2).
      rewrite (graft_notin l) by (intros Hl'; by apply (Hlr p)).
      exists (leaves l ++ l1), l2. rewrite E1, E2.
      by rewrite <- !app_assoc.
Qed.

Lemma internals_graft t :
  NoDup (leaves t) -> p ∈ leaves t ->
  length (internals (graft p u t))
  = (length (internals t) + length (internals u))%nat.
Proof.
  induction t as [q|q l IHl r IHr]; simpl; intros Hnd Hp.
  - apply list_elem_of_singleton in Hp as ->. by rewrite decide_True.
  - apply NoDup_app in Hnd as (Hl & Hlr & Hr). rewrite !length_app.
    apply elem_of_app in Hp as [Hp|Hp].
    + rewrite (graft_notin r) by auto. rewrite (IHl Hl Hp). lia.
    + rewrite (graft_notin l) by (intros Hl'; by apply (Hlr p)).
      rewrite (IHr Hr Hp). lia.
Qed.

Lemma height_graft t : (height (graft p u t) <= height t + height u)%nat.
Proof.
  induction t as [q|q l IHl r IHr]; simpl; [case_decide; simpl; lia|lia].
Qed.

End Graft.

(** The split leaves two more arcs and two more breakpoints. *)
Lemma split_tree_counts p n t :
  NoDup (leaves t) -> p ∈ leaves t ->
  let t' := graft p (split_tree p n) t in
  length (leaves t') = (length (leaves t) + 2)%nat
  /\ length (internals t') = (length (internals t) + 2)%nat.
Proof.
  intros Hnd Hp t'. subst t'. split.
  - destruct (leaves_graft p (split_tree p n) t Hnd Hp) as (l1 & l2 & -> & ->).
    rewrite !length_app. simpl. lia.
  - by rewrite internals_graft.
Qed.

Section SplitShape.
Variables (ns : list Node.t) (p : Node_ptr) (a : Node.t)
  (site : option Site_ptr).
Hypothesis Hp : ns !! p = Some a.
Hypothesis Hleaf : Node.Left a = None.

Lemma split_nodes_other q :
  q <> p -> (q < length ns)%nat -> split_nodes ns p a site !! q = ns !! q.
Proof. intros. unfold split_nodes. by apply grown_other. Qed.

Lemma split_nodes_old :
  split_nodes ns p a site !! p
  = Some (Node.mk None [] [] [] (Node.Parent a) (Some (length ns + 1)%nat)
            (Some (length ns + 0)%nat) (Node.LeftEdges a) (Node.RightEdges a)).
Proof. unfold split_nodes. by eapply grown_old. Qed.

Lemma is_tree_split_tree :
  is_tree (split_nodes ns p a site) (Node.Parent a)
    (split_tree p (length ns)).
Proof.
  unfold split_tree. simpl. eexists. split; [apply split_nodes_old|].
  do 3 (split; [done|]). unfold split_nodes. rewrite !grown_new. simpl.
  split; [|by eexists].
  eexists. split; [done|]. do 3 (split; [done|]). split; by eexists.
Qed.

Lemma is_tree_graft par t :
  is_tree ns par t ->
  is_tree (split_nodes ns p a site) par (graft p (split_tree p (length ns)) t).
Proof.
  revert par. induction t as [q|q l IHl r IHr]; simpl; intros par.
  - intros (nd & Hnd & Hpar & Hl & Hr). case_decide as Hq.
    + subst q. assert (nd = a) as -> by congruence. subst par.
      apply is_tree_split_tree.
    + exists nd. rewrite split_nodes_other; [done|done|].
      by eapply lookup_lt_Some.
  - intros (nd & Hnd & Hpar & Hl & Hr & Htl & Htr).
    assert (q <> p) as Hq by (intros ->; congruence).
    exists nd. rewrite split_nodes_other by (done || by eapply lookup_lt_Some).
    rewrite !root_graft by done. auto 10.
Qed.

End SplitShape.

(** ** Site events *)

Section SiteEvent.
Context {Q : EventQueueImpl} {G : Geometry}.
Implicit Types v : Voronoi.t Q.

Lemma arc_is_leaf ns par t x nd :
  is_tree ns par t -> x ∈ leaves t -> ns !! x = Some nd ->
  Node.Left nd = None /\ (x < length ns)%nat.
Proof.
  intros Ht Hx Hnd. pose proof (leaves_subtrees _ _ Hx) as Hu.
  destruct (subtrees_is_tree _ _ _ _ Ht Hu) as (px & nd' & Hnd' & _ & Hl & _).
  split; [congruence | by eapply lookup_lt_Some].
Qed.

(** The split of an arc of a well-formed beach line leaves a well-formed
    beach line: the tree with the split arc replaced by the two
    breakpoints above the two copies and the new arc. *)
Lemma beach_inv_split ss t v p a i s :
  beach_inv ss t v -> p ∈ leaves t ->
  Voronoi.Nodes v !! p = Some a -> ss !! i = Some s ->
  beach_inv ss (graft p (split_tree p (length (Voronoi.Nodes v))) t)
    (Voronoi.set_Nodes (split_nodes (Voronoi.Nodes v) p a (Some i)) v).
Proof.
  intros Hinv Hp Ha Hi.
  destruct (beach_inv_arc _ _ _ _ Hinv Hp) as (a' & ia & sa & Ha' & Hia & Hsa).
  assert (a' = a) as -> by congruence.
  destruct Hinv as [(Ht & Hroot & Hnd & Harcs) Hss].
  destruct (arc_is_leaf _ _ _ _ _ Ht Hp Ha) as [Hleaf Hlt].
  set (n := length (Voronoi.Nodes v)) in *.
  split; [|done]. split; [by apply is_tree_graft|].
  split; [by simpl; rewrite root_graft|].
  destruct (leaves_graft p (split_tree p n) t Hnd Hp) as (l1 & l2 & E1 & E2).
  assert (forall x, x ∈ l1 ++ l2 -> x ∈ leaves t /\ x <> p) as Hold.
  { intros x Hx. rewrite E1 in Hnd |- *.
    apply NoDup_app in Hnd as (_ & H1 & [H2 _]%NoDup_cons).
    apply elem_of_app in Hx as [Hx|Hx].
    - split; [apply elem_of_app; by left|]. intros ->. apply (H1 p Hx). left.
    - split; [apply elem_of_app; right; by right|]. by intros ->. }
  assert (forall x, x ∈ l1 ++ l2 -> (x < n)%nat) as Hlow.
  { intros x [Hx _]%Hold. destruct (Harcs x Hx) as (? & ? & ? & ? & _).
    by eapply lookup_lt_Some. }
  split.
  - rewrite E2. rewrite E1 in Hnd.
    apply NoDup_app in Hnd as (N1 & N12 & [Np N2]%NoDup_cons).
    apply NoDup_app. split; [done|]. split.
    + intros x Hx [Hu|Hx2]%elem_of_app.
      * assert (x < n)%nat by (apply Hlow, elem_of_app; by left).
        simpl in Hu. rewrite !elem_of_cons in Hu.
        destruct Hu as [->|[->|[->|Hu]]]; [lia..|inversion Hu].
      * apply (N12 x Hx). by right.
    + apply NoDup_app. split; [|split; [|done]].
      * apply NoDup_ListNoDup. repeat constructor; simpl; lia.
      * intros x Hu Hx.
        assert (x < n)%nat by (apply Hlow, elem_of_app; by right).
        simpl in Hu. rewrite !elem_of_cons in Hu.
        destruct Hu as [->|[->|[->|Hu]]]; [lia..|inversion Hu].
  - intros x. rewrite E2. unfold arc_with_site. simpl.
    rewrite !elem_of_app. simpl. rewrite !elem_of_cons.
    unfold split_nodes. fold n.
    intros [Hx|[->|[->|[->|Hx]]]].
    + destruct (Hold x) as [Hx' Hne]; [apply elem_of_app; by left|].
      destruct (Harcs x Hx') as (sx & nd & ix & ? & ? & ?).
      exists sx, nd, ix. rewrite grown_other; [done|done|].
      by eapply lookup_lt_Some.
    + eexists sa, _, ia. unfold n. rewrite grown_new. simpl.
      split; [done|]. split; [done|congruence].
    + eexists s, _, i. unfold n. rewrite grown_new. simpl.
      split; [done|]. split; [done|congruence].
    + eexists sa, _, ia. unfold n. rewrite grown_new. simpl.
      split; [done|]. split; [done|congruence].
    + destruct (Hold x) as [Hx' Hne]; [apply elem_of_app; by right|].
      destruct (Harcs x Hx') as (sx & nd & ix & ? & ? & ?).
      exists sx, nd, ix. rewrite grown_other; [done|done|].
      by eapply lookup_lt_Some.
Qed.

Lemma safe_link_new_arc ss t fuel vertex l n r :
  (height t < fuel)%nat ->
  l ∈ leaves t -> n ∈ leaves t -> r ∈ leaves t ->
  safe ss t (fun _ => True)
    (Voronoi.link_new_arc fuel vertex (Some l) (Some n) (Some r)).
Proof.
  intros Hfuel Hl Hn Hr. unfold Voronoi.link_new_arc.
  eapply safe_bind; [by apply safe_face_of_arc|]. intros f1 _.
  eapply safe_bind; [by apply safe_face_of_arc|]. intros f2 _.
  eapply safe_bind; [apply safe_DCEL_NewEdge|]. intros [e1 e2] _.
  eapply safe_bind; [by apply safe_update|]. intros _ _.
  eapply safe_bind; [by apply safe_update|]. intros _ _.
  eapply safe_bind; [by apply safe_face_of_arc|]. intros f3 _.
  eapply safe_bind; [by apply safe_face_of_arc|]. intros f4 _.
  eapply safe_bind; [apply safe_DCEL_NewEdge|]. intros [e3 e4] _.
  eapply safe_bind; [by apply safe_update|]. intros _ _.
  eapply safe_bind; [by apply safe_update|]. intros _ _.
  assert (arc_or_nil t (Some n)) as Hn' by (right; eauto).
  eapply safe_bind; [by apply safe_PrevArc|]. intros prevArc Hprev.
  eapply safe_bind; [by apply safe_PrevArc|]. intros prevPrevArc Hpp.
  apply (safe_bind _ _ (fun _ => True)); [by apply safe_addCircleEvent|].
  intros _ _.
  eapply safe_bind; [by apply safe_NextArc|]. intros nextArc Hnext.
  eapply safe_bind; [by apply safe_NextArc|]. intros nextNextArc Hnn.
  by apply safe_addCircleEvent.
Qed.

Lemma DCEL_NewVertex_eq v x y :
  exists vx d, Voronoi.DCEL_NewVertex x y v = (Ok vx, Voronoi.set_DCEL d v).
Proof. unfold Voronoi.DCEL_NewVertex. mred. simpl. by eexists _, _. Qed.

(** X11. A site event on the empty tree returns and leaves a
    well-formed tree of one arc, allocated at the end of the node store,
    with the site of the event. *)
Lemma first_site_event_one_arc fuel v event ev i s :
  Voronoi.ParabolaTree v = None ->
  Voronoi.Events v !! event = Some ev ->
  Event.Site ev = Some i ->
  Voronoi.Sites v !! i = Some s ->
  exists v',
    Voronoi.handleSiteEvent fuel event v = (Ok tt, v')
    /\ Voronoi.Nodes v' = Voronoi.Nodes v ++ [Node.set_Site (Some i) Node.zero]
    /\ wf_beach v' (TLeaf (length (Voronoi.Nodes v))).
Proof.
  intros Hroot Hev Hsite Hs. unfold Voronoi.handleSiteEvent.
  rewrite (bind_Ok _ _ _ _ _ (load_event_Some _ _ _ Hev)). rewrite Hsite.
  destruct (new_site_face_spec v i s Hs) as (d & sf & Hface).
  rewrite (bind_Ok _ _ _ _ _ Hface).
  set (v1 := Voronoi.set_SiteFace sf (Voronoi.set_DCEL d v)).
  rewrite (bind_Ok (Voronoi.gets Voronoi.ParabolaTree) _ v1 _ v1 eq_refl).
  change (Voronoi.ParabolaTree v1) with (Voronoi.ParabolaTree v).
  rewrite Hroot. rewrite (bind_Ok _ _ _ _ _ (new_node_eq v1 _)).
  eexists. split; [done|]. split; [done|]. simpl.
  assert ((Voronoi.Nodes v ++ [Node.set_Site (Some i) Node.zero])
            !! length (Voronoi.Nodes v)
          = Some (Node.set_Site (Some i) Node.zero)) as Hnew.
  { rewrite lookup_app_r by lia. by rewrite Nat.sub_diag. }
  split; [by eexists|]. split; [done|].
  split; [apply NoDup_singleton|].
  intros x ->%list_elem_of_singleton. by exists s, (Node.set_Site (Some i) Node.zero), i.
Qed.

(** C7, amended. A site event on a well-formed beach line [t], each of
    whose breakpoints has an x position at the sweep position, returns
    normally.  It splits the arc [p] of [t] that the descent of
    [findNodeAbove] returns: the beach line is then [t] with this arc
    replaced by two breakpoints over three arcs, and has two more arcs
    and two more breakpoints than [t]. *)
Theorem site_event_adds_two_arcs fuel v t event ev i s :
  wf_beach v t ->
  Voronoi.Events v !! event = Some ev ->
  Event.Site ev = Some i ->
  Voronoi.Sites v !! i = Some s ->
  (forall q, q ∈ internals t ->
     is_Some (GetXOfInternalNode (Voronoi.Nodes v) (Voronoi.Sites v)
                (Some q) (Voronoi.SweepLine v))) ->
  (height t + 2 < fuel)%nat ->
  exists v' p n,
    Voronoi.handleSiteEvent fuel event v = (Ok tt, v')
    /\ (Voronoi.findNodeAbove fuel (Some i) v).1 = Ok (Some p)
    /\ p ∈ leaves t
    /\ wf_beach v' (graft p (split_tree p n) t)
    /\ length (leaves (graft p (split_tree p n) t))
       = (length (leaves t) + 2)%nat
    /\ length (internals (graft p (split_tree p n) t))
       = (length (internals t) + 2)%nat.
Proof.
  intros Hwf Hev Hsite Hs Hx Hfuel.
  assert (beach_inv (Voronoi.Sites v) t v) as Hinv by done.
  destruct Hwf as (Ht & Hroot & Hnd & Harcs).
  destruct (findNodeAbove_loop_total fuel i s v None t Ht Hs Hx ltac:(lia))
    as (p & Hloop & Hp).
  assert (Voronoi.findNodeAbove fuel (Some i) v = (Ok (Some p), v)) as Hfind.
  { unfold Voronoi.findNodeAbove.
    by rewrite (bind_Ok (Voronoi.gets Voronoi.ParabolaTree) _ v _ v eq_refl),
      Hroot. }
  clear Hx Hloop.
  set (ss := Voronoi.Sites v) in *.
  unfold Voronoi.handleSiteEvent.
  rewrite (bind_Ok _ _ _ _ _ (load_event_Some _ _ _ Hev)). rewrite Hsite.
  destruct (new_site_face_spec v i s Hs) as (d & sf & Hface).
  rewrite (bind_Ok _ _ _ _ _ Hface).
  set (v1 := Voronoi.set_SiteFace sf (Voronoi.set_DCEL d v)).
  assert (beach_inv ss t v1) as Hinv1 by (by eapply beach_inv_ext).
  rewrite (bind_Ok (Voronoi.gets Voronoi.ParabolaTree) _ v1 _ v1 eq_refl).
  change (Voronoi.ParabolaTree v1) with (Voronoi.ParabolaTree v).
  rewrite Hroot.
  destruct (findNodeAbove_reads fuel (Some i) v v1
              eq_refl eq_refl eq_refl eq_refl) as (r & Hr & Hr1).
  rewrite Hfind in Hr. injection Hr as <-.
  rewrite (bind_Ok _ _ _ _ _ Hr1).
  destruct (safe_removeCircleEvent ss t fuel ltac:(lia) p Hp v1 Hinv1)
    as ([] & v2 & Hrem & Hinv2 & _).
  rewrite (bind_Ok _ _ _ _ _ Hrem).
  destruct (beach_inv_arc _ _ _ _ Hinv2 Hp) as (a & ia & sa & Ha & Hia & Hsa).
  rewrite (bind_Ok _ _ _ _ _ (load_Some _ _ _ Ha)). rewrite Hia.
  pose proof Hinv2 as [_ Hss2].
  rewrite (bind_Ok _ _ _ _ _ (load_site_Some v2 ia sa ltac:(congruence))).
  rewrite (bind_Ok _ _ _ _ _ (load_site_Some v2 i s ltac:(congruence))).
  rewrite (bind_Ok (Voronoi.gets Voronoi.SweepLine) _ v2 _ v2 eq_refl).
  destruct (DCEL_NewVertex_eq v2 (Site.X s)
              (GetYByX sa (Site.X s) (Voronoi.SweepLine v2)))
    as (vx & d3 & Hvx).
  cbv zeta. rewrite (bind_Ok _ _ _ _ _ Hvx).
  set (v3 := Voronoi.set_DCEL d3 v2).
  assert (beach_inv ss t v3) as Hinv3 by (by eapply beach_inv_ext).
  rewrite (bind_Ok _ _ _ _ _ (split_arc_spec v3 p a (Some i) Ha)).
  set (n := length (Voronoi.Nodes v3)).
  pose proof (beach_inv_split ss t v3 p a i s Hinv3 Hp Ha Hs) as Hinv4.
  fold n in Hinv4.
  set (t' := graft p (split_tree p n) t) in *.
  assert (height t' < fuel)%nat as Hfuel'.
  { pose proof (height_graft p (split_tree p n) t). simpl in *. unfold t'. lia. }
  destruct (split_tree_counts p n t Hnd Hp) as [Hleaves Hint].
  fold t' in Hleaves, Hint.
  destruct (leaves_graft p (split_tree p n) t Hnd Hp) as (l1 & l2 & _ & E).
  fold t' in E. simpl in E.
  edestruct (safe_link_new_arc ss t' fuel vx (n + 3) (n + 2) (n + 0) Hfuel')
    as ([] & v5 & Hlink & [Hwf5 _] & _); [..|exact Hinv4|];
    try (rewrite E; rewrite !elem_of_app, !elem_of_cons; tauto).
  rewrite Hlink. exists v5, p, n. split; [done|].
  split; [by rewrite Hfind|]. split; [done|].
  split; [exact Hwf5|]. split; [exact Hleaves | exact Hint].
Qed.

End SiteEvent.

Lemma site_event_adds_two_arcs_witness :
  exists v' p n,
    Voronoi.handleSiteEvent (G := Reference.parabolas) 20 3
      Examples.before_fourth_site = (Ok tt, v')
    /\ (Voronoi.findNodeAbove (G := Reference.parabolas) 20 (Some 3%nat)
          Examples.before_fourth_site).1 = Ok (Some p)
    /\ p ∈ leaves Examples.tree_before_fourth_site
    /\ wf_beach v' (graft p (split_tree p n) Examples.tree_before_fourth_site)
    /\ length (leaves (graft p (split_tree p n)
                         Examples.tree_before_fourth_site))
       = (length (leaves Examples.tree_before_fourth_site) + 2)%nat
    /\ length (internals (graft p (split_tree p n)
                            Examples.tree_before_fourth_site))
       = (length (internals Examples.tree_before_fourth_site) + 2)%nat.
Proof.
  eapply (site_event_adds_two_arcs (G := Reference.parabolas) 20
            Examples.before_fourth_site Examples.tree_before_fourth_site
            3 _ 3 _).
  - split; [|split; [reflexivity|split]].
    + simpl. repeat (eexists; repeat (split; try reflexivity)).
    + apply NoDup_ListNoDup. simpl. repeat constructor; simpl; lia.
    + intros x Hx. simpl in Hx. rewrite !elem_of_cons in Hx.
      destruct Hx as [->|[->|[->|[->|[->|Hx]]]]]; [..|inversion Hx];
        eexists _, _, _; repeat split; reflexivity.
  - reflexivity.
  - reflexivity.
  - reflexivity.
  - intros q Hq. simpl in Hq. rewrite !elem_of_cons in Hq.
    destruct Hq as [->|[->|[->|[->|Hq]]]]; [..|inversion Hq];
      vm_compute; eexists; reflexivity.
  - simpl. lia.
Defined.

(** C7, counterexample. The run of [Examples.two_sites] handles two site
    events.  After the first the beach line is the single arc 0; the
    second, on this non-empty beach line, leaves a tree of three arcs
    and two breakpoints: two more arcs and two more breakpoints, and
    three arcs after two site events. *)
Lemma second_site_event_leaves_three_arcs :
  tree_of 8 (Voronoi.Nodes Examples.after_first_site) 0 = Some (TLeaf 0)
  /\ Voronoi.ParabolaTree Examples.after_first_site = Some 0%nat
  /\ Examples.step 8 Examples.after_first_site
     = (Ok tt, Examples.after_two_sites)
  /\ Examples.run 8 Examples.two_sites = (Ok tt, Examples.after_two_sites)
  /\ Voronoi.ParabolaTree Examples.after_two_sites = Some 0%nat
  /\ tree_of 8 (Voronoi.Nodes Examples.after_two_sites) 0
     = Some Examples.tree_after_two_sites
  /\ length (leaves Examples.tree_after_two_sites) = 3%nat
  /\ length (internals Examples.tree_after_two_sites) = 2%nat.
Proof. vm_compute. done. Qed.

(** ** Two runs of [Generate] *)

Section TwoStates.
Context {Q : EventQueueImpl} {G : Geometry}.
Implicit Types v : Voronoi.t Q.
Implicit Types W : Site_ptr -> Prop.

Lemma alike_inv W v1 v2 :
  alike W v1 v2 ->
  exists sf, v2 = Voronoi.set_SiteFace sf v1
    /\ (forall i, W i -> Voronoi.SiteFace v1 !! i = sf !! i)
    /\ Forall (site_in W) (Voronoi.Nodes v1).
Proof.
  intros (E & Hf & Hn). exists (Voronoi.SiteFace v2). by rewrite <- E.
Qed.

Lemma alike_intro W v sf :
  (forall i, W i -> Voronoi.SiteFace v !! i = sf !! i) ->
  Forall (site_in W) (Voronoi.Nodes v) ->
  alike W v (Voronoi.set_SiteFace sf v).
Proof. by intros Hf Hn. Qed.

Lemma rel_ret {A} W (post : A -> Prop) a : post a -> rel W post (mret a).
Proof. intros Ha v1 v2 H. split; [done|]. split; [done|]. by intros ? [= <-]. Qed.

Lemma rel_lift {A} W (post : A -> Prop) (r : Res A) :
  (forall a, r = Ok a -> post a) -> rel W post (Voronoi.lift r).
Proof. intros Hr v1 v2 H. split; [done|]. split; [done|]. exact Hr. Qed.

Lemma rel_lift_any {A} W (r : Res A) :
  rel W (fun _ => True) (Voronoi.lift r).
Proof. by apply rel_lift. Qed.

Lemma rel_gets {A} W (f : Voronoi.t Q -> A) :
  (forall sf v, f (Voronoi.set_SiteFace sf v) = f v) ->
  rel W (fun _ => True) (Voronoi.gets f).
Proof.
  intros Hf v1 v2 H. destruct (alike_inv _ _ _ H) as (sf & E & _).
  split; [|by split]. simpl. by rewrite E, Hf.
Qed.

Lemma rel_modify W (g : Voronoi.t Q -> Voronoi.t Q) :
  (forall sf v, g (Voronoi.set_SiteFace sf v) = Voronoi.set_SiteFace sf (g v)) ->
  (forall v, Voronoi.Nodes (g v) = Voronoi.Nodes v) ->
  (forall v, Voronoi.SiteFace (g v) = Voronoi.SiteFace v) ->
  rel W (fun _ => True) (Voronoi.modify g).
Proof.
  intros Hg Hn Hs v1 v2 H. destruct (alike_inv _ _ _ H) as (sf & -> & Hf & HN).
  split; [done|]. split; [|done]. simpl. rewrite Hg.
  apply alike_intro; [by rewrite Hs | by rewrite Hn].
Qed.

Lemma rel_bind {A B} W (post : A -> Prop) (post' : B -> Prop)
    (m : Voronoi.M Q A) (k : A -> Voronoi.M Q B) :
  rel W post m -> (forall a, post a -> rel W post' (k a)) ->
  rel W post' (m ≫= k).
Proof.
  intros Hm Hk v1 v2 H. destruct (Hm v1 v2 H) as (Hr & Hal & Hpost). mred.
  destruct (m v1) as [r1 v1'], (m v2) as [r2 v2']; simpl in *. subst r2.
  destruct r1 as [a| |]; [apply Hk; [by apply Hpost | done]|..];
    (split; [done|]; split; [done|]; by intros ? [=]).
Qed.

Lemma rel_mono {A} W (post post' : A -> Prop) (m : Voronoi.M Q A) :
  rel W post m -> (forall a, post a -> post' a) -> rel W post' m.
Proof.
  intros Hm Hp v1 v2 H. destruct (Hm v1 v2 H) as (? & ? & ?). auto.
Qed.

Lemma rel_for_each {A} W (l : list A) (body : A -> Voronoi.M Q unit) :
  (forall x, rel W (fun _ => True) (body x)) ->
  rel W (fun _ => True) (Voronoi.for_each l body).
Proof.
  intros H. induction l as [|x l IH]; simpl; [by apply rel_ret|].
  eapply rel_bind; [apply H | by intros _ _].
Qed.

Lemma rel_any_of_rel {A} (post : A -> Prop) (m : Voronoi.M Q A) :
  (forall W, rel W post m) -> rel_any m.
Proof.
  intros Hm v1 v2 [W H]. destruct (Hm W v1 v2 H) as (? & ? & _). eauto.
Qed.

Lemma rel_any_bind {A B} (m : Voronoi.M Q A) (k : A -> Voronoi.M Q B) :
  rel_any m -> (forall a, rel_any (k a)) -> rel_any (m ≫= k).
Proof.
  intros Hm Hk v1 v2 H. destruct (Hm v1 v2 H) as (Hr & Hal). mred.
  destruct (m v1) as [r1 v1'], (m v2) as [r2 v2']; simpl in *. subst r2.
  destruct r1 as [a| |]; [by apply Hk|..]; by split.
Qed.

Lemma rel_any_ret {A} (a : A) : rel_any (mret a : Voronoi.M Q A).
Proof. by intros v1 v2 H. Qed.

End TwoStates.

Create HintDb rel discriminated.

Ltac site_tac :=
  unfold site_in in *; simpl; intros; first [ done | eauto ].

Ltac rel_tac :=
  repeat first
    [ apply rel_ret; done
    | apply rel_lift_any
    | apply rel_gets; intros; reflexivity
    | apply rel_modify; intros; reflexivity
    | apply rel_for_each; intros ?
    | solve [eauto with rel]
    | eapply rel_bind; [|intros ? ?]
    | match goal with
      | |- rel _ _ (match ?x with _ => _ end) => destruct x
      end ].

Section TwoStatesOfMethods.
Context {Q : EventQueueImpl} {G : Geometry}.
Implicit Types v : Voronoi.t Q.
Variable W : Site_ptr -> Prop.

Lemma index_or_panic_Ok {A} (l : list A) i a :
  index_or_panic l i = Ok a -> l !! i = Some a.
Proof. unfold index_or_panic. by destruct (l !! i); intros [=]; subst. Qed.

Lemma rel_load p : rel W (site_in W) (Voronoi.load p).
Proof.
  intros v1 v2 H. destruct (alike_inv _ _ _ H) as (sf & -> & Hf & HN).
  split; [done|]. split; [done|]. unfold Voronoi.load. mred. simpl.
  intros a Ha. destruct p as [i|]; [|done].
  apply index_or_panic_Ok in Ha. by eapply Forall_lookup_1.
Qed.
Hint Resolve rel_load : rel.

Lemma rel_update p f :
  (forall nd, site_in W nd -> site_in W (f nd)) ->
  rel W (fun _ => True) (Voronoi.update p f).
Proof.
  intros Hf. unfold Voronoi.update.
  eapply rel_bind; [apply rel_load|]. intros nd Hnd.
  destruct p as [i|]; [|by apply rel_lift].
  intros v1 v2 H. destruct (alike_inv _ _ _ H) as (sf & -> & Hsf & HN).
  split; [done|]. split; [|done].
  apply (alike_intro W
           (Voronoi.set_Nodes (<[i := f nd]> (Voronoi.Nodes v1)) v1) sf Hsf).
  apply Forall_insert; auto.
Qed.

Lemma rel_new_node x :
  site_in W x -> rel W (fun _ => True) (Voronoi.new_node x).
Proof.
  intros Hx v1 v2 H. destruct (alike_inv _ _ _ H) as (sf & -> & Hsf & HN).
  split; [done|]. split; [|done].
  apply (alike_intro W
           (Voronoi.set_Nodes (Voronoi.Nodes v1 ++ [x]) v1) sf Hsf).
  apply Forall_app. split; [done|]. by constructor.
Qed.

Hint Extern 1 (rel _ _ (Voronoi.update _ _)) =>
  apply rel_update; site_tac : rel.
Hint Extern 1 (rel _ _ (Voronoi.new_node _)) =>
  apply rel_new_node; site_tac : rel.

Lemma rel_load_event e : rel W (fun _ => True) (Voronoi.load_event e).
Proof. unfold Voronoi.load_event. rel_tac. Qed.
Hint Resolve rel_load_event : rel.

Lemma rel_new_event ev : rel W (fun _ => True) (Voronoi.new_event ev).
Proof. unfold Voronoi.new_event. rel_tac. Qed.
Hint Resolve rel_new_event : rel.

Lemma rel_load_site p : rel W (fun _ => True) (Voronoi.load_site p).
Proof. unfold Voronoi.load_site. rel_tac. Qed.
Hint Resolve rel_load_site : rel.

(** The only read of a [Face] back-reference. *)
Lemma rel_load_face p :
  (forall i, p = Some i -> W i) ->
  rel W (fun _ => True) (Voronoi.load_face p).
Proof.
  intros Hp. unfold Voronoi.load_face.
  eapply rel_bind; [apply rel_load_site|]. intros _ _.
  destruct p as [i|].
  - intros v1 v2 H. destruct (alike_inv _ _ _ H) as (sf & -> & Hsf & HN).
    split; [|by split]. mred. simpl. f_equal. by apply Hsf, Hp.
  - rel_tac.
Qed.

Lemma rel_face_of_arc n : rel W (fun _ => True) (Voronoi.face_of_arc n).
Proof.
  unfold Voronoi.face_of_arc. eapply rel_bind; [apply rel_load|].
  intros nd Hnd. by apply rel_load_face.
Qed.
Hint Resolve rel_face_of_arc : rel.

Lemma rel_PrevArc fuel p : rel W (fun _ => True) (Voronoi.PrevArc fuel p).
Proof. unfold Voronoi.PrevArc. rel_tac. Qed.
Hint Resolve rel_PrevArc : rel.

Lemma rel_NextArc fuel p : rel W (fun _ => True) (Voronoi.NextArc fuel p).
Proof. unfold Voronoi.NextArc. rel_tac. Qed.
Hint Resolve rel_NextArc : rel.

Lemma rel_addCircleEvent a b c :
  rel W (fun _ => True) (Voronoi.addCircleEvent a b c).
Proof. unfold Voronoi.addCircleEvent. rel_tac. Qed.
Hint Resolve rel_addCircleEvent : rel.

Lemma rel_still_queued e : rel W (fun _ => True) (Voronoi.still_queued e).
Proof. unfold Voronoi.still_queued. rel_tac. Qed.
Hint Resolve rel_still_queued : rel.

Lemma rel_queue_Remove e : rel W (fun _ => True) (Voronoi.queue_Remove e).
Proof. unfold Voronoi.queue_Remove. rel_tac. Qed.
Hint Resolve rel_queue_Remove : rel.

Lemma rel_removeCircleEvent fuel p :
  rel W (fun _ => True) (Voronoi.removeCircleEvent fuel p).
Proof. unfold Voronoi.removeCircleEvent. rel_tac. Qed.
Hint Resolve rel_removeCircleEvent : rel.

Lemma Node_RemoveEvent_Site e nd nd' :
  Node.RemoveEvent e nd = Ok nd' -> Node.Site nd' = Node.Site nd.
Proof.
  unfold Node.RemoveEvent.
  destruct (CircleEvents.RemoveEvent e (Node.LeftEvents nd)); [|done..].
  destruct (CircleEvents.RemoveEvent e (Node.MiddleEvents nd)); [|done..].
  destruct (CircleEvents.RemoveEvent e (Node.RightEvents nd)); [|done..].
  by intros [= <-].
Qed.

Lemma rel_Node_RemoveEvent e n :
  rel W (fun _ => True) (Voronoi.Node_RemoveEvent e n).
Proof.
  unfold Voronoi.Node_RemoveEvent.
  eapply rel_bind; [apply rel_load|]. intros nd Hnd.
  apply (rel_bind _ (site_in W)).
  - apply rel_lift. intros nd' E i. rewrite (Node_RemoveEvent_Site _ _ _ E).
    apply Hnd.
  - intros nd' Hnd'. by apply rel_update.
Qed.
Hint Resolve rel_Node_RemoveEvent : rel.

Lemma rel_removeAllCircleEvents fuel p :
  rel W (fun _ => True) (Voronoi.removeAllCircleEvents fuel p).
Proof. unfold Voronoi.removeAllCircleEvents. rel_tac. Qed.
Hint Resolve rel_removeAllCircleEvents : rel.

Lemma rel_removeArc p : rel W (fun _ => True) (Voronoi.removeArc p).
Proof. unfold Voronoi.removeArc. rel_tac. Qed.
Hint Resolve rel_removeArc : rel.

Lemma rel_findNodeAbove_loop fuel site node :
  rel W (fun _ => True) (Voronoi.findNodeAbove_loop fuel site node).
Proof.
  revert node. induction fuel as [|n IH]; intros node; simpl; rel_tac.
Qed.
Hint Resolve rel_findNodeAbove_loop : rel.

Lemma rel_findNodeAbove fuel site :
  rel W (fun _ => True) (Voronoi.findNodeAbove fuel site).
Proof. unfold Voronoi.findNodeAbove. rel_tac. Qed.
Hint Resolve rel_findNodeAbove : rel.

Lemma rel_DCEL_NewFace : rel W (fun _ => True) Voronoi.DCEL_NewFace.
Proof. unfold Voronoi.DCEL_NewFace. rel_tac. Qed.
Hint Resolve rel_DCEL_NewFace : rel.

Lemma rel_DCEL_NewVertex x y :
  rel W (fun _ => True) (Voronoi.DCEL_NewVertex x y).
Proof. unfold Voronoi.DCEL_NewVertex. rel_tac. Qed.
Hint Resolve rel_DCEL_NewVertex : rel.

Lemma rel_DCEL_NewEdge f1 f2 x :
  rel W (fun _ => True) (Voronoi.DCEL_NewEdge f1 f2 x).
Proof. unfold Voronoi.DCEL_NewEdge. rel_tac. Qed.
Hint Resolve rel_DCEL_NewEdge : rel.

Lemma rel_do_CloseTwins es x :
  rel W (fun _ => True) (Voronoi.do_CloseTwins es x).
Proof. unfold Voronoi.do_CloseTwins. rel_tac. Qed.
Hint Resolve rel_do_CloseTwins : rel.

Lemma rel_split_arc p site :
  (forall i, site = Some i -> W i) ->
  rel W (fun _ => True) (Voronoi.split_arc p site).
Proof. intros Hsite. unfold Voronoi.split_arc. rel_tac. Qed.

Lemma rel_link_new_arc fuel x l n r :
  rel W (fun _ => True) (Voronoi.link_new_arc fuel x l n r).
Proof. unfold Voronoi.link_new_arc. rel_tac. Qed.
Hint Resolve rel_link_new_arc : rel.

Lemma rel_handleCircleEvent fuel e :
  rel W (fun _ => True) (Voronoi.handleCircleEvent fuel e).
Proof. unfold Voronoi.handleCircleEvent. rel_tac. Qed.

End TwoStatesOfMethods.

#[global] Hint Resolve rel_load rel_load_event rel_new_event rel_load_site
  rel_face_of_arc rel_PrevArc rel_NextArc rel_addCircleEvent
  rel_removeCircleEvent rel_findNodeAbove rel_DCEL_NewVertex
  rel_link_new_arc : rel.
#[global] Hint Extern 1 (rel _ _ (Voronoi.update _ _)) =>
  apply rel_update; site_tac : rel.
#[global] Hint Extern 1 (rel _ _ (Voronoi.new_node _)) =>
  apply rel_new_node; site_tac : rel.
#[global] Hint Extern 1 (rel _ _ (Voronoi.split_arc _ _)) =>
  apply rel_split_arc; site_tac : rel.

Section TwoRuns.
Context {Q : EventQueueImpl} {G : Geometry}.
Implicit Types v : Voronoi.t Q.

Lemma rel_apply {A} W (post : A -> Prop) (m : Voronoi.M Q A) v1 v2 :
  rel W post m -> alike W v1 v2 ->
  (m v1).1 = (m v2).1 /\ exists W', alike W' (m v1).2 (m v2).2.
Proof. intros Hm H. destruct (Hm v1 v2 H) as (? & ? & _). eauto. Qed.

Lemma rel_any_bind_via {A B} (m : Voronoi.M Q A) (k : A -> Voronoi.M Q B)
    v1 v2 W' :
  (m v1).1 = (m v2).1 ->
  (exists W, alike W (m v1).2 (m v2).2) ->
  (forall a, (m v1).1 = Ok a ->
     alike W' (m v1).2 (m v2).2 /\ rel W' (fun _ => True) (k a)) ->
  ((m ≫= k) v1).1 = ((m ≫= k) v2).1
  /\ exists W, alike W ((m ≫= k) v1).2 ((m ≫= k) v2).2.
Proof.
  intros Hr Hal Hk. mred.
  destruct (m v1) as [r1 v1'], (m v2) as [r2 v2']; simpl in *. subst r2.
  destruct r1 as [a| |]; [|done..].
  destruct (Hk a eq_refl) as [H Hrel]. by eapply rel_apply.
Qed.

(** The face of a site event: afterwards the two states agree on the
    [Face] back-reference of its site as well. *)
Lemma new_site_face_alike W site v1 v2 :
  alike W v1 v2 ->
  (Voronoi.new_site_face site v1).1 = (Voronoi.new_site_face site v2).1
  /\ alike W (Voronoi.new_site_face site v1).2 (Voronoi.new_site_face site v2).2
  /\ ((Voronoi.new_site_face site v1).1 = Ok tt ->
      alike (fun j => W j \/ site = Some j)
        (Voronoi.new_site_face site v1).2 (Voronoi.new_site_face site v2).2).
Proof.
  intros H. destruct (alike_inv _ _ _ H) as (sf & -> & Hsf & HN).
  unfold Voronoi.new_site_face, Voronoi.DCEL_NewFace, Voronoi.load_site.
  mred. simpl. destruct site as [i|]; [|done].
  destruct (index_or_panic (Voronoi.Sites v1) i) as [s| |]; [|done..].
  simpl. split; [done|]. split; [|intros _]; (split; [done|split]); simpl.
  - intros j Hj. destruct (decide (j = i)) as [->|Hne].
    + by rewrite !lookup_insert_eq.
    + rewrite !lookup_insert_ne by done. by apply Hsf.
  - done.
  - intros j [Hj|[= ->]].
    + destruct (decide (j = i)) as [->|Hne].
      * by rewrite !lookup_insert_eq.
      * rewrite !lookup_insert_ne by done. by apply Hsf.
    + by rewrite !lookup_insert_eq.
  - eapply Forall_impl; [exact HN|]. intros nd Hnd j Hj. left. by apply Hnd.
Qed.

Lemma rel_any_handleSiteEvent fuel e :
  rel_any (Voronoi.handleSiteEvent fuel e).
Proof.
  unfold Voronoi.handleSiteEvent. apply rel_any_bind.
  { apply (rel_any_of_rel (fun _ => True)). intros W. apply rel_load_event. }
  intros ev v1 v2 [W H].
  destruct (new_site_face_alike W (Event.Site ev) v1 v2 H) as (Hr & Hal & Hok).
  set (W' := fun j => W j \/ Event.Site ev = Some j) in *.
  assert (forall i, Event.Site ev = Some i -> W' i) as Hs by (intros; by right).
  clearbody W'.
  apply (rel_any_bind_via _ _ _ _ W'); [done|by eexists|].
  intros [] Ha. split; [by apply Hok|]. rel_tac.
Qed.

Lemma rel_any_handleCircleEvent fuel e :
  rel_any (Voronoi.handleCircleEvent fuel e).
Proof.
  apply (rel_any_of_rel (fun _ => True)). intros W.
  apply rel_handleCircleEvent.
Qed.

Ltac rel_any_tac :=
  apply (rel_any_of_rel (fun _ => True)); intros ?; rel_tac.

Lemma rel_any_HandleNextEvent fuel : rel_any (Voronoi.HandleNextEvent fuel).
Proof.
  unfold Voronoi.HandleNextEvent.
  apply rel_any_bind; [rel_any_tac|]. intros q.
  destruct (Len q <=? 0); [apply rel_any_ret|].
  destruct (heap_Pop q) as [[event q']|]; [|rel_any_tac].
  apply rel_any_bind; [rel_any_tac|]. intros _.
  apply rel_any_bind; [rel_any_tac|]. intros ev.
  apply rel_any_bind; [rel_any_tac|]. intros sweep.
  destruct (Event.Y ev <? sweep); [apply rel_any_ret|].
  apply rel_any_bind; [rel_any_tac|]. intros _.
  destruct (decide (Event.EventType ev = EventSite));
    [apply rel_any_handleSiteEvent | apply rel_any_handleCircleEvent].
Qed.

Lemma rel_any_Generate_loop fuel n : rel_any (Voronoi.Generate_loop fuel n).
Proof.
  induction n as [|n IH]; simpl; [rel_any_tac|].
  apply rel_any_bind; [rel_any_tac|]. intros q.
  destruct (0 <? Len q); [|apply rel_any_ret].
  apply rel_any_bind; [apply rel_any_HandleNextEvent | by intros _].
Qed.

(** Two instances with the same sites and bounds: [Generate] has the
    same result on both and leaves the same state up to the [Face]
    back-references of the sites. *)
Lemma Generate_alike fuel v1 v2 :
  Voronoi.Sites v1 = Voronoi.Sites v2 ->
  Voronoi.Bounds v1 = Voronoi.Bounds v2 ->
  (Voronoi.Generate fuel v1).1 = (Voronoi.Generate fuel v2).1
  /\ exists W, alike W (Voronoi.Generate fuel v1).2 (Voronoi.Generate fuel v2).2.
Proof.
  intros Hs Hb. unfold Voronoi.Generate.
  rewrite !(bind_Ok (Voronoi.modify Voronoi.Reset) _ _ tt _ eq_refl).
  apply rel_any_Generate_loop. exists (fun _ => False).
  split; [|split; [done|constructor]].
  unfold Voronoi.Reset. simpl. by rewrite Hs, Hb.
Qed.

Lemma alike_DCEL W v1 v2 : alike W v1 v2 -> Voronoi.DCEL v1 = Voronoi.DCEL v2.
Proof. intros H. by destruct (alike_inv _ _ _ H) as (sf & -> & _). Qed.

End TwoRuns.

Section SitesAndBounds.
Context {Q : EventQueueImpl} {G : Geometry}.
Context {B : Type} (f : Voronoi.t Q -> B).
Context `{!Stable f, !StableDCEL f, !StableFace f}.
Hypothesis stable_SweepLine : forall x v, f (Voronoi.set_SweepLine x v) = f v.

Lemma keeps_HandleNextEvent fuel : keeps f (Voronoi.HandleNextEvent fuel).
Proof.
  unfold Voronoi.HandleNextEvent.
  pose proof (keeps_handleSiteEvent f fuel).
  pose proof (keeps_handleCircleEvent f fuel).
  pose proof (keeps_load_event f).
  apply keeps_bind; [apply keeps_gets|]. intros q.
  destruct (Len q <=? 0); [apply keeps_ret|].
  destruct (heap_Pop q) as [[event q']|]; [|apply keeps_lift].
  apply keeps_bind; [apply keeps_modify; keeps_write|]. intros _.
  apply keeps_bind; [done|]. intros ev.
  apply keeps_bind; [apply keeps_gets|]. intros sweep.
  destruct (Event.Y ev <? sweep); [apply keeps_ret|].
  apply keeps_bind; [by apply keeps_modify|]. intros _.
  by destruct (decide (Event.EventType ev = EventSite)).
Qed.

Lemma keeps_Generate_loop fuel n : keeps f (Voronoi.Generate_loop fuel n).
Proof.
  induction n as [|n IH]; simpl; [apply keeps_lift|].
  apply keeps_bind; [apply keeps_gets|]. intros q.
  destruct (0 <? Len q); [|apply keeps_ret].
  apply keeps_bind; [apply keeps_HandleNextEvent | by intros _].
Qed.

End SitesAndBounds.

#[global] Instance Sites_Stable {Q : EventQueueImpl} : Stable (@Voronoi.Sites Q).
Proof. by split. Qed.
#[global] Instance Sites_StableDCEL {Q : EventQueueImpl} :
  StableDCEL (@Voronoi.Sites Q).
Proof. done. Qed.
#[global] Instance Sites_StableFace {Q : EventQueueImpl} :
  StableFace (@Voronoi.Sites Q).
Proof. done. Qed.
#[global] Instance Bounds_Stable {Q : EventQueueImpl} :
  Stable (@Voronoi.Bounds Q).
Proof. by split. Qed.
#[global] Instance Bounds_StableDCEL {Q : EventQueueImpl} :
  StableDCEL (@Voronoi.Bounds Q).
Proof. done. Qed.
#[global] Instance Bounds_StableFace {Q : EventQueueImpl} :
  StableFace (@Voronoi.Bounds Q).
Proof. done. Qed.

Section SameInstance.
Context {Q : EventQueueImpl} {G : Geometry}.
Implicit Types v : Voronoi.t Q.

Lemma Generate_Sites fuel v :
  Voronoi.Sites (Voronoi.Generate fuel v).2 = Voronoi.Sites v.
Proof.
  unfold Voronoi.Generate.
  rewrite (bind_Ok (Voronoi.modify Voronoi.Reset) _ _ tt _ eq_refl).
  by rewrite (keeps_Generate_loop Voronoi.Sites).
Qed.

Lemma Generate_Bounds fuel v :
  Voronoi.Bounds (Voronoi.Generate fuel v).2 = Voronoi.Bounds v.
Proof.
  unfold Voronoi.Generate.
  rewrite (bind_Ok (Voronoi.modify Voronoi.Reset) _ _ tt _ eq_refl).
  by rewrite (keeps_Generate_loop Voronoi.Bounds).
Qed.

(** C8. A second call of [Generate] on the same instance has the same
    result as the first (it returns, or panics, as the first did) and
    leaves the same planar graph: the same number of vertices, of edges
    and of faces, and the same numbers of half-edges per face. *)
Theorem Generate_twice_same_graph fuel v :
  (Generate_again fuel v).1 = (Voronoi.Generate fuel v).1
  /\ Voronoi.DCEL (Generate_again fuel v).2
     = Voronoi.DCEL (Voronoi.Generate fuel v).2
  /\ vertex_count (Voronoi.DCEL (Generate_again fuel v).2)
     = vertex_count (Voronoi.DCEL (Voronoi.Generate fuel v).2)
  /\ edge_count (Voronoi.DCEL (Generate_again fuel v).2)
     = edge_count (Voronoi.DCEL (Voronoi.Generate fuel v).2)
  /\ face_count (Voronoi.DCEL (Generate_again fuel v).2)
     = face_count (Voronoi.DCEL (Voronoi.Generate fuel v).2)
  /\ face_edge_counts (Voronoi.DCEL (Generate_again fuel v).2)
     ≡ₚ face_edge_counts (Voronoi.DCEL (Voronoi.Generate fuel v).2).
Proof.
  unfold Generate_again.
  destruct (Generate_alike fuel v (Voronoi.Generate fuel v).2) as (Hr & W & H).
  { by rewrite Generate_Sites. }
  { by rewrite Generate_Bounds. }
  apply alike_DCEL in H. rewrite <- H, <- Hr. by repeat split.
Qed.

End SameInstance.

(** On [Examples.three_sites] both calls return, and the graph has 3
    vertices, 5 edges and 3 faces, with 3, 4 and 3 half-edges. *)
Example Generate_twice_three_sites :
  (Examples.run 20 Examples.three_sites).1 = Ok tt
  /\ (Generate_again (G := Reference.parabolas) 20 Examples.three_sites).1
     = Ok tt
  /\ (let d := Voronoi.DCEL
                 (Generate_again (G := Reference.parabolas) 20
                    Examples.three_sites).2 in
      (vertex_count d, edge_count d, face_count d, face_edge_counts d))
     = (3, 5, 3, [3; 4; 3])%nat.
Proof. vm_compute. done. Qed.

(** * Further properties of the arc tree and the controller *)

(** ** Neighbours in the left-to-right order of the arcs *)

Section InOrder.
Variable ns : list Node.t.

Lemma leaves_leftmost t : exists l, leaves t = leftmost t :: l.
Proof.
  induction t as [p|p l [ll IHl] r _]; simpl; [by exists []|].
  rewrite IHl. by eexists.
Qed.

Lemma leaves_rightmost t : exists l, leaves t = l ++ [rightmost t].
Proof.
  induction t as [p|p l _ r [lr IHr]]; simpl; [by exists []|].
  rewrite IHr. exists (leaves l ++ lr). by rewrite app_assoc.
Qed.

Lemma head_leaves_leftmost t : head (leaves t) = Some (leftmost t).
Proof. destruct (leaves_leftmost t) as (l & ->). done. Qed.

Lemma last_leaves_rightmost t : last (leaves t) = Some (rightmost t).
Proof. destruct (leaves_rightmost t) as (l & ->). apply last_snoc. Qed.

(** Two consecutive arcs are the last arc under the left child and the
    first arc under the right child of one breakpoint. *)
Lemma adjacent_leaves t l1 y x l2 :
  leaves t = l1 ++ y :: x :: l2 ->
  exists p l r, TNode p l r ∈ subtrees t /\ rightmost l = y /\ leftmost r = x.
Proof.
  revert l1 l2. induction t as [p|p l IHl r IHr]; intros l1 l2; simpl.
  - intros E. apply (f_equal length) in E. rewrite length_app in E.
    simpl in E. lia.
  - intros E. apply List.app_eq_app in E as (m & [[E1 E2]|[E1 E2]]).
    + destruct m as [|y' [|x' m]]; simpl in E2.
      * destruct (IHr [] l2) as (q & ql & qr & Hq & ?); [done|].
        exists q, ql, qr. split; [|done]. right. apply elem_of_app. by right.
      * injection E2 as -> E2. exists p, l, r. split; [left|].
        destruct (leaves_rightmost l) as (ll & El).
        destruct (leaves_leftmost r) as (lr & Er).
        rewrite El in E1. rewrite Er in E2.
        apply app_inj_tail in E1 as [_ ->]. by injection E2 as ->.
      * injection E2 as -> -> E2.
        destruct (IHl l1 m) as (q & ql & qr & Hq & ?); [done|].
        exists q, ql, qr. split; [|done]. right. apply elem_of_app. by left.
    + destruct (IHr m l2) as (q & ql & qr & Hq & ?); [done|].
      exists q, ql, qr. split; [|done]. right. apply elem_of_app. by right.
Qed.

(** Two subtrees at the same address have the same first and the same
    last arc. *)
Lemma same_root_leftmost p1 p2 l r :
  is_tree ns p1 l -> is_tree ns p2 r -> root_of l = root_of r ->
  leftmost l = leftmost r.
Proof.
  revert p1 p2 r. induction l as [a|a ll IHl lr _]; intros p1 p2 r Hl Hr E;
    destruct r as [b|b rl rr]; simpl in *; subst b.
  - done.
  - destruct Hl as (n1 & H1 & _ & L1 & _), Hr as (n2 & H2 & _ & L2 & _).
    congruence.
  - destruct Hl as (n1 & H1 & _ & L1 & _), Hr as (n2 & H2 & _ & L2 & _).
    congruence.
  - destruct Hl as (n1 & H1 & _ & L1 & _ & Hll & _),
      Hr as (n2 & H2 & _ & L2 & _ & Hrl & _).
    apply (IHl _ _ _ Hll Hrl). congruence.
Qed.

Lemma same_root_rightmost p1 p2 l r :
  is_tree ns p1 l -> is_tree ns p2 r -> root_of l = root_of r ->
  rightmost l = rightmost r.
Proof.
  revert p1 p2 r. induction l as [a|a ll _ lr IHr]; intros p1 p2 r Hl Hr E;
    destruct r as [b|b rl rr]; simpl in *; subst b.
  - done.
  - destruct Hl as (n1 & H1 & _ & L1 & _), Hr as (n2 & H2 & _ & L2 & _).
    congruence.
  - destruct Hl as (n1 & H1 & _ & L1 & _), Hr as (n2 & H2 & _ & L2 & _).
    congruence.
  - destruct Hl as (n1 & H1 & _ & _ & R1 & _ & Hlr),
      Hr as (n2 & H2 & _ & _ & R2 & _ & Hrr).
    apply (IHr _ _ _ Hlr Hrr). congruence.
Qed.

(** The two children of a breakpoint of a tree without repeated arcs
    are at different addresses. *)
Lemma children_differ par p l r :
  is_tree ns par (TNode p l r) -> NoDup (leaves (TNode p l r)) ->
  root_of l <> root_of r.
Proof.
  intros (nd & _ & _ & _ & _ & Hl & Hr) Hnd E. simpl in Hnd.
  apply NoDup_app in Hnd as (_ & Hlr & _).
  apply (Hlr (leftmost l)); [apply leftmost_leaf|].
  rewrite (same_root_leftmost _ _ _ _ Hl Hr E). apply leftmost_leaf.
Qed.

Lemma subtrees_NoDup t u : u ∈ subtrees t -> NoDup (leaves t) -> NoDup (leaves u).
Proof.
  induction t as [p|p l IHl r IHr]; intros Hu Hnd.
  - apply subtrees_inv in Hu as [->|[]]. done.
  - apply subtrees_inv in Hu as [->|[Hu|Hu]]; [done|..]; simpl in Hnd;
      apply NoDup_app in Hnd as (? & _ & ?); auto.
Qed.

End InOrder.

Section InOrderNeighbours.
Variable ns : list Node.t.

Lemma neighbours_in_order t fuel l1 y x l2 :
  is_tree ns None t -> NoDup (leaves t) ->
  leaves t = l1 ++ y :: x :: l2 ->
  (height t < fuel)%nat ->
  Node.PrevArc fuel ns (Some x) = Ok (Some y)
  /\ Node.NextArc fuel ns (Some y) = Ok (Some x).
Proof.
  intros Ht Hnd E Hf.
  destruct (adjacent_leaves t l1 y x l2 E) as (p & l & r & Hp & Hy & Hx).
  destruct (subtrees_is_tree ns _ _ _ Ht Hp) as (pp & Hpt).
  pose proof (subtrees_NoDup _ _ Hp Hnd) as Hnd'.
  pose proof (children_differ ns _ _ _ _ Hpt Hnd') as Hne.
  pose proof (subtrees_height _ _ Hp) as Hh. simpl in Hh.
  pose proof (ldepth_height r). pose proof (rdepth_height l).
  pose proof Hpt as (pn & Hpn & _ & Hpl & Hpr & Htl & Htr).
  split.
  - destruct (is_tree_leftmost ns _ _ Htr) as (nd & Hndx & Hl & Hr).
    rewrite Hx in Hndx. rewrite (PrevArc_leaf ns _ _ _ Hndx Hl Hr).
    assert (climb_prev ns fuel (Some x) = Ok (Some (Some p))) as ->.
    { replace fuel with (ldepth r + S (fuel - ldepth r - 1))%nat by lia.
      rewrite <- Hx. rewrite (climb_prev_leftmost ns _ _ _ Htr).
      destruct (is_tree_root ns _ _ Htr) as (cn & Hcn & Hcp).
      unfold climb_prev. rewrite (deref_Some _ _ _ Hcn). simpl.
      rewrite Hcp. simpl. rewrite (deref_Some _ _ _ Hpn). simpl.
      rewrite Hpl. rewrite decide_False; [done|]. congruence. }
    simpl. rewrite (deref_Some _ _ _ Hpn). simpl. rewrite Hpl.
    rewrite (IsLeaf_root ns _ _ Htl). rewrite <- Hy.
    destruct l as [lp|lp ll lr]; simpl; [done|].
    apply (LastArc_rightmost ns _ (TNode lp ll lr) fuel Htl). simpl in *. lia.
  - destruct (is_tree_rightmost ns _ _ Htl) as (nd & Hndy & Hl & Hr).
    rewrite Hy in Hndy. rewrite (NextArc_leaf ns _ _ _ Hndy Hl Hr).
    assert (climb_next ns fuel (Some y) = Ok (Some (Some p))) as ->.
    { replace fuel with (rdepth l + S (fuel - rdepth l - 1))%nat by lia.
      rewrite <- Hy. rewrite (climb_next_rightmost ns _ _ _ Htl).
      destruct (is_tree_root ns _ _ Htl) as (cn & Hcn & Hcp).
      unfold climb_next. rewrite (deref_Some _ _ _ Hcn). simpl.
      rewrite Hcp. simpl. rewrite (deref_Some _ _ _ Hpn). simpl.
      rewrite Hpr. rewrite decide_False; [done|]. congruence. }
    simpl. rewrite (deref_Some _ _ _ Hpn). simpl. rewrite Hpr.
    rewrite (IsLeaf_root ns _ _ Htr). rewrite <- Hx.
    destruct r as [rp|rp rl rr]; simpl; [done|].
    apply (FirstArc_leftmost ns _ (TNode rp rl rr) fuel Htr). simpl in *. lia.
Qed.

Lemma neighbours_of_arc t fuel l1 x l2 :
  is_tree ns None t -> NoDup (leaves t) ->
  leaves t = l1 ++ x :: l2 ->
  (height t < fuel)%nat ->
  Node.PrevArc fuel ns (Some x) = Ok (last l1)
  /\ Node.NextArc fuel ns (Some x) = Ok (head l2).
Proof.
  intros Ht Hnd E Hf. split.
  - destruct l1 as [|a l1'] using rev_ind.
    + simpl in *. pose proof (head_leaves_leftmost t) as Hh.
      rewrite E in Hh. injection Hh as ->.
      apply PrevArc_leftmost; [done|lia].
    + rewrite last_snoc. rewrite <- app_assoc in E. simpl in E.
      by apply (neighbours_in_order t fuel l1' a x l2).
  - destruct l2 as [|z l2'].
    + pose proof (last_leaves_rightmost t) as Hl.
      rewrite E, last_snoc in Hl. injection Hl as ->.
      apply NextArc_rightmost; [done|lia].
    + by apply (neighbours_in_order t fuel l1 x z l2').
Qed.

(** X1. In a well-formed tree without repeated arcs, with fuel for its
    height, [PrevArc] of an arc is the arc before it and [NextArc] the
    arc after it in the left-to-right order of the leaves of the tree,
    and nil when there is none. *)
Theorem PrevArc_NextArc_in_order t fuel l1 x l2 :
  is_tree ns None t -> NoDup (leaves t) ->
  leaves t = l1 ++ x :: l2 ->
  (height t < fuel)%nat ->
  Node.PrevArc fuel ns (Some x) = Ok (last l1)
  /\ Node.NextArc fuel ns (Some x) = Ok (head l2).
Proof. apply neighbours_of_arc. Qed.

End InOrderNeighbours.

Lemma after_two_sites_is_tree :
  is_tree (Voronoi.Nodes Examples.after_two_sites) None
    Examples.tree_after_two_sites.
Proof. simpl. repeat (eexists; repeat split). Defined.

Lemma PrevArc_NextArc_in_order_witness :
  Node.PrevArc 3 (Voronoi.Nodes Examples.after_two_sites) (Some 3%nat)
  = Ok (Some 4%nat)
  /\ Node.NextArc 3 (Voronoi.Nodes Examples.after_two_sites) (Some 3%nat)
     = Ok (Some 1%nat).
Proof.
  apply (PrevArc_NextArc_in_order _ Examples.tree_after_two_sites 3
           [4%nat] 3%nat [1%nat] after_two_sites_is_tree).
  - apply NoDup_ListNoDup. simpl. repeat constructor; simpl; lia.
  - reflexivity.
  - simpl. lia.
Defined.

(** ** The ends of a subtree, and the arcs around a breakpoint *)

Section SubtreeEnds.
Variable ns : list Node.t.

(** X2. On the root of a well-formed (sub)tree, with fuel for its
    height, [FirstArc] returns the first and [LastArc] the last of its
    arcs in left-to-right order; on a breakpoint [NextArc] and [PrevArc]
    return the same two arcs. *)
Theorem FirstArc_LastArc_ends par t fuel :
  is_tree ns par t -> (height t < fuel)%nat ->
  Node.FirstArc fuel ns (Some (root_of t)) = Ok (head (leaves t))
  /\ Node.LastArc fuel ns (Some (root_of t)) = Ok (last (leaves t))
  /\ (internals t <> [] ->
      Node.NextArc fuel ns (Some (root_of t)) = Ok (head (leaves t))
      /\ Node.PrevArc fuel ns (Some (root_of t)) = Ok (last (leaves t))).
Proof.
  intros Ht Hf. rewrite head_leaves_leftmost, last_leaves_rightmost.
  pose proof (FirstArc_leftmost ns _ _ _ Ht Hf) as HF.
  pose proof (LastArc_rightmost ns _ _ _ Ht Hf) as HL.
  split; [done|]. split; [done|].
  destruct t as [p|p l r]; [done|]. intros _. cbn [root_of] in *.
  unfold Node.NextArc, Node.PrevArc.
  rewrite (IsLeaf_node ns _ _ _ _ Ht). by simpl.
Qed.

(** X3. Around a breakpoint of a well-formed tree, with fuel for its
    height: [PrevChildArc] returns the last arc [a] under the left child
    (its arcs are [l1 ++ [a]]), [NextChildArc] the first arc [b] under
    the right child (its arcs are [b :: l2]), and the two are
    consecutive in the left-to-right order of the arcs below the
    breakpoint. *)
Theorem ChildArcs_adjacent par p l r fuel :
  is_tree ns par (TNode p l r) ->
  (height (TNode p l r) <= fuel)%nat ->
  exists a b l1 l2,
    leaves l = l1 ++ [a] /\ leaves r = b :: l2
    /\ leaves (TNode p l r) = l1 ++ a :: b :: l2
    /\ Node.PrevChildArc fuel ns (Some p) = Ok (Some a)
    /\ Node.NextChildArc fuel ns (Some p) = Ok (Some b).
Proof.
  intros (nd & Hnd & _ & Hl & Hr & Htl & Htr) Hf. simpl in Hf.
  destruct (leaves_rightmost l) as (l1 & E1).
  destruct (leaves_leftmost r) as (l2 & E2).
  exists (rightmost l), (leftmost r), l1, l2. simpl. rewrite E1, E2.
  split; [done|]. split; [done|].
  split; [by rewrite <- app_assoc|].
  unfold Node.PrevChildArc, Node.NextChildArc.
  rewrite (deref_Some _ _ _ Hnd). simpl. rewrite Hl, Hr. split.
  - apply (PrevChildArc_loop_rightmost _ _ _ _ Htl). lia.
  - apply (NextChildArc_loop_leftmost _ _ _ _ Htr). lia.
Qed.

(** X4. On an arc (a node without children) [PrevChildArc] and
    [NextChildArc] panic: the loop tests [IsLeaf] on the nil child. *)
Theorem ChildArcs_of_leaf_panic p nd fuel :
  ns !! p = Some nd -> Node.Left nd = None -> Node.Right nd = None ->
  (0 < fuel)%nat ->
  Node.PrevChildArc fuel ns (Some p) = Panic
  /\ Node.NextChildArc fuel ns (Some p) = Panic.
Proof.
  intros Hnd Hl Hr Hf. destruct fuel as [|f]; [lia|].
  unfold Node.PrevChildArc, Node.NextChildArc.
  rewrite (deref_Some _ _ _ Hnd). simpl. by rewrite Hl, Hr.
Qed.

End SubtreeEnds.

Lemma FirstArc_LastArc_ends_witness :
  Node.FirstArc 3 (Voronoi.Nodes Examples.after_two_sites) (Some 0%nat)
  = Ok (Some 4%nat)
  /\ Node.LastArc 3 (Voronoi.Nodes Examples.after_two_sites) (Some 0%nat)
     = Ok (Some 1%nat)
  /\ (internals Examples.tree_after_two_sites <> [] ->
      Node.NextArc 3 (Voronoi.Nodes Examples.after_two_sites) (Some 0%nat)
      = Ok (Some 4%nat)
      /\ Node.PrevArc 3 (Voronoi.Nodes Examples.after_two_sites) (Some 0%nat)
         = Ok (Some 1%nat)).
Proof.
  apply (FirstArc_LastArc_ends _ None Examples.tree_after_two_sites 3
           after_two_sites_is_tree).
  simpl. lia.
Defined.

Lemma ChildArcs_adjacent_witness :
  exists a b l1 l2,
    leaves (TNode 2 (TLeaf 4) (TLeaf 3)) = l1 ++ [a]
    /\ leaves (TLeaf 1) = b :: l2
    /\ leaves Examples.tree_after_two_sites = l1 ++ a :: b :: l2
    /\ Node.PrevChildArc 2 (Voronoi.Nodes Examples.after_two_sites)
         (Some 0%nat) = Ok (Some a)
    /\ Node.NextChildArc 2 (Voronoi.Nodes Examples.after_two_sites)
         (Some 0%nat) = Ok (Some b).
Proof.
  apply (ChildArcs_adjacent _ None 0 (TNode 2 (TLeaf 4) (TLeaf 3)) (TLeaf 1) 2
           after_two_sites_is_tree).
  simpl. lia.
Defined.

Lemma ChildArcs_of_leaf_panic_witness :
  Node.PrevChildArc 1 (Voronoi.Nodes Examples.after_two_sites) (Some 1%nat)
  = Panic
  /\ Node.NextChildArc 1 (Voronoi.Nodes Examples.after_two_sites) (Some 1%nat)
     = Panic.
Proof.
  eapply (ChildArcs_of_leaf_panic _ 1); [reflexivity..|lia].
Defined.

(** ** The circle events a node takes part in *)

Lemma RemoveEvent_loop_absent e k (ce : list Event_ptr) :
  (k <= length ce)%nat -> e ∉ ce ->
  CircleEvents.RemoveEvent_loop e k ce = Ok ce.
Proof.
  intros Hk He. induction k as [|i IH]; simpl; [done|].
  destruct (lookup_lt_is_Some_2 ce i ltac:(lia)) as [x Hx].
  rewrite (index_or_panic_Some _ _ _ Hx). simpl.
  rewrite decide_False; [apply IH; lia|].
  intros ->. apply He. by eapply list_elem_of_lookup_2.
Qed.

Lemma RemoveEvent_absent e (ce : list Event_ptr) :
  e ∉ ce -> CircleEvents.RemoveEvent e ce = Ok ce.
Proof. intros He. by apply RemoveEvent_loop_absent. Qed.

Lemma RemoveEvent_appended e (ce : list Event_ptr) :
  e ∉ ce -> CircleEvents.RemoveEvent e (ce ++ [e]) = Ok ce.
Proof.
  intros He. unfold CircleEvents.RemoveEvent.
  rewrite length_app. simpl.
  replace (length ce + 1)%nat with (S (length ce)) by lia. simpl.
  assert ((ce ++ [e]) !! length ce = Some e) as Hl.
  { rewrite lookup_app_r by lia. by rewrite Nat.sub_diag. }
  rewrite (index_or_panic_Some _ _ _ Hl). simpl.
  rewrite decide_True by done.
  replace (length (ce ++ [e]) - 1)%nat with (length ce)
    by (rewrite length_app; simpl; lia).
  rewrite (index_or_panic_Some _ _ _ Hl). simpl.
  rewrite list_insert_id by done. rewrite take_app_length.
  by apply RemoveEvent_loop_absent.
Qed.

Lemma HasEvent_false e (ce : list Event_ptr) :
  CircleEvents.HasEvent e ce = false <-> e ∉ ce.
Proof.
  rewrite <- HasEvent_elem_of. by destruct (CircleEvents.HasEvent e ce).
Qed.

Lemma HasEvent_Permutation e (ce ce' : list Event_ptr) :
  ce ≡ₚ ce' -> CircleEvents.HasEvent e ce = CircleEvents.HasEvent e ce'.
Proof.
  intros Hp. apply eq_true_iff_eq. rewrite !HasEvent_elem_of. by rewrite Hp.
Qed.

Lemma HasEvent_removed e x (ce ce' : list Event_ptr) :
  ce' ≡ₚ filter (fun y => y <> e) ce ->
  CircleEvents.HasEvent x ce'
  = if decide (x = e) then false else CircleEvents.HasEvent x ce.
Proof.
  intros Hp. rewrite (HasEvent_Permutation _ _ _ Hp).
  apply eq_true_iff_eq. rewrite HasEvent_elem_of, list_elem_of_filter.
  destruct (decide (x = e)) as [->|Hne].
  - split; [by intros [? _]|done].
  - rewrite HasEvent_elem_of. tauto.
Qed.


(** X5. [Node.RemoveEvent(e)] returns; afterwards [HasEvent(e)] is false
    on the node, [HasEvent] of every other event is as before, and the
    site, the links and the edge lists of the node are as before. *)
Theorem Node_RemoveEvent_forgets e (n : Node.t) :
  exists n',
    Node.RemoveEvent e n = Ok n'
    /\ Node.HasEvent e n' = false
    /\ (forall x, x <> e -> Node.HasEvent x n' = Node.HasEvent x n)
    /\ Node.Site n' = Node.Site n /\ Node.Parent n' = Node.Parent n
    /\ Node.Left n' = Node.Left n /\ Node.Right n' = Node.Right n
    /\ Node.LeftEdges n' = Node.LeftEdges n
    /\ Node.RightEdges n' = Node.RightEdges n.
Proof.
  unfold Node.RemoveEvent.
  destruct (RemoveEvent_total e (Node.LeftEvents n)) as (l & -> & Hl).
  destruct (RemoveEvent_total e (Node.MiddleEvents n)) as (m & -> & Hm).
  destruct (RemoveEvent_total e (Node.RightEvents n)) as (r & -> & Hr).
  simpl. eexists. split; [done|]. unfold Node.HasEvent. simpl.
  split; [|split; [|done]].
  - rewrite (HasEvent_removed e e _ _ Hl), (HasEvent_removed e e _ _ Hm),
      (HasEvent_removed e e _ _ Hr).
    by destruct (decide (e = e)).
  - intros x Hx.
    rewrite (HasEvent_removed e x _ _ Hl), (HasEvent_removed e x _ _ Hm),
      (HasEvent_removed e x _ _ Hr).
    by destruct (decide (x = e)).
Qed.

(** X6. Registering an event on a node that does not have it, as left,
    middle or right event, makes [HasEvent] true, and [RemoveEvent] then
    gives back the node as it was, the order of its lists included. *)
Theorem Node_AddEvent_RemoveEvent e (n : Node.t) :
  Node.HasEvent e n = false ->
  Node.HasEvent e (Node.AddLeftEvent e n) = true
  /\ Node.HasEvent e (Node.AddMiddleEvent e n) = true
  /\ Node.HasEvent e (Node.AddRightEvent e n) = true
  /\ Node.RemoveEvent e (Node.AddLeftEvent e n) = Ok n
  /\ Node.RemoveEvent e (Node.AddMiddleEvent e n) = Ok n
  /\ Node.RemoveEvent e (Node.AddRightEvent e n) = Ok n.
Proof.
  unfold Node.HasEvent. intros H.
  apply orb_false_elim in H as [H Hr]. apply orb_false_elim in H as [Hl Hm].
  assert (forall ce : list Event_ptr,
            CircleEvents.HasEvent e (ce ++ [e]) = true) as Hadd.
  { intros ce. apply HasEvent_elem_of, elem_of_app. right. left. }
  apply HasEvent_false in Hl, Hm, Hr.
  destruct n as [s le me re pa l r el er].
  unfold Node.AddLeftEvent, Node.AddMiddleEvent, Node.AddRightEvent,
    Node.RemoveEvent.
  simpl in *. rewrite !Hadd, !orb_true_r. simpl.
  rewrite !RemoveEvent_appended, !RemoveEvent_absent by done. done.
Qed.

Lemma Node_AddEvent_RemoveEvent_witness :
  Node.HasEvent 7 (Node.AddLeftEvent 7 Examples.busy_arc) = true
  /\ Node.HasEvent 7 (Node.AddMiddleEvent 7 Examples.busy_arc) = true
  /\ Node.HasEvent 7 (Node.AddRightEvent 7 Examples.busy_arc) = true
  /\ Node.RemoveEvent 7 (Node.AddLeftEvent 7 Examples.busy_arc)
     = Ok Examples.busy_arc
  /\ Node.RemoveEvent 7 (Node.AddMiddleEvent 7 Examples.busy_arc)
     = Ok Examples.busy_arc
  /\ Node.RemoveEvent 7 (Node.AddRightEvent 7 Examples.busy_arc)
     = Ok Examples.busy_arc.
Proof.
  apply (Node_AddEvent_RemoveEvent 7 Examples.busy_arc). reflexivity.
Defined.

(** ** The descent to the arc above a site *)

Section Descent.
Context {Q : EventQueueImpl} {G : Geometry}.
Implicit Types v : Voronoi.t Q.

Lemma IsLeaf_true ns node :
  Node.IsLeaf ns node = Ok true ->
  exists p nd, node = Some p /\ ns !! p = Some nd
    /\ Node.Left nd = None /\ Node.Right nd = None.
Proof.
  unfold Node.IsLeaf, Node.deref. destruct node as [p|]; [|done].
  destruct (index_or_panic ns p) as [nd| |] eqn:E; [|done..].
  apply index_or_panic_Ok in E. simpl. intros [= H].
  apply bool_decide_eq_true in H as [? ?]. by exists p, nd.
Qed.

Lemma findNodeAbove_loop_returns_leaf fuel site node v r v' :
  Voronoi.findNodeAbove_loop fuel site node v = (Ok r, v') ->
  exists p nd, r = Some p /\ Voronoi.Nodes v !! p = Some nd
    /\ Node.Left nd = None /\ Node.Right nd = None.
Proof.
  revert node. induction fuel as [|f IH]; intros node; simpl; [done|].
  unfold Voronoi.load_site, Voronoi.load. mred.
  destruct (Node.IsLeaf (Voronoi.Nodes v) node) as [[|]| |] eqn:E; [|  |done..].
  { intros [= <- _]. by apply IsLeaf_true. }
  destruct (Node.PrevChildArc _ _ _) as [?| |]; try done.
  destruct (Node.NextChildArc _ _ _) as [?| |]; try done.
  destruct (GetXOfInternalNode _ _ _ _) as [x|]; try done.
  destruct site as [i|]; mred; [|done].
  destruct (index_or_panic (Voronoi.Sites v) i) as [s| |]; try done.
  destruct (Node.deref (Voronoi.Nodes v) node) as [nd| |]; try done.
  destruct (Site.X s <? x); apply IH.
Qed.

(** X7. [findNodeAbove] leaves the state as it is, whatever its result.
    It never returns nil: what it returns is a node without children.
    On the empty tree it panics. *)
Theorem findNodeAbove_returns_leaf fuel site v :
  (Voronoi.findNodeAbove fuel site v).2 = v
  /\ (forall r, (Voronoi.findNodeAbove fuel site v).1 = Ok r ->
        exists p nd, r = Some p /\ Voronoi.Nodes v !! p = Some nd
          /\ Node.Left nd = None /\ Node.Right nd = None)
  /\ (Voronoi.ParabolaTree v = None -> (0 < fuel)%nat ->
      (Voronoi.findNodeAbove fuel site v).1 = Panic).
Proof.
  destruct (findNodeAbove_reads fuel site v v eq_refl eq_refl eq_refl eq_refl)
    as (r & Hr & _).
  split; [by rewrite Hr|]. split.
  - intros r' Hr'. rewrite Hr in Hr'. simpl in Hr'. subst r.
    unfold Voronoi.findNodeAbove in Hr.
    rewrite (bind_Ok (Voronoi.gets Voronoi.ParabolaTree) _ v _ v eq_refl) in Hr.
    by eapply findNodeAbove_loop_returns_leaf.
  - intros Hroot Hf. destruct fuel as [|f]; [lia|].
    unfold Voronoi.findNodeAbove.
    rewrite (bind_Ok (Voronoi.gets Voronoi.ParabolaTree) _ v _ v eq_refl).
    rewrite Hroot. done.
Qed.

(** X8. On a well-formed tree, with fuel for its height and an x
    position for each of its breakpoints at the sweep position,
    [findNodeAbove] returns an arc of the tree. *)
Theorem findNodeAbove_finds_arc fuel v t i s :
  is_tree (Voronoi.Nodes v) None t ->
  Voronoi.ParabolaTree v = Some (root_of t) ->
  Voronoi.Sites v !! i = Some s ->
  (forall q, q ∈ internals t ->
     is_Some (GetXOfInternalNode (Voronoi.Nodes v) (Voronoi.Sites v)
                (Some q) (Voronoi.SweepLine v))) ->
  (height t < fuel)%nat ->
  exists p, Voronoi.findNodeAbove fuel (Some i) v = (Ok (Some p), v)
    /\ p ∈ leaves t.
Proof.
  intros Ht Hroot Hs Hx Hf.
  destruct (findNodeAbove_loop_total fuel i s v None t Ht Hs Hx Hf)
    as (p & Hloop & Hp).
  exists p. split; [|done]. unfold Voronoi.findNodeAbove.
  by rewrite (bind_Ok (Voronoi.gets Voronoi.ParabolaTree) _ v _ v eq_refl),
    Hroot.
Qed.

End Descent.

Lemma findNodeAbove_finds_arc_witness :
  exists p,
    Voronoi.findNodeAbove (G := Reference.parabolas) 5 (Some 3%nat)
      Examples.before_fourth_site
    = (Ok (Some p), Examples.before_fourth_site)
    /\ p ∈ leaves Examples.tree_before_fourth_site.
Proof.
  eapply (findNodeAbove_finds_arc (G := Reference.parabolas) 5
            Examples.before_fourth_site Examples.tree_before_fourth_site 3).
  - simpl. repeat (eexists; repeat (split; try reflexivity)).
  - reflexivity.
  - reflexivity.
  - intros q Hq. simpl in Hq. rewrite !elem_of_cons in Hq.
    destruct Hq as [->|[->|[->|[->|Hq]]]]; [..|inversion Hq];
      vm_compute; eexists; reflexivity.
  - simpl. lia.
Defined.

(** ** Whole runs *)

Section WholeRuns.
Context {Q : EventQueueImpl} {G : Geometry}.
Implicit Types v : Voronoi.t Q.

Lemma Generate_loop_drains fuel n v v' :
  Voronoi.Generate_loop fuel n v = (Ok tt, v') ->
  Len (Voronoi.EventQueue v') <= 0.
Proof.
  revert v. induction n as [|n IH]; intros v; simpl; [done|].
  rewrite (bind_Ok (Voronoi.gets Voronoi.EventQueue) _ v _ v eq_refl).
  destruct (0 <? Len (Voronoi.EventQueue v)) eqn:E.
  - mred. destruct (Voronoi.HandleNextEvent fuel v) as [[[]| |] v1]; [|done..].
    apply IH.
  - intros [= <-]. lia.
Qed.

(** X9. When [Generate] returns, the event queue is empty. *)
Theorem Generate_drains_queue fuel v :
  (Voronoi.Generate fuel v).1 = Ok tt ->
  Len (Voronoi.EventQueue (Voronoi.Generate fuel v).2) <= 0.
Proof.
  unfold Voronoi.Generate.
  rewrite (bind_Ok (Voronoi.modify Voronoi.Reset) _ _ tt _ eq_refl).
  destruct (Voronoi.Generate_loop fuel fuel (Voronoi.Reset v))
    as [r v'] eqn:E.
  simpl. intros ->. by eapply Generate_loop_drains.
Qed.


End WholeRuns.

Lemma Generate_drains_queue_witness :
  Len (Voronoi.EventQueue
         (Voronoi.Generate (G := Reference.parabolas) 20
            Examples.three_sites).2) <= 0.
Proof.
  apply (Generate_drains_queue (G := Reference.parabolas) 20
           Examples.three_sites).
  vm_compute. reflexivity.
Defined.

Lemma first_site_event_one_arc_witness :
  exists v',
    Voronoi.handleSiteEvent (G := Reference.parabolas) 1 0
      (Voronoi.Reset Examples.two_sites) = (Ok tt, v')
    /\ Voronoi.Nodes v' = [Node.set_Site (Some 0%nat) Node.zero]
    /\ wf_beach v' (TLeaf 0).
Proof.
  eapply (first_site_event_one_arc (G := Reference.parabolas) 1
            (Voronoi.Reset Examples.two_sites) 0 _ 0);
    reflexivity.
Defined.

(** ** What a site event adds to the graph *)

Section Growth.
Context {Q : EventQueueImpl} {G : Geometry}.
Implicit Types v : Voronoi.t Q.
Variable f : Voronoi.t Q -> nat.
Context `{!Stable f, !StableFace f}.
Variables (df dv de : nat).
Hypothesis f_NewFace :
  forall v, f (Voronoi.set_DCEL (dcel.NewFace (Voronoi.DCEL v)).2 v)
            = (f v + df)%nat.
Hypothesis f_set_Face :
  forall face x v,
    f (Voronoi.set_DCEL (dcel.set_Face face x (Voronoi.DCEL v)) v) = f v.
Hypothesis f_NewVertex :
  forall x y v, f (Voronoi.set_DCEL (dcel.NewVertex x y (Voronoi.DCEL v)).2 v)
                = (f v + dv)%nat.
Hypothesis f_NewEdge :
  forall f1 f2 x v,
    f (Voronoi.set_DCEL (dcel.NewEdge f1 f2 x (Voronoi.DCEL v)).2 v)
    = (f v + de)%nat.

Lemma adds_keeps {A} (m : Voronoi.M Q A) : keeps f m -> adds f 0 m.
Proof. intros Hm v a v' E. specialize (Hm v). rewrite E in Hm. simpl in Hm. lia. Qed.

Lemma adds_ret {A} (a : A) : adds f 0 (mret a).
Proof. intros v a' v' [= _ <-]. lia. Qed.

Lemma adds_bind {A B} k1 k2 (m : Voronoi.M Q A) (k : A -> Voronoi.M Q B) :
  adds f k1 m -> (forall a, adds f k2 (k a)) -> adds f (k1 + k2) (m ≫= k).
Proof.
  intros Hm Hk v b v'. mred. destruct (m v) as [[a| |] v1] eqn:E; [|done..].
  intros E2. rewrite (Hk a v1 b v' E2), (Hm v a v1 E). lia.
Qed.

Lemma adds_eq {A} k k' (m : Voronoi.M Q A) : adds f k m -> k = k' -> adds f k' m.
Proof. by intros H <-. Qed.

Lemma adds_DCEL_NewFace : adds f df Voronoi.DCEL_NewFace.
Proof.
  intros v a v'. unfold Voronoi.DCEL_NewFace. mred.
  pose proof (f_NewFace v) as H.
  destruct (dcel.NewFace (Voronoi.DCEL v)) as [x d]. by intros [= _ <-].
Qed.

Lemma adds_DCEL_NewVertex x y : adds f dv (Voronoi.DCEL_NewVertex x y).
Proof.
  intros v a v'. unfold Voronoi.DCEL_NewVertex. mred.
  pose proof (f_NewVertex x y v) as H.
  destruct (dcel.NewVertex x y (Voronoi.DCEL v)) as [p d]. by intros [= _ <-].
Qed.

Lemma adds_DCEL_NewEdge f1 f2 x : adds f de (Voronoi.DCEL_NewEdge f1 f2 x).
Proof.
  intros v a v'. unfold Voronoi.DCEL_NewEdge. mred.
  pose proof (f_NewEdge f1 f2 (Some x) v) as H.
  destruct (dcel.NewEdge f1 f2 (Some x) (Voronoi.DCEL v)) as [[e1 e2] d].
  by intros [= _ <-].
Qed.

Lemma adds_lift {A} (r : Res A) : adds f 0 (Voronoi.lift r).
Proof. intros v a v' [= _ <-]. lia. Qed.

Lemma adds_modify (g : Voronoi.t Q -> Voronoi.t Q) :
  (forall v, f (g v) = f v) -> adds f 0 (Voronoi.modify g).
Proof.
  intros Hg v a v' E. assert (v' = g v) as -> by (by injection E).
  rewrite Hg. lia.
Qed.

Local Hint Resolve keeps_load keeps_update keeps_new_node keeps_load_event
  keeps_new_event keeps_load_site keeps_load_face keeps_face_of_arc
  keeps_PrevArc keeps_NextArc keeps_addCircleEvent keeps_removeCircleEvent
  keeps_findNodeAbove keeps_split_arc keeps_gets : keeps.

Ltac adds_tac :=
  repeat first
    [ apply adds_ret
    | apply adds_lift
    | apply adds_keeps; solve [eauto with keeps]
    | apply adds_DCEL_NewVertex
    | apply adds_DCEL_NewEdge
    | apply adds_DCEL_NewFace
    | apply adds_modify; intros;
      first [ apply f_set_Face | apply stable_SiteFace | apply stable_Nodes
            | apply stable_ParabolaTree ]
    | eapply adds_bind; [|intros ?]
    | match goal with
      | |- adds _ _ (match ?x with _ => _ end) => destruct x
      end ].

Lemma adds_new_site_face site : adds f df (Voronoi.new_site_face site).
Proof.
  unfold Voronoi.new_site_face. eapply adds_eq; [adds_tac|]. lia.
Qed.

Lemma adds_link_new_arc fuel x l n r :
  adds f (de + de) (Voronoi.link_new_arc fuel x l n r).
Proof.
  unfold Voronoi.link_new_arc. eapply adds_eq; [adds_tac|]. lia.
Qed.

Lemma bind_Ok_inv {A B} (m : Voronoi.M Q A) (k : A -> Voronoi.M Q B) v b v' :
  (m ≫= k) v = (Ok b, v') ->
  exists a v1, m v = (Ok a, v1) /\ k a v1 = (Ok b, v').
Proof. mred. destruct (m v) as [[a| |] v1]; [by eauto|done..]. Qed.

Lemma load_event_inv e v ev v' :
  Voronoi.load_event e v = (Ok ev, v') -> v' = v.
Proof.
  unfold Voronoi.load_event. mred.
  by destruct (index_or_panic (Voronoi.Events v) e); intros [= _ <-].
Qed.

Lemma new_site_face_ParabolaTree site v :
  Voronoi.ParabolaTree (Voronoi.new_site_face site v).2
  = Voronoi.ParabolaTree v.
Proof.
  unfold Voronoi.new_site_face, Voronoi.DCEL_NewFace, Voronoi.load_site.
  mred. simpl. destruct site as [i|]; [|done].
  by destruct (index_or_panic (Voronoi.Sites v) i).
Qed.

Lemma handleSiteEvent_adds fuel event v v' :
  Voronoi.handleSiteEvent fuel event v = (Ok tt, v') ->
  f v' = (f v + df
          + match Voronoi.ParabolaTree v with
            | None => 0
            | Some _ => dv + (de + de)
            end)%nat.
Proof.
  unfold Voronoi.handleSiteEvent. intros H.
  apply bind_Ok_inv in H as (ev & v0 & E0 & H).
  apply load_event_inv in E0 as ->.
  apply bind_Ok_inv in H as ([] & v1 & E1 & H).
  rewrite <- (new_site_face_ParabolaTree (Event.Site ev) v), E1. simpl.
  rewrite <- (adds_new_site_face _ _ _ _ E1).
  apply bind_Ok_inv in H as (root & v1' & [= <- <-] & H).
  destruct (Voronoi.ParabolaTree v1) as [rt|].
  - apply bind_Ok_inv in H as (above & v2 & E2 & H).
    destruct (findNodeAbove_reads fuel (Event.Site ev) v1 v1
                eq_refl eq_refl eq_refl eq_refl) as (r & Hr & _).
    rewrite Hr in E2. injection E2 as -> <-.
    unfold Voronoi.findNodeAbove in Hr.
    rewrite (bind_Ok (Voronoi.gets Voronoi.ParabolaTree) _ v1 _ v1 eq_refl)
      in Hr.
    destruct (findNodeAbove_loop_returns_leaf _ _ _ _ _ _ Hr)
      as (p & _ & -> & _).
    cbv beta iota in H.
    match type of H with
    | ?m _ = _ => assert (adds f (dv + (de + de)) m) as Hadds
    end.
    { eapply adds_eq; [adds_tac|]. lia. }
    by apply Hadds in H.
  - cbv beta iota in H.
    match type of H with
    | ?m _ = _ => assert (adds f 0 m) as Hadds
    end.
    { eapply adds_eq; [adds_tac|]. lia. }
    by apply Hadds in H.
Qed.

End Growth.

Section GraphGrowth.
Context {Q : EventQueueImpl} {G : Geometry}.
Implicit Types v : Voronoi.t Q.

#[local] Instance graph_count_Stable (c : dcel.DCEL -> nat) :
  Stable (fun v : Voronoi.t Q => c (Voronoi.DCEL v)).
Proof. by split. Qed.

#[local] Instance graph_count_StableFace (c : dcel.DCEL -> nat) :
  StableFace (fun v : Voronoi.t Q => c (Voronoi.DCEL v)).
Proof. done. Qed.

(** X12. A site event that returns has added one face to the graph.
    On the empty tree it adds nothing else; on a non-empty tree it adds
    one vertex and two edges (four half-edges). *)
Theorem site_event_graph_growth fuel event v v' :
  Voronoi.handleSiteEvent fuel event v = (Ok tt, v') ->
  face_count (Voronoi.DCEL v') = (face_count (Voronoi.DCEL v) + 1)%nat
  /\ vertex_count (Voronoi.DCEL v')
     = (vertex_count (Voronoi.DCEL v)
        + match Voronoi.ParabolaTree v with Some _ => 1 | None => 0 end)%nat
  /\ half_edge_count (Voronoi.DCEL v')
     = (half_edge_count (Voronoi.DCEL v)
        + match Voronoi.ParabolaTree v with Some _ => 4 | None => 0 end)%nat.
Proof.
  intros H. split; [|split].
  - pose proof (fun h1 h2 h3 h4 =>
                  handleSiteEvent_adds (fun v => face_count (Voronoi.DCEL v))
                    1 0 0 h1 h2 h3 h4 fuel event v v' H) as E.
    simpl in E. rewrite E.
    + destruct (Voronoi.ParabolaTree v); lia.
    + intros u. unfold face_count. simpl. rewrite length_app. simpl. lia.
    + intros face x u. unfold face_count. simpl. by rewrite length_insert.
    + intros x y u. unfold face_count. simpl. lia.
    + intros f1 f2 x u. unfold face_count. simpl. lia.
  - pose proof (fun h1 h2 h3 h4 =>
                  handleSiteEvent_adds (fun v => vertex_count (Voronoi.DCEL v))
                    0 1 0 h1 h2 h3 h4 fuel event v v' H) as E.
    simpl in E. rewrite E.
    + destruct (Voronoi.ParabolaTree v); lia.
    + intros u. unfold vertex_count. simpl. lia.
    + done.
    + intros x y u. unfold vertex_count. simpl. rewrite length_app. simpl. lia.
    + intros f1 f2 x u. unfold vertex_count. simpl. lia.
  - pose proof (fun h1 h2 h3 h4 =>
                  handleSiteEvent_adds
                    (fun v => half_edge_count (Voronoi.DCEL v))
                    0 0 2 h1 h2 h3 h4 fuel event v v' H) as E.
    simpl in E. rewrite E.
    + destruct (Voronoi.ParabolaTree v); lia.
    + intros u. unfold half_edge_count. simpl. lia.
    + done.
    + intros x y u. unfold half_edge_count. simpl. lia.
    + intros f1 f2 x u. unfold half_edge_count. simpl.
      rewrite length_app. simpl. lia.
Qed.

End GraphGrowth.

Lemma site_event_graph_growth_witness :
  let v := Examples.after_first_site in
  let v' := (Voronoi.handleSiteEvent (G := Reference.parabolas) 8 1 v).2 in
  face_count (Voronoi.DCEL v') = (face_count (Voronoi.DCEL v) + 1)%nat
  /\ vertex_count (Voronoi.DCEL v')
     = (vertex_count (Voronoi.DCEL v)
        + match Voronoi.ParabolaTree v with Some _ => 1 | None => 0 end)%nat
  /\ half_edge_count (Voronoi.DCEL v')
     = (half_edge_count (Voronoi.DCEL v)
        + match Voronoi.ParabolaTree v with Some _ => 4 | None => 0 end)%nat.
Proof.
  apply (site_event_graph_growth (G := Reference.parabolas) 8 1
           Examples.after_first_site).
  vm_compute. reflexivity.
Defined.

(** ** Cancelling the circle events of an arc *)

Section Cancelling.
Context {Q : EventQueueImpl} {G : Geometry}.
Implicit Types v : Voronoi.t Q.

Lemma load_inv p v nd v' :
  Voronoi.load p v = (Ok nd, v') ->
  v' = v /\ exists i, p = Some i /\ Voronoi.Nodes v !! i = Some nd.
Proof.
  unfold Voronoi.load. mred. destruct p as [i|]; [|done].
  unfold Node.deref.
  destruct (index_or_panic (Voronoi.Nodes v) i) as [x| |] eqn:E; [|done..].
  intros [= <- <-]. apply index_or_panic_Ok in E. eauto.
Qed.

Lemma update_inv p g v v' :
  Voronoi.update p g v = (Ok tt, v') ->
  exists i nd, p = Some i /\ Voronoi.Nodes v !! i = Some nd
    /\ v' = Voronoi.set_Nodes (<[i := g nd]> (Voronoi.Nodes v)) v.
Proof.
  unfold Voronoi.update. intros H.
  apply bind_Ok_inv in H as (nd & v1 & E & H).
  apply load_inv in E as (-> & i & -> & Hi).
  exists i, nd. by injection H as <-.
Qed.

Lemma update_inv_lookup i g v v' :
  Voronoi.update (Some i) g v = (Ok tt, v') ->
  exists nd, Voronoi.Nodes v !! i = Some nd
    /\ Voronoi.Nodes v' !! i = Some (g nd).
Proof.
  intros H. apply update_inv in H as (j & nd & [= <-] & Hi & ->).
  exists nd. split; [done|]. simpl. apply list_lookup_insert_eq.
  by eapply lookup_lt_Some.
Qed.

Lemma PrevArc_inv fuel n v r v' :
  Voronoi.PrevArc fuel n v = (Ok r, v') -> v' = v.
Proof.
  unfold Voronoi.PrevArc. mred.
  by destruct (Node.PrevArc fuel (Voronoi.Nodes v) n); intros [= _ <-].
Qed.

Lemma NextArc_inv fuel n v r v' :
  Voronoi.NextArc fuel n v = (Ok r, v') -> v' = v.
Proof.
  unfold Voronoi.NextArc. mred.
  by destruct (Node.NextArc fuel (Voronoi.Nodes v) n); intros [= _ <-].
Qed.

(** X13. When [removeAllCircleEvents] returns, the node has no left,
    middle or right event left: [HasEvent] is false on it for every
    event. *)
Theorem removeAllCircleEvents_clears fuel x v v' :
  Voronoi.removeAllCircleEvents fuel (Some x) v = (Ok tt, v') ->
  exists nd,
    Voronoi.Nodes v' !! x = Some nd
    /\ Node.LeftEvents nd = [] /\ Node.MiddleEvents nd = []
    /\ Node.RightEvents nd = []
    /\ forall e, Node.HasEvent e nd = false.
Proof.
  unfold Voronoi.removeAllCircleEvents. intros H.
  apply bind_Ok_inv in H as ([] & v1 & E1 & H).
  apply update_inv_lookup in E1 as (n0 & H0 & H1).
  apply bind_Ok_inv in H as ([] & v2 & E2 & H).
  apply update_inv_lookup in E2 as (n1 & H1' & H2).
  assert (n1 = Node.set_MiddleEvents
                 (Node.MiddleEvents n0 ++ Node.LeftEvents n0) n0) as ->
    by congruence.
  simpl in H2.
  apply bind_Ok_inv in H as (p1 & ? & ->%PrevArc_inv & H).
  apply bind_Ok_inv in H as (q0 & ? & ->%PrevArc_inv & H).
  apply bind_Ok_inv in H as (q1 & ? & ->%PrevArc_inv & H).
  apply bind_Ok_inv in H as (q2 & ? & ->%NextArc_inv & H).
  apply bind_Ok_inv in H as (x1 & ? & ->%NextArc_inv & H).
  apply bind_Ok_inv in H as (q3 & ? & ->%NextArc_inv & H).
  cbv zeta in H.
  apply bind_Ok_inv in H as (nd & ? & E & H).
  apply load_inv in E as (-> & i & [= <-] & Hx).
  rewrite H2 in Hx. injection Hx as <-. simpl in H.
  assert (forall nd' : Node.t,
            Node.LeftEvents nd' = [] -> Node.MiddleEvents nd' = [] ->
            Node.RightEvents nd' = [] ->
            forall e, Node.HasEvent e nd' = false) as Hnone.
  { intros nd' Hl Hm Hr e. unfold Node.HasEvent. by rewrite Hl, Hm, Hr. }
  destruct (0 <? length _)%nat eqn:Hlen.
  - apply bind_Ok_inv in H as ([] & v3 & _ & H).
    apply bind_Ok_inv in H as ([] & v4 & E4 & H).
    apply update_inv_lookup in E4 as (n3 & _ & H4).
    apply bind_Ok_inv in H as ([] & v5 & E5 & H).
    apply update_inv_lookup in E5 as (n4 & H4' & H5).
    apply update_inv_lookup in H as (n5 & H5' & H6).
    eexists. split; [exact H6|].
    assert (n4 = Node.set_LeftEvents [] n3) as -> by congruence.
    assert (n5 = Node.set_MiddleEvents [] (Node.set_LeftEvents [] n3)) as ->
      by congruence.
    split; [done|]. split; [done|]. split; [done|]. by apply Hnone.
  - injection H as <-. apply Nat.ltb_ge in Hlen.
    eexists. split; [exact H2|]. simpl in Hlen.
    assert (Node.MiddleEvents n0 = [] /\ Node.LeftEvents n0 = []
            /\ Node.RightEvents n0 = []) as (Em & El & Er).
    { destruct (Node.MiddleEvents n0), (Node.LeftEvents n0),
        (Node.RightEvents n0); simpl in Hlen; try lia. done. }
    simpl. rewrite Em, El, Er. simpl.
    split; [done|]. split; [done|]. split; [done|].
    apply Hnone; simpl; by rewrite ?Em, ?El, ?Er.
Qed.

Lemma PrevArc_Ok fuel n v r :
  Node.PrevArc fuel (Voronoi.Nodes v) n = Ok r ->
  Voronoi.PrevArc fuel n v = (Ok r, v).
Proof. intros H. unfold Voronoi.PrevArc. mred. by rewrite H. Qed.

Lemma NextArc_Ok fuel n v r :
  Node.NextArc fuel (Voronoi.Nodes v) n = Ok r ->
  Voronoi.NextArc fuel n v = (Ok r, v).
Proof. intros H. unfold Voronoi.NextArc. mred. by rewrite H. Qed.

Lemma for_each_cancel (es : list Event_ptr) v :
  Voronoi.for_each es (fun e =>
    live ← Voronoi.still_queued e;
    if live : bool then Voronoi.queue_Remove e else mret tt) v
  = (Ok tt,
     Voronoi.set_EventQueue (cancel_queued es (Voronoi.EventQueue v)) v).
Proof.
  revert v. induction es as [|e es IH]; intros v; simpl.
  - by destruct v.
  - set (q := Voronoi.EventQueue v).
    rewrite (bind_Ok _ _ v tt
               (if index q e <=? -1 then v
                else Voronoi.set_EventQueue (Remove e q) v)).
    + rewrite IH. by destruct (index q e <=? -1).
    + unfold Voronoi.still_queued, Voronoi.queue_Remove. mred. fold q.
      by destruct (index q e <=? -1).
Qed.

Lemma leaf_lookup ns par t x :
  is_tree ns par t -> x ∈ leaves t -> is_Some (ns !! x).
Proof.
  intros Ht Hx. pose proof (leaves_subtrees _ _ Hx) as Hu.
  destruct (subtrees_is_tree ns _ _ _ Ht Hu) as (px & nd & Hnd & _). eauto.
Qed.

Lemma update_at g p v :
  (forall i, p = Some i -> is_Some (Voronoi.Nodes v !! i)) ->
  match p with
  | Some _ => Voronoi.update p g
  | None => mret tt
  end v
  = (Ok tt, Voronoi.set_Nodes (alter_at g p (Voronoi.Nodes v)) v).
Proof.
  intros Hp. destruct p as [i|]; simpl.
  - destruct (Hp i eq_refl) as [nd Hnd]. by apply update_Some with nd.
  - by destruct v.
Qed.

Lemma is_tree_alter ns par t g i :
  (forall nd, same_links nd (g nd)) ->
  is_tree ns par t -> is_tree (alter g i ns) par t.
Proof. intros Hg. apply is_tree_same_shape. by apply same_shape_alter. Qed.

Lemma is_tree_alter_at ns par t g p :
  (forall nd, same_links nd (g nd)) ->
  is_tree ns par t -> is_tree (alter_at g p ns) par t.
Proof. intros Hg. destruct p; [by apply is_tree_alter|done]. Qed.

(** X14. On an arc [x] of a well-formed tree, [removeCircleEvent]
    returns.  When the arc has no middle event nothing changes.
    Otherwise its middle events that are still queued are removed from
    the queue, and three lists are emptied: the middle events of [x], the
    right events of the arc before [x] and the left events of the arc
    after [x], where there is one; nothing else changes. *)
Theorem removeCircleEvent_cancels fuel v t l1 x l2 nd :
  is_tree (Voronoi.Nodes v) None t -> NoDup (leaves t) ->
  leaves t = l1 ++ x :: l2 ->
  (height t < fuel)%nat ->
  Voronoi.Nodes v !! x = Some nd ->
  Voronoi.removeCircleEvent fuel (Some x) v
  = (Ok tt,
     if decide (Node.MiddleEvents nd = []) then v
     else
       Voronoi.set_Nodes
         (alter_at (Node.set_LeftEvents []) (head l2)
            (alter_at (Node.set_RightEvents []) (last l1)
               (alter (Node.set_MiddleEvents []) x (Voronoi.Nodes v))))
         (Voronoi.set_EventQueue
            (cancel_queued (Node.MiddleEvents nd) (Voronoi.EventQueue v)) v)).
Proof.
  intros Ht Hnd E Hf Hx. unfold Voronoi.removeCircleEvent.
  rewrite (bind_Ok _ _ _ _ _ (load_Some _ _ _ Hx)).
  destruct (decide (Node.MiddleEvents nd = [])) as [->|Hne]; [done|].
  assert ((0 <? length (Node.MiddleEvents nd))%nat = true) as ->.
  { apply Nat.ltb_lt. destruct (Node.MiddleEvents nd); [done|simpl; lia]. }
  rewrite (bind_Ok _ _ _ _ _ (for_each_cancel _ v)).
  set (v1 := Voronoi.set_EventQueue _ v).
  rewrite (bind_Ok _ _ _ _ _ (update_Some v1 x _ nd Hx)).
  set (ns2 := alter (Node.set_MiddleEvents []) x (Voronoi.Nodes v1)).
  assert (is_tree ns2 None t) as Ht2 by (by apply is_tree_alter).
  destruct (neighbours_of_arc ns2 t fuel l1 x l2 Ht2 Hnd E Hf) as [HP HN].
  rewrite (bind_Ok _ _ _ _ _
             (PrevArc_Ok fuel (Some x) (Voronoi.set_Nodes ns2 v1) _ HP)).
  assert (forall i, last l1 = Some i -> is_Some (ns2 !! i)) as Hprev.
  { intros i Hi. apply (leaf_lookup _ _ _ _ Ht2). rewrite E.
    apply last_Some in Hi as (l' & ->). rewrite <- app_assoc.
    apply elem_of_app. right. left. }
  rewrite (bind_Ok _ _ _ _ _
             (update_at (Node.set_RightEvents []) (last l1)
                (Voronoi.set_Nodes ns2 v1) Hprev)).
  set (ns3 := alter_at _ (last l1) _).
  assert (is_tree ns3 None t) as Ht3 by (by apply is_tree_alter_at).
  destruct (neighbours_of_arc ns3 t fuel l1 x l2 Ht3 Hnd E Hf) as [_ HN3].
  rewrite (bind_Ok _ _ _ _ _
             (NextArc_Ok fuel (Some x)
                (Voronoi.set_Nodes ns3 (Voronoi.set_Nodes ns2 v1)) _ HN3)).
  rewrite (update_at (Node.set_LeftEvents []) (head l2)); [done|].
  intros i Hi. apply (leaf_lookup _ _ _ _ Ht3). rewrite E.
  destruct l2 as [|z l2']; [done|]. injection Hi as ->.
  apply elem_of_app. right. right. left.
Qed.

End Cancelling.

Lemma removeAllCircleEvents_clears_witness :
  exists nd,
    Voronoi.Nodes
      (Voronoi.removeAllCircleEvents 20 (Some 7%nat)
         Examples.after_three_sites).2 !! 7%nat = Some nd
    /\ Node.LeftEvents nd = [] /\ Node.MiddleEvents nd = []
    /\ Node.RightEvents nd = []
    /\ forall e, Node.HasEvent e nd = false.
Proof.
  apply (removeAllCircleEvents_clears 20 7 Examples.after_three_sites).
  vm_compute. reflexivity.
Defined.

Lemma before_fourth_site_is_tree :
  is_tree (Voronoi.Nodes Examples.before_fourth_site) None
    Examples.tree_before_fourth_site.
Proof. simpl. repeat (eexists; repeat (split; try reflexivity)). Qed.

Lemma removeCircleEvent_cancels_witness :
  exists nd,
    Voronoi.Nodes Examples.before_fourth_site !! 8%nat = Some nd
    /\ Voronoi.removeCircleEvent 5 (Some 8%nat) Examples.before_fourth_site
       = (Ok tt,
          if decide (Node.MiddleEvents nd = [])
          then Examples.before_fourth_site
          else
            Voronoi.set_Nodes
              (alter_at (Node.set_LeftEvents []) (Some 7%nat)
                 (alter_at (Node.set_RightEvents []) (Some 4%nat)
                    (alter (Node.set_MiddleEvents []) 8%nat
                       (Voronoi.Nodes Examples.before_fourth_site))))
              (Voronoi.set_EventQueue
                 (cancel_queued (Node.MiddleEvents nd)
                    (Voronoi.EventQueue Examples.before_fourth_site))
                 Examples.before_fourth_site)).
Proof.
  eexists. split; [reflexivity|].
  apply (removeCircleEvent_cancels 5 Examples.before_fourth_site
           Examples.tree_before_fourth_site [4%nat] 8%nat
           [7%nat; 5%nat; 1%nat] _ before_fourth_site_is_tree).
  - apply NoDup_ListNoDup. simpl. repeat constructor; simpl; lia.
  - reflexivity.
  - simpl. lia.
  - reflexivity.
Defined.

Section CancellingAtTheEnds.
Context {Q : EventQueueImpl}.
Implicit Types v : Voronoi.t Q.







End CancellingAtTheEnds.


(** ** Removing an arc *)

Section Nodes.
Variable ns : list Node.t.

Lemma nodes_subtrees t c :
  c ∈ nodes t <-> exists u, u ∈ subtrees t /\ root_of u = c.
Proof.
  induction t as [p|p l IHl r IHr]; simpl.
  - rewrite list_elem_of_singleton. split.
    + intros ->. exists (TLeaf p). split; [left|done].
    + intros (u & ->%list_elem_of_singleton & <-). done.
  - rewrite elem_of_cons, elem_of_app, IHl, IHr. split.
    + intros [->|[(u & Hu & <-)|(u & Hu & <-)]].
      * exists (TNode p l r). split; [left|done].
      * exists u. split; [|done]. right. apply elem_of_app. by left.
      * exists u. split; [|done]. right. apply elem_of_app. by right.
    + intros (u & Hu & <-). apply elem_of_cons in Hu as [->|Hu]; [by left|].
      apply elem_of_app in Hu as [Hu|Hu]; right; [left|right]; eauto.
Qed.

Lemma root_in_nodes t : root_of t ∈ nodes t.
Proof. destruct t; simpl; left. Qed.

Lemma leaves_in_nodes t x : x ∈ leaves t -> x ∈ nodes t.
Proof.
  induction t as [p|p l IHl r IHr]; simpl; [done|].
  rewrite !elem_of_app. intros [?|?]; right; apply elem_of_app; auto.
Qed.

Lemma internals_in_nodes t x : x ∈ internals t -> x ∈ nodes t.
Proof.
  induction t as [p|p l IHl r IHr]; simpl; [by inversion 1|].
  rewrite !elem_of_cons, !elem_of_app. intros [?|[?|?]]; auto.
Qed.

(** In a well-formed tree without repeated arcs no node is repeated. *)
Lemma nodes_NoDup par t :
  is_tree ns par t -> NoDup (leaves t) -> NoDup (nodes t).
Proof.
  revert par. induction t as [p|p l IHl r IHr]; intros par Ht Hnd; simpl.
  { apply NoDup_singleton. }
  pose proof Ht as (nd & Hp & _ & Hl & Hr & Htl & Htr).
  simpl in Hnd. pose proof Hnd as (Hnl & Hlr & Hnr)%NoDup_app.
  apply NoDup_cons. split.
  - intros [Hin|Hin]%elem_of_app;
      apply nodes_subtrees in Hin as (u & Hu & Hroot).
    + destruct (subtrees_is_tree ns _ _ _ Htl Hu) as (pu & Htu).
      pose proof (same_root_rightmost ns _ _ u (TNode p l r) Htu Ht Hroot)
        as Hrm. simpl in Hrm.
      apply (Hlr (rightmost u)); [|rewrite Hrm; apply rightmost_leaf].
      eapply subtrees_leaves; [exact Hu|apply rightmost_leaf].
    + destruct (subtrees_is_tree ns _ _ _ Htr Hu) as (pu & Htu).
      pose proof (same_root_leftmost ns _ _ u (TNode p l r) Htu Ht Hroot)
        as Hlm. simpl in Hlm.
      apply (Hlr (leftmost l)); [apply leftmost_leaf|]. rewrite <- Hlm.
      eapply subtrees_leaves; [exact Hu|apply leftmost_leaf].
  - apply NoDup_app. split; [by eapply IHl|]. split; [|by eapply IHr].
    intros c (u1 & Hu1 & <-)%nodes_subtrees (u2 & Hu2 & Hroot)%nodes_subtrees.
    destruct (subtrees_is_tree ns _ _ _ Htl Hu1) as (p1 & Ht1).
    destruct (subtrees_is_tree ns _ _ _ Htr Hu2) as (p2 & Ht2).
    pose proof (same_root_leftmost ns _ _ u2 u1 Ht2 Ht1 Hroot) as Hlm.
    apply (Hlr (leftmost u1)).
    + eapply subtrees_leaves; [exact Hu1|apply leftmost_leaf].
    + rewrite <- Hlm. eapply subtrees_leaves; [exact Hu2|apply leftmost_leaf].
Qed.

(** A tree is unchanged in a store that is unchanged at its nodes. *)
Lemma is_tree_ext ns' par t :
  is_tree ns par t -> (forall q, q ∈ nodes t -> ns' !! q = ns !! q) ->
  is_tree ns' par t.
Proof.
  revert par. induction t as [p|p l IHl r IHr]; intros par Ht Hsame.
  - destruct Ht as (nd & Hnd & ?). exists nd. split; [|done].
    rewrite Hsame; [done|left].
  - destruct Ht as (nd & Hnd & ? & ? & ? & Htl & Htr). exists nd.
    split; [rewrite Hsame; [done|left]|].
    do 3 (split; [done|]). split.
    + apply IHl; [done|]. intros q Hq. apply Hsame. simpl. right.
      apply elem_of_app. by left.
    + apply IHr; [done|]. intros q Hq. apply Hsame. simpl. right.
      apply elem_of_app. by right.
Qed.

(** A subtree hung under another parent. *)
Lemma is_tree_reparent par par' t :
  is_tree ns par t -> NoDup (nodes t) ->
  is_tree (alter (Node.set_Parent par') (root_of t) ns) par' t.
Proof.
  intros Ht Hnd. destruct t as [p|p l r]; simpl in *.
  - destruct Ht as (nd & Hnd' & _ & ? & ?). eexists.
    rewrite list_lookup_alter_eq, Hnd'. simpl. by repeat split.
  - destruct Ht as (nd & Hnd' & _ & ? & ? & Htl & Htr). eexists.
    rewrite list_lookup_alter_eq, Hnd'. simpl. split; [done|].
    do 3 (split; [done|]).
    apply NoDup_cons in Hnd as [Hp _].
    split; (eapply is_tree_ext; [eassumption|]); intros q Hq;
      apply list_lookup_alter_ne; intros ->; apply Hp, elem_of_app; auto.
Qed.

End Nodes.

Section Prune.
Variable x : Node_ptr.

Lemma prune_notin t : x ∉ nodes t -> prune x t = t.
Proof.
  induction t as [p|p l IHl r IHr]; simpl; [done|].
  rewrite not_elem_of_cons, not_elem_of_app. intros (? & Hl & Hr).
  rewrite decide_False by (intros <-; apply Hl, root_in_nodes).
  rewrite decide_False by (intros <-; apply Hr, root_in_nodes).
  by rewrite IHl, IHr.
Qed.

Lemma nodes_prune t c : c ∈ nodes (prune x t) -> c ∈ nodes t.
Proof.
  induction t as [p|p l IHl r IHr]; simpl; [done|].
  repeat case_decide; simpl; rewrite ?elem_of_cons, ?elem_of_app; auto.
  intros [?|[?|?]]; auto.
Qed.

Lemma height_prune t : (height (prune x t) <= height t)%nat.
Proof.
  induction t as [p|p l IHl r IHr]; simpl; [done|].
  repeat case_decide; simpl; lia.
Qed.

(** The arcs after the removal: the other arcs, in their order. *)
Lemma leaves_prune t :
  NoDup (nodes t) -> x ∉ internals t -> root_of t <> x ->
  leaves (prune x t) = filter (fun y => y <> x) (leaves t).
Proof.
  induction t as [p|p l IHl r IHr]; simpl; intros Hnd Hint Hroot.
  { by rewrite filter_cons_True, filter_nil. }
  apply NoDup_cons in Hnd as (Hp & (Hnl & Hlr & Hnr)%NoDup_app).
  rewrite not_elem_of_cons, not_elem_of_app in Hint.
  destruct Hint as (_ & Hil & Hir). rewrite filter_app.
  assert (forall u, root_of u = x -> x ∉ internals u -> u = TLeaf x) as Hleaf.
  { intros [q|q a b]; simpl; intros ->; [done|]. intros H. destruct H. left. }
  assert (forall u, x ∉ nodes u ->
            filter (fun y => y <> x) (leaves u) = leaves u) as Hid.
  { intros u Hu. apply filter_Forall_id, Forall_forall.
    intros y Hy ->. by apply Hu, leaves_in_nodes. }
  case_decide as Hl; [|case_decide as Hr].
  - rewrite (Hleaf l Hl Hil) in *. simpl.
    rewrite filter_cons_False by (intros ?; done). rewrite filter_nil. simpl.
    symmetry. apply Hid. apply (Hlr x). left.
  - rewrite (Hleaf r Hr Hir) in *. simpl.
    rewrite filter_cons_False by (intros ?; done). rewrite filter_nil.
    rewrite app_nil_r. symmetry. apply Hid.
    intros Hx. apply (Hlr x Hx). left.
  - simpl. by rewrite IHl, IHr.
Qed.

Lemma leaves_prune_split t l1 l2 :
  NoDup (nodes t) -> NoDup (leaves t) -> x ∉ internals t -> root_of t <> x ->
  leaves t = l1 ++ x :: l2 ->
  leaves (prune x t) = l1 ++ l2.
Proof.
  intros Hnd Hl Hint Hroot E. rewrite leaves_prune by done. rewrite E in *.
  apply NoDup_app in Hl as (_ & H1 & (H2 & _)%NoDup_cons).
  rewrite filter_app, filter_cons_False by (intros ?; done).
  rewrite !filter_Forall_id; [done| |]; apply Forall_forall.
  - by intros y Hy ->.
  - intros y Hy ->. apply (H1 x Hy). left.
Qed.

Lemma internals_prune t :
  NoDup (nodes t) -> x ∈ leaves t -> x ∉ internals t -> root_of t <> x ->
  S (length (internals (prune x t))) = length (internals t).
Proof.
  induction t as [p|p l IHl r IHr]; simpl; intros Hnd Hx Hint Hroot.
  { apply list_elem_of_singleton in Hx. by subst. }
  apply NoDup_cons in Hnd as (Hp & (Hnl & Hlr & Hnr)%NoDup_app).
  rewrite not_elem_of_cons, not_elem_of_app in Hint.
  destruct Hint as (_ & Hil & Hir). rewrite length_app.
  assert (forall u, root_of u = x -> x ∉ internals u -> u = TLeaf x) as Hleaf.
  { intros [q|q a b]; simpl; intros ->; [done|]. intros H. destruct H. left. }
  case_decide as Hl; [|case_decide as Hr].
  - by rewrite (Hleaf l Hl Hil).
  - rewrite (Hleaf r Hr Hir). simpl. lia.
  - simpl. rewrite length_app. apply elem_of_app in Hx as [Hx|Hx].
    + rewrite (prune_notin r).
      * specialize (IHl Hnl Hx Hil Hl). lia.
      * intros Hr'. apply (Hlr x); [by apply leaves_in_nodes|done].
    + rewrite (prune_notin l).
      * specialize (IHr Hnr Hx Hir Hr). lia.
      * intros Hl'. apply (Hlr x); [done|by apply leaves_in_nodes].
Qed.

End Prune.

Section RemoveArc.
Context {Q : EventQueueImpl}.
Implicit Types v : Voronoi.t Q.

(** The run of [removeArc] below a grandparent. *)
Lemma removeArc_run v x xn p pn o on g gn :
  Voronoi.Nodes v !! x = Some xn -> Node.Parent xn = Some p ->
  Voronoi.Nodes v !! p = Some pn ->
  (if decide (Node.Left pn = Some x) then Node.Right pn else Node.Left pn)
  = Some o ->
  Node.Parent pn = Some g ->
  Voronoi.Nodes v !! g = Some gn ->
  Voronoi.Nodes v !! o = Some on -> g <> o ->
  (Node.Left gn = Some p ->
   Voronoi.removeArc (Some x) v
   = (Ok tt,
      Voronoi.set_Nodes
        (alter (Node.set_Parent (Some g)) o
           (alter (Node.set_Left (Some o)) g (Voronoi.Nodes v))) v))
  /\ (Node.Left gn <> Some p -> Node.Right gn = Some p ->
      Voronoi.removeArc (Some x) v
      = (Ok tt,
         Voronoi.set_Nodes
           (alter (Node.set_Parent (Some g)) o
              (alter (Node.set_Right (Some o)) g (Voronoi.Nodes v))) v)).
Proof.
  intros Hx Hxp Hp Ho Hpg Hg Hon Hne.
  assert (forall (k : Node.t -> Node.t),
            Voronoi.update (Some o) (Node.set_Parent (Some g))
              (Voronoi.set_Nodes (alter k g (Voronoi.Nodes v)) v)
            = (Ok tt,
               Voronoi.set_Nodes
                 (alter (Node.set_Parent (Some g)) o
                    (alter k g (Voronoi.Nodes v))) v)) as Hup.
  { intros k. erewrite update_Some; [done|]. simpl.
    rewrite list_lookup_alter_ne by done. exact Hon. }
  unfold Voronoi.removeArc.
  rewrite (bind_Ok _ _ _ _ _ (load_Some _ _ _ Hx)). cbv zeta. rewrite Hxp.
  rewrite (bind_Ok _ _ _ _ _ (load_Some _ _ _ Hp)). rewrite Hpg, Ho.
  rewrite (bind_Ok _ _ _ _ _ (load_Some _ _ _ Hg)).
  split.
  - intros Hl. rewrite decide_True by done.
    rewrite (bind_Ok _ _ _ _ _ (update_Some v g _ gn Hg)). apply Hup.
  - intros Hl Hr. rewrite decide_False by done. rewrite decide_True by done.
    rewrite (bind_Ok _ _ _ _ _ (update_Some v g _ gn Hg)). apply Hup.
Qed.

(** The run of [removeArc] below the root. *)
Lemma removeArc_run_root v x xn p pn o on :
  Voronoi.Nodes v !! x = Some xn -> Node.Parent xn = Some p ->
  Voronoi.Nodes v !! p = Some pn ->
  (if decide (Node.Left pn = Some x) then Node.Right pn else Node.Left pn)
  = Some o ->
  Node.Parent pn = None ->
  Voronoi.Nodes v !! o = Some on ->
  Voronoi.removeArc (Some x) v
  = (Ok tt,
     Voronoi.set_Nodes (alter (Node.set_Parent None) o (Voronoi.Nodes v))
       (Voronoi.set_ParabolaTree (Some o) v)).
Proof.
  intros Hx Hxp Hp Ho Hpg Hon. unfold Voronoi.removeArc.
  rewrite (bind_Ok _ _ _ _ _ (load_Some _ _ _ Hx)). cbv zeta. rewrite Hxp.
  rewrite (bind_Ok _ _ _ _ _ (load_Some _ _ _ Hp)). rewrite Hpg, Ho.
  rewrite (bind_Ok _ _ v tt (Voronoi.set_ParabolaTree (Some o) v)) by done.
  by erewrite update_Some.
Qed.

(** The breakpoint [p] above [x] hangs on the left of [q]: its other
    child takes its place. *)
Lemma promote_left ns par q p a b r x :
  is_tree ns par (TNode q (TNode p a b) r) ->
  NoDup (nodes (TNode q (TNode p a b) r)) ->
  root_of a = x \/ root_of b = x ->
  let o := root_of (prune x (TNode p a b)) in
  let ns' := alter (Node.set_Parent (Some q)) o
               (alter (Node.set_Left (Some o)) q ns) in
  (forall v, Voronoi.Nodes v = ns ->
     Voronoi.removeArc (Some x) v = (Ok tt, Voronoi.set_Nodes ns' v))
  /\ is_tree ns' par (TNode q (prune x (TNode p a b)) r)
  /\ (forall c, c ∉ nodes (TNode q (TNode p a b) r) -> ns' !! c = ns !! c).
Proof.
  intros (qn & Hq & Hqpar & Hql & Hqr & Htl & Htr) Hnd Hx o ns'.
  pose proof Htl as (pn & Hp & Hppar & Hpl & Hpr & Hta & Htb).
  simpl in Hql.
  change (NoDup (q :: nodes (TNode p a b) ++ nodes r)) in Hnd.
  apply NoDup_cons in Hnd as (Hqn & (Hnl & Hlr & Hnr)%NoDup_app).
  pose proof Hnl as Hnl'. simpl in Hnl'.
  apply NoDup_cons in Hnl' as (Hpn & (Hna & Hab & Hnb)%NoDup_app).
  set (O := prune x (TNode p a b)) in *.
  assert (O = a \/ O = b) as HO.
  { unfold O. simpl. destruct Hx as [Hx|Hx].
    - rewrite decide_True by done. by right.
    - destruct (decide (root_of a = x)); [by right|].
      rewrite decide_True by done. by left. }
  assert (is_tree ns (Some p) O) as HtO by (by destruct HO as [->| ->]).
  assert (forall c, c ∈ nodes O -> c ∈ nodes a ++ nodes b) as HOsub.
  { intros c Hc. apply elem_of_app. destruct HO as [->| ->]; auto. }
  assert (q ∉ nodes O) as HqO.
  { intros Hc. apply Hqn, elem_of_app. left. right. by apply HOsub. }
  assert (q <> o) as Hqo.
  { intros E. apply HqO. rewrite E. apply root_in_nodes. }
  assert (NoDup (nodes O)) as HnO by (by destruct HO as [->| ->]).
  destruct (is_tree_root ns _ _ HtO) as (on & Hon & _). fold o in Hon.
  assert (exists xn, ns !! x = Some xn /\ Node.Parent xn = Some p)
    as (xn & Hxn & Hxp).
  { destruct Hx as [<-|<-]; eapply is_tree_root; eassumption. }
  assert ((if decide (Node.Left pn = Some x) then Node.Right pn
           else Node.Left pn) = Some o) as Hother.
  { unfold o, O. simpl. rewrite Hpl, Hpr.
    destruct (decide (root_of a = x)) as [Ea|Ea].
    - by rewrite decide_True by congruence.
    - rewrite decide_False by congruence. destruct Hx as [?|Hx]; [done|].
      by rewrite decide_True. }
  split; [|split].
  - intros v Hv. subst ns.
    by apply (removeArc_run v x xn p pn o on q qn).
  - simpl. exists (Node.set_Left (Some o) qn). unfold ns'.
    rewrite list_lookup_alter_ne by done.
    rewrite list_lookup_alter_eq, Hq. simpl.
    do 4 (split; [done|]). split.
    + apply (is_tree_reparent _ (Some p)); [|done].
      eapply is_tree_ext; [exact HtO|]. intros c Hc.
      apply list_lookup_alter_ne. intros E. by subst c.
    + eapply is_tree_ext; [exact Htr|]. intros c Hc.
      rewrite !list_lookup_alter_ne; [done| |].
      * intros E. subst c. apply Hqn, elem_of_app. by right.
      * intros E. apply (Hlr c); [|done]. rewrite <- E. simpl. right.
        apply HOsub, root_in_nodes.
  - intros c Hc. unfold ns'.
    change (c ∉ q :: nodes (TNode p a b) ++ nodes r) in Hc.
    rewrite !list_lookup_alter_ne; [done| |].
    + intros E. subst c. apply Hc. left.
    + intros E. apply Hc. right. apply elem_of_app. left. rewrite <- E.
      simpl. right. apply HOsub, root_in_nodes.
Qed.

(** The same on the right of [q]. *)
Lemma promote_right ns par q l p a b x :
  is_tree ns par (TNode q l (TNode p a b)) ->
  NoDup (nodes (TNode q l (TNode p a b))) ->
  root_of a = x \/ root_of b = x ->
  let o := root_of (prune x (TNode p a b)) in
  let ns' := alter (Node.set_Parent (Some q)) o
               (alter (Node.set_Right (Some o)) q ns) in
  (forall v, Voronoi.Nodes v = ns ->
     Voronoi.removeArc (Some x) v = (Ok tt, Voronoi.set_Nodes ns' v))
  /\ is_tree ns' par (TNode q l (prune x (TNode p a b)))
  /\ (forall c, c ∉ nodes (TNode q l (TNode p a b)) -> ns' !! c = ns !! c).
Proof.
  intros (qn & Hq & Hqpar & Hql & Hqr & Htl & Htr) Hnd Hx o ns'.
  pose proof Htr as (pn & Hp & Hppar & Hpl & Hpr & Hta & Htb).
  simpl in Hqr.
  change (NoDup (q :: nodes l ++ nodes (TNode p a b))) in Hnd.
  apply NoDup_cons in Hnd as (Hqn & (Hnl & Hlr & Hnr)%NoDup_app).
  pose proof Hnr as Hnr'. simpl in Hnr'.
  apply NoDup_cons in Hnr' as (Hpn & (Hna & Hab & Hnb)%NoDup_app).
  set (O := prune x (TNode p a b)) in *.
  assert (O = a \/ O = b) as HO.
  { unfold O. simpl. destruct Hx as [Hx|Hx].
    - rewrite decide_True by done. by right.
    - destruct (decide (root_of a = x)); [by right|].
      rewrite decide_True by done. by left. }
  assert (is_tree ns (Some p) O) as HtO by (by destruct HO as [->| ->]).
  assert (forall c, c ∈ nodes O -> c ∈ nodes a ++ nodes b) as HOsub.
  { intros c Hc. apply elem_of_app. destruct HO as [->| ->]; auto. }
  assert (q ∉ nodes O) as HqO.
  { intros Hc. apply Hqn, elem_of_app. right. simpl. right. by apply HOsub. }
  assert (q <> o) as Hqo.
  { intros E. apply HqO. rewrite E. apply root_in_nodes. }
  assert (NoDup (nodes O)) as HnO by (by destruct HO as [->| ->]).
  destruct (is_tree_root ns _ _ HtO) as (on & Hon & _). fold o in Hon.
  assert (exists xn, ns !! x = Some xn /\ Node.Parent xn = Some p)
    as (xn & Hxn & Hxp).
  { destruct Hx as [<-|<-]; eapply is_tree_root; eassumption. }
  assert ((if decide (Node.Left pn = Some x) then Node.Right pn
           else Node.Left pn) = Some o) as Hother.
  { unfold o, O. simpl. rewrite Hpl, Hpr.
    destruct (decide (root_of a = x)) as [Ea|Ea].
    - by rewrite decide_True by congruence.
    - rewrite decide_False by congruence. destruct Hx as [?|Hx]; [done|].
      by rewrite decide_True. }
  assert (Node.Left qn <> Some p) as Hnl'.
  { rewrite Hql. intros [= E]. apply (Hlr p); [|left].
    rewrite <- E. apply root_in_nodes. }
  split; [|split].
  - intros v Hv. subst ns.
    by apply (removeArc_run v x xn p pn o on q qn).
  - simpl. exists (Node.set_Right (Some o) qn). unfold ns'.
    rewrite list_lookup_alter_ne by done.
    rewrite list_lookup_alter_eq, Hq. simpl.
    do 4 (split; [done|]). split.
    + eapply is_tree_ext; [exact Htl|]. intros c Hc.
      rewrite !list_lookup_alter_ne; [done| |].
      * intros E. subst c. apply Hqn, elem_of_app. by left.
      * intros E. apply (Hlr c); [done|]. rewrite <- E. simpl. right.
        apply HOsub, root_in_nodes.
    + apply (is_tree_reparent _ (Some p)); [|done].
      eapply is_tree_ext; [exact HtO|]. intros c Hc.
      apply list_lookup_alter_ne. intros E. by subst c.
  - intros c Hc. unfold ns'.
    change (c ∉ q :: nodes l ++ nodes (TNode p a b)) in Hc.
    rewrite !list_lookup_alter_ne; [done| |].
    + intros E. subst c. apply Hc. left.
    + intros E. apply Hc. right. apply elem_of_app. right. rewrite <- E.
      simpl. right. apply HOsub, root_in_nodes.
Qed.

(** [removeArc] of a node below a grandchild of the root of [t], or
    deeper. *)
Lemma removeArc_inner ns x t par :
  is_tree ns par t -> NoDup (nodes t) -> x ∈ nodes t ->
  match t with
  | TLeaf _ => False
  | TNode q l r => q <> x /\ root_of l <> x /\ root_of r <> x
  end ->
  exists ns',
    (forall v, Voronoi.Nodes v = ns ->
       Voronoi.removeArc (Some x) v = (Ok tt, Voronoi.set_Nodes ns' v))
    /\ is_tree ns' par (prune x t)
    /\ (forall c, c ∉ nodes t -> ns' !! c = ns !! c).
Proof.
  revert par. induction t as [q|q l IHl r IHr]; intros par Ht Hnd Hx Hdeep;
    [done|].
  destruct Hdeep as (Hq & Hl & Hr).
  pose proof Ht as (qn & Hqn & Hqpar & Hql & Hqr & Htl & Htr).
  pose proof Hnd as Hnd'.
  change (NoDup (q :: nodes l ++ nodes r)) in Hnd'.
  apply NoDup_cons in Hnd' as (Hqnot & (Hnl & Hlr & Hnr)%NoDup_app).
  change (x ∈ q :: nodes l ++ nodes r) in Hx.
  apply elem_of_cons in Hx as [->|Hx]; [done|].
  assert (prune x (TNode q l r) = TNode q (prune x l) (prune x r)) as Ep.
  { simpl. by rewrite !decide_False. }
  rewrite Ep.
  apply elem_of_app in Hx as [Hx|Hx].
  - assert (prune x r = r) as ->.
    { apply prune_notin. intros Hxr. by apply (Hlr x). }
    destruct l as [y|p a b].
    { apply list_elem_of_singleton in Hx. by subst. }
    destruct (decide (root_of a = x \/ root_of b = x)) as [Hc|Hc].
    + destruct (promote_left ns par q p a b r x Ht Hnd Hc) as (H1 & H2 & H3).
      eexists. split; [exact H1|]. by split.
    + destruct (IHl (Some q) Htl Hnl Hx) as (ns' & H1 & H2 & H3).
      { simpl in Hl. split; [done|]. split; intros E; apply Hc; auto. }
      exists ns'. split; [done|]. split.
      * assert (root_of (prune x (TNode p a b)) = p) as Eroot.
        { simpl. rewrite !decide_False; [done|..]; intros E; apply Hc; auto. }
        exists qn. rewrite H3 by (intros Hin; apply Hqnot, elem_of_app; auto).
        rewrite Eroot. do 4 (split; [done|]). split; [done|].
        eapply is_tree_ext; [exact Htr|]. intros c Hc'. apply H3.
        intros Hin. by apply (Hlr c).
      * intros c Hc'. apply H3. intros Hin. apply Hc'.
        change (c ∈ q :: nodes (TNode p a b) ++ nodes r). right.
        apply elem_of_app. by left.
  - assert (prune x l = l) as ->.
    { apply prune_notin. intros Hxl. by apply (Hlr x). }
    destruct r as [y|p a b].
    { apply list_elem_of_singleton in Hx. by subst. }
    destruct (decide (root_of a = x \/ root_of b = x)) as [Hc|Hc].
    + destruct (promote_right ns par q l p a b x Ht Hnd Hc) as (H1 & H2 & H3).
      eexists. split; [exact H1|]. by split.
    + destruct (IHr (Some q) Htr Hnr Hx) as (ns' & H1 & H2 & H3).
      { simpl in Hr. split; [done|]. split; intros E; apply Hc; auto. }
      exists ns'. split; [done|]. split.
      * assert (root_of (prune x (TNode p a b)) = p) as Eroot.
        { simpl. rewrite !decide_False; [done|..]; intros E; apply Hc; auto. }
        exists qn. rewrite H3 by (intros Hin; apply Hqnot, elem_of_app; auto).
        rewrite Eroot. do 3 (split; [done|]). split; [done|]. split; [|done].
        eapply is_tree_ext; [exact Htl|]. intros c Hc'. apply H3.
        intros Hin. by apply (Hlr c).
      * intros c Hc'. apply H3. intros Hin. apply Hc'.
        change (c ∈ q :: nodes l ++ nodes (TNode p a b)). right.
        apply elem_of_app. by right.
Qed.

Lemma internal_has_child ns par t c :
  is_tree ns par t -> c ∈ internals t ->
  exists nd, ns !! c = Some nd /\ Node.Left nd <> None.
Proof.
  revert par. induction t as [p|p l IHl r IHr]; intros par Ht; simpl.
  { by inversion 1. }
  destruct Ht as (nd & Hnd & _ & Hl & _ & Htl & Htr).
  rewrite elem_of_cons, elem_of_app. intros [->|[?|?]]; eauto.
  exists nd. split; [done|]. by rewrite Hl.
Qed.

Lemma arc_not_internal ns par t x :
  is_tree ns par t -> x ∈ leaves t -> x ∉ internals t.
Proof.
  intros Ht Hx Hint.
  destruct (internal_has_child _ _ _ _ Ht Hint) as (nd & Hnd & Hl).
  pose proof (leaves_subtrees _ _ Hx) as Hu.
  destruct (subtrees_is_tree ns _ _ _ Ht Hu) as (px & nd' & Hnd' & _ & Hl' & _).
  congruence.
Qed.

Lemma removeArc_tree v t l1 x l2 :
  is_tree (Voronoi.Nodes v) None t -> NoDup (leaves t) ->
  Voronoi.ParabolaTree v = Some (root_of t) ->
  leaves t = l1 ++ x :: l2 ->
  (l1 ++ l2 = [] -> (Voronoi.removeArc (Some x) v).1 = Panic)
  /\ (l1 ++ l2 <> [] ->
      exists ns',
        Voronoi.removeArc (Some x) v
        = (Ok tt,
           Voronoi.set_Nodes ns'
             (Voronoi.set_ParabolaTree (Some (root_of (prune x t))) v))
        /\ is_tree ns' None (prune x t)
        /\ leaves (prune x t) = l1 ++ l2
        /\ S (length (internals (prune x t))) = length (internals t)).
Proof.
  intros Ht Hnd Hroot E.
  assert (x ∈ leaves t) as Hx by (rewrite E; apply elem_of_app; right; left).
  pose proof (arc_not_internal _ _ _ _ Ht Hx) as Hint.
  pose proof (nodes_NoDup _ _ _ Ht Hnd) as Hnodes.
  split.
  - intros Hone. apply app_eq_nil in Hone as [-> ->].
    destruct t as [y|q l r].
    + injection E as ->. destruct Ht as (xn & Hxn & Hpar & _).
      unfold Voronoi.removeArc.
      rewrite (bind_Ok _ _ _ _ _ (load_Some _ _ _ Hxn)). cbv zeta.
      by rewrite Hpar.
    + simpl in E. destruct (leaves_leftmost l) as (a & Ea).
      destruct (leaves_leftmost r) as (b & Eb). rewrite Ea, Eb in E.
      by destruct a.
  - intros Hmore.
    assert (root_of t <> x) as Hrt.
    { intros Er. destruct t as [y|q l r]; simpl in *.
      - subst y. destruct l1 as [|a l1]; simpl in E.
        + injection E as <-. by apply Hmore.
        + injection E as _ E. by destruct l1.
      - destruct Hint. subst. left. }
    destruct t as [y|q l r]; [simpl in *; by apply list_elem_of_singleton in Hx|].
    pose proof Ht as (qn & Hqn & Hqpar & Hql & Hqr & Htl & Htr).
    pose proof Hnodes as Hnodes'.
    change (NoDup (q :: nodes l ++ nodes r)) in Hnodes'.
    apply NoDup_cons in Hnodes' as (Hqnot & (Hnl & Hlr & Hnr)%NoDup_app).
    assert (exists ns',
              Voronoi.removeArc (Some x) v
              = (Ok tt,
                 Voronoi.set_Nodes ns'
                   (Voronoi.set_ParabolaTree
                      (Some (root_of (prune x (TNode q l r)))) v))
              /\ is_tree ns' None (prune x (TNode q l r))) as (ns' & Hrun & Ht').
    { destruct (decide (root_of l = x \/ root_of r = x)) as [Hc|Hc].
      - set (O := prune x (TNode q l r)).
        assert (O = l \/ O = r) as HO.
        { unfold O. simpl. destruct Hc as [Hc|Hc].
          - rewrite decide_True by done. by right.
          - destruct (decide (root_of l = x)); [by right|].
            rewrite decide_True by done. by left. }
        assert (is_tree (Voronoi.Nodes v) (Some q) O) as HtO
          by (by destruct HO as [->| ->]).
        assert (NoDup (nodes O)) as HnO by (by destruct HO as [->| ->]).
        destruct (is_tree_root _ _ _ HtO) as (on & Hon & _).
        assert (exists xn, Voronoi.Nodes v !! x = Some xn
                  /\ Node.Parent xn = Some q) as (xn & Hxn & Hxp).
        { destruct Hc as [<-|<-]; eapply is_tree_root; eassumption. }
        exists (alter (Node.set_Parent None) (root_of O) (Voronoi.Nodes v)).
        split; [|by apply (is_tree_reparent _ (Some q))].
        apply (removeArc_run_root v x xn q qn (root_of O) on); try done.
        unfold O. simpl. rewrite Hql, Hqr.
        destruct (decide (root_of l = x)) as [Ea|Ea].
        + by rewrite decide_True by congruence.
        + rewrite decide_False by congruence. destruct Hc as [?|Hc]; [done|].
          by rewrite decide_True.
      - destruct (removeArc_inner (Voronoi.Nodes v) x (TNode q l r) None
                    Ht Hnodes (leaves_in_nodes _ _ Hx)) as (ns' & H1 & H2 & _).
        { split; [done|]. split; intros Ex; apply Hc; auto. }
        exists ns'. split; [|done]. rewrite (H1 v eq_refl).
        assert (root_of (prune x (TNode q l r)) = q) as ->.
        { simpl. rewrite !decide_False; [done|..]; intros Ex; apply Hc; auto. }
        simpl in Hroot. rewrite <- Hroot. by destruct v. }
    exists ns'. split; [done|]. split; [done|]. split.
    + by apply leaves_prune_split.
    + by apply internals_prune.
Qed.

(** X16. [removeArc] on the only arc of a tree panics (the arc has no
    parent).  On an arc [x] of a well-formed tree with other arcs it
    returns, and the tree is then well formed without [x]: the
    breakpoint above [x] has given its place to its other child, the
    other arcs are in the same left-to-right order, there is one
    breakpoint less, and nothing but the nodes and the root pointer has
    changed. *)
Theorem removeArc_prunes v t l1 x l2 :
  is_tree (Voronoi.Nodes v) None t -> NoDup (leaves t) ->
  Voronoi.ParabolaTree v = Some (root_of t) ->
  leaves t = l1 ++ x :: l2 ->
  (l1 ++ l2 = [] -> (Voronoi.removeArc (Some x) v).1 = Panic)
  /\ (l1 ++ l2 <> [] ->
      exists ns',
        Voronoi.removeArc (Some x) v
        = (Ok tt,
           Voronoi.set_Nodes ns'
             (Voronoi.set_ParabolaTree (Some (root_of (prune x t))) v))
        /\ is_tree ns' None (prune x t)
        /\ leaves (prune x t) = l1 ++ l2
        /\ S (length (internals (prune x t))) = length (internals t)).
Proof. apply removeArc_tree. Qed.

(** X18. After [removeArc] has removed an arc that had an arc on each
    side, the two are neighbours: [NextArc] of the one that was before
    gives the one that was after, and [PrevArc] of that one gives the
    first. *)
Theorem removeArc_joins_neighbours fuel v t l1 a x b l2 :
  is_tree (Voronoi.Nodes v) None t -> NoDup (leaves t) ->
  Voronoi.ParabolaTree v = Some (root_of t) ->
  leaves t = l1 ++ a :: x :: b :: l2 ->
  (height t < fuel)%nat ->
  exists v',
    Voronoi.removeArc (Some x) v = (Ok tt, v')
    /\ Node.NextArc fuel (Voronoi.Nodes v') (Some a) = Ok (Some b)
    /\ Node.PrevArc fuel (Voronoi.Nodes v') (Some b) = Ok (Some a).
Proof.
  intros Ht Hnd Hroot E Hf.
  assert (leaves t = (l1 ++ [a]) ++ x :: b :: l2) as E'
    by (by rewrite <- app_assoc).
  destruct (removeArc_tree v t _ x _ Ht Hnd Hroot E') as [_ H].
  destruct H as (ns' & Hrun & Ht' & Hl & _); [by destruct l1|].
  assert (NoDup (leaves (prune x t))) as Hnd'.
  { rewrite Hl. rewrite E' in Hnd.
    apply NoDup_app in Hnd as (H1 & H2 & (H3 & H4)%NoDup_cons).
    apply NoDup_app. split; [done|]. split; [|done].
    intros y Hy Hy'. apply (H2 y Hy). by right. }
  pose proof (height_prune x t) as Hh.
  eexists. split; [exact Hrun|]. simpl. split.
  - rewrite <- app_assoc in Hl. simpl in Hl.
    destruct (neighbours_of_arc ns' _ fuel _ _ _ Ht' Hnd' Hl) as [_ HN]; [lia|].
    exact HN.
  - destruct (neighbours_of_arc ns' _ fuel _ _ _ Ht' Hnd' Hl) as [HP _]; [lia|].
    by rewrite last_snoc in HP.
Qed.

End RemoveArc.

Lemma removeArc_joins_neighbours_witness :
  exists v',
    Voronoi.removeArc (Some 3%nat) Examples.after_two_sites = (Ok tt, v')
    /\ Node.NextArc 3 (Voronoi.Nodes v') (Some 4%nat) = Ok (Some 1%nat)
    /\ Node.PrevArc 3 (Voronoi.Nodes v') (Some 1%nat) = Ok (Some 4%nat).
Proof.
  apply (removeArc_joins_neighbours 3 Examples.after_two_sites
           Examples.tree_after_two_sites [] 4%nat 3%nat 1%nat []
           after_two_sites_is_tree).
  - apply NoDup_ListNoDup. simpl. repeat constructor; simpl; lia.
  - reflexivity.
  - reflexivity.
  - simpl. lia.
Defined.

Lemma removeArc_prunes_witness :
  exists ns',
    Voronoi.removeArc (Some 3%nat) Examples.after_two_sites
    = (Ok tt,
       Voronoi.set_Nodes ns'
         (Voronoi.set_ParabolaTree
            (Some (root_of (prune 3%nat Examples.tree_after_two_sites)))
            Examples.after_two_sites))
    /\ is_tree ns' None (prune 3%nat Examples.tree_after_two_sites)
    /\ leaves (prune 3%nat Examples.tree_after_two_sites)
       = [4%nat] ++ [1%nat]
    /\ S (length (internals (prune 3%nat Examples.tree_after_two_sites)))
       = length (internals Examples.tree_after_two_sites).
Proof.
  apply (removeArc_prunes Examples.after_two_sites
           Examples.tree_after_two_sites [4%nat] 3%nat [1%nat]
           after_two_sites_is_tree).
  - apply NoDup_ListNoDup. simpl. repeat constructor; simpl; lia.
  - reflexivity.
  - reflexivity.
  - discriminate.
Defined.

(** ** Building a controller from points *)

Section Construction.
Context {Q : EventQueueImpl}.

Lemma wrap64_small z : - 2 ^ 63 <= z < 2 ^ 63 -> wrap64 z = z.
Proof.
  intros H. unfold wrap64.
  change (2 ^ 64) with (2 * 2 ^ 63). rewrite Z.mod_small; lia.
Qed.

Lemma NewFromPoints_loop_numbers points :
  forall sites id,
    0 <= id -> id + Z.of_nat (length points) <= 2 ^ 63 ->
    Voronoi.NewFromPoints_loop points sites id
    = sites ++ imap (fun i p => Site.mk (Point.X p) (Point.Y p)
                                  (id + Z.of_nat i)) points.
Proof.
  induction points as [|p ps IH]; intros sites id H0 Hb; simpl.
  { by rewrite app_nil_r. }
  rewrite Z.add_0_r.
  destruct ps as [|p' ps'].
  { simpl. by rewrite ?Z.add_0_r. }
  rewrite wrap64_small by (simpl length in Hb; lia).
  rewrite IH by (simpl length in *; lia).
  rewrite <- app_assoc. simpl. do 3 f_equal.
  - f_equal. lia.
  - apply imap_ext. intros i x _. simpl. f_equal. lia.
Qed.

(** X17. [NewFromPoints] on at most 2^63 points builds one site per
    point, in the order of the points, with the point's coordinates and
    its position as [ID]; and the [Reset] with which [Generate] starts
    changes nothing of a controller so built. *)
Theorem NewFromPoints_numbers_sites points bounds :
  Z.of_nat (length points) <= 2 ^ 63 ->
  Voronoi.Sites (Voronoi.NewFromPoints points bounds)
  = imap (fun i p => Site.mk (Point.X p) (Point.Y p) (Z.of_nat i)) points
  /\ Voronoi.Reset (Voronoi.NewFromPoints points bounds)
     = Voronoi.NewFromPoints points bounds.
Proof.
  intros Hb. split; [|done].
  unfold Voronoi.NewFromPoints, Voronoi.New, Voronoi.init. simpl.
  by rewrite NewFromPoints_loop_numbers by lia.
Qed.

End Construction.

Lemma NewFromPoints_numbers_sites_witness :
  Voronoi.Sites
    (Voronoi.NewFromPoints (Q := Reference.list_queue)
       [Point.mk 0 0; Point.mk 5 10] (mkRectangle 0 0 10 10))
  = [Site.mk 0 0 0; Site.mk 5 10 1]
  /\ Voronoi.Reset
       (Voronoi.NewFromPoints (Q := Reference.list_queue)
          [Point.mk 0 0; Point.mk 5 10] (mkRectangle 0 0 10 10))
     = Voronoi.NewFromPoints [Point.mk 0 0; Point.mk 5 10]
         (mkRectangle 0 0 10 10).
Proof.
  apply (NewFromPoints_numbers_sites (Q := Reference.list_queue)
           [Point.mk 0 0; Point.mk 5 10] (mkRectangle 0 0 10 10)).
  simpl. lia.
Defined.

(** ** A circle event removes its arc *)

Section Skeleton.
Context {Q : EventQueueImpl} {G : Geometry}.
Implicit Types v : Voronoi.t Q.

Lemma links_insert (ns : list Node.t) i nd nd' :
  ns !! i = Some nd -> links nd' = links nd ->
  links <$> <[i := nd']> ns = links <$> ns.
Proof.
  intros Hi E. rewrite list_fmap_insert, E. apply list_insert_id.
  by rewrite list_lookup_fmap, Hi.
Qed.

Lemma links_same_shape (ns ns' : list Node.t) :
  links <$> ns = links <$> ns' -> same_shape ns ns'.
Proof.
  revert ns'. induction ns as [|a ns IH]; intros [|b ns']; simpl; try done.
  - constructor.
  - intros [= E1 E2 E3 E4 E]. constructor; [done|]. by apply IH.
Qed.

Lemma is_tree_skeleton v v' t :
  skeleton v' = skeleton v ->
  is_tree (Voronoi.Nodes v) None t /\ Voronoi.ParabolaTree v = Some (root_of t) ->
  is_tree (Voronoi.Nodes v') None t
  /\ Voronoi.ParabolaTree v' = Some (root_of t).
Proof.
  unfold skeleton. intros [= E1 E2] [Ht Hr]. split; [|congruence].
  eapply is_tree_same_shape; [|exact Ht]. by apply links_same_shape.
Qed.

Lemma Node_RemoveEvent_links e nd nd' :
  Node.RemoveEvent e nd = Ok nd' -> links nd' = links nd.
Proof.
  unfold Node.RemoveEvent.
  destruct (CircleEvents.RemoveEvent e (Node.LeftEvents nd)); [|done..].
  destruct (CircleEvents.RemoveEvent e (Node.MiddleEvents nd)); [|done..].
  destruct (CircleEvents.RemoveEvent e (Node.RightEvents nd)); [|done..].
  by intros [= <-].
Qed.

Lemma skel_update p g :
  (forall nd, links (g nd) = links nd) ->
  keeps skeleton (Voronoi.update p g).
Proof.
  intros Hg v. unfold Voronoi.update, Voronoi.load, Node.deref. mred.
  destruct p as [i|]; [|done].
  destruct (index_or_panic (Voronoi.Nodes v) i) as [nd| |] eqn:E; [|done..].
  apply index_or_panic_Ok in E. unfold skeleton. simpl.
  by rewrite (links_insert _ _ nd).
Qed.

Lemma skel_Node_RemoveEvent e n :
  keeps skeleton (Voronoi.Node_RemoveEvent e n).
Proof.
  intros v. unfold Voronoi.Node_RemoveEvent, Voronoi.update, Voronoi.load,
    Node.deref. mred.
  destruct n as [i|]; [|done].
  destruct (index_or_panic (Voronoi.Nodes v) i) as [nd| |] eqn:E; [|done..].
  destruct (Node.RemoveEvent e nd) as [nd'| |] eqn:R; [|done..].
  apply index_or_panic_Ok in E. unfold skeleton. simpl.
  by rewrite (links_insert _ _ nd _ E (Node_RemoveEvent_links _ _ _ R)).
Qed.

End Skeleton.

Create HintDb skel discriminated.
#[export] Hint Resolve skel_Node_RemoveEvent : skel.

Ltac skel_tac :=
  repeat first
    [ apply keeps_ret
    | apply keeps_lift
    | apply keeps_gets
    | apply keeps_modify; intros; reflexivity
    | apply skel_update; intros; reflexivity
    | apply keeps_for_each; intros ?
    | solve [eauto with skel]
    | apply keeps_bind; [|intros ?]
    | match goal with
      | |- keeps _ (match ?x with _ => _ end) => destruct x
      | |- keeps _ (if ?x then _ else _) => destruct x
      end ].

Section CircleEvent.
Context {Q : EventQueueImpl} {G : Geometry}.
Implicit Types v : Voronoi.t Q.

Lemma skel_load p : keeps skeleton (Voronoi.load (Q := Q) p).
Proof. unfold Voronoi.load. skel_tac. Qed.
Hint Resolve skel_load : skel.

Lemma skel_PrevArc fuel p : keeps skeleton (Voronoi.PrevArc (Q := Q) fuel p).
Proof. unfold Voronoi.PrevArc. skel_tac. Qed.
Hint Resolve skel_PrevArc : skel.

Lemma skel_NextArc fuel p : keeps skeleton (Voronoi.NextArc (Q := Q) fuel p).
Proof. unfold Voronoi.NextArc. skel_tac. Qed.
Hint Resolve skel_NextArc : skel.

Lemma skel_face_of_arc p : keeps skeleton (Voronoi.face_of_arc (Q := Q) p).
Proof.
  unfold Voronoi.face_of_arc, Voronoi.load_face, Voronoi.load_site. skel_tac.
Qed.
Hint Resolve skel_face_of_arc : skel.

Lemma skel_addCircleEvent a b c :
  keeps skeleton (Voronoi.addCircleEvent (Q := Q) a b c).
Proof.
  unfold Voronoi.addCircleEvent, Voronoi.load_site, Voronoi.new_event,
    Voronoi.load_event.
  skel_tac.
Qed.
Hint Resolve skel_addCircleEvent : skel.

Lemma skel_removeAllCircleEvents fuel p :
  keeps skeleton (Voronoi.removeAllCircleEvents (Q := Q) fuel p).
Proof.
  unfold Voronoi.removeAllCircleEvents, Voronoi.still_queued,
    Voronoi.queue_Remove.
  skel_tac.
Qed.
Hint Resolve skel_removeAllCircleEvents : skel.

Lemma skel_DCEL_NewVertex x y :
  keeps skeleton (Voronoi.DCEL_NewVertex (Q := Q) x y).
Proof. unfold Voronoi.DCEL_NewVertex. skel_tac. Qed.
Hint Resolve skel_DCEL_NewVertex : skel.

Lemma skel_DCEL_NewEdge f1 f2 x :
  keeps skeleton (Voronoi.DCEL_NewEdge (Q := Q) f1 f2 x).
Proof. unfold Voronoi.DCEL_NewEdge. skel_tac. Qed.
Hint Resolve skel_DCEL_NewEdge : skel.

Lemma skel_do_CloseTwins es x :
  keeps skeleton (Voronoi.do_CloseTwins es x).
Proof. unfold Voronoi.do_CloseTwins. skel_tac. Qed.
Hint Resolve skel_do_CloseTwins : skel.

(** One step of a run that returned: the result of the first method and
    the state it left, in which the tree is the one of the state before. *)
Ltac run_step H T a v1 Hs :=
  apply bind_Ok_inv in H as (a & v1 & Hs & H);
  match type of Hs with
  | ?m ?v0 = _ =>
      let K := fresh "K" in
      assert (skeleton v1 = skeleton v0) as K
        by (let K' := fresh in
            assert (keeps skeleton m) as K' by skel_tac;
            specialize (K' v0); by rewrite Hs in K');
      apply (is_tree_skeleton _ _ _ K) in T; clear K
  end.

(** X19. A circle event handled on a well-formed tree, for an arc [x]
    of the tree, with fuel for the height of the tree: when
    [handleCircleEvent] returns, [x] had an arc on each side, and the
    tree is then well formed without [x]: the other arcs in the same
    left-to-right order, one breakpoint less. *)
Theorem circle_event_removes_arc fuel event ev v v' t l1 x l2 :
  is_tree (Voronoi.Nodes v) None t -> NoDup (leaves t) ->
  Voronoi.ParabolaTree v = Some (root_of t) ->
  Voronoi.Events v !! event = Some ev -> Event.Node ev = Some x ->
  leaves t = l1 ++ x :: l2 ->
  (height t < fuel)%nat ->
  Voronoi.handleCircleEvent fuel event v = (Ok tt, v') ->
  l1 <> [] /\ l2 <> []
  /\ is_tree (Voronoi.Nodes v') None (prune x t)
  /\ Voronoi.ParabolaTree v' = Some (root_of (prune x t))
  /\ leaves (prune x t) = l1 ++ l2
  /\ S (length (internals (prune x t))) = length (internals t).
Proof.
  intros Ht Hnd Hroot Hev Hx E Hf H.
  pose proof (conj Ht Hroot) as T.
  unfold Voronoi.handleCircleEvent in H.
  apply bind_Ok_inv in H as (ev' & v1 & H1 & H).
  rewrite (load_event_Some _ _ _ Hev) in H1. injection H1 as <- <-.
  rewrite Hx in H.
  run_step H T vertex v2 H2.
  run_step H T nd v3 H3. run_step H T u4 v4 H4.
  run_step H T nd' v5 H5. run_step H T u6 v6 H6.
  run_step H T prevArc v7 H7.
  pose proof (PrevArc_inv _ _ _ _ _ H7) as ->.
  run_step H T nextArc v8 H8.
  pose proof (NextArc_inv _ _ _ _ _ H8) as ->.
  destruct (neighbours_of_arc _ t fuel l1 x l2 (proj1 T) Hnd E Hf) as [HP HN].
  unfold Voronoi.PrevArc in H7. unfold Voronoi.NextArc in H8.
  revert H7 H8. mred. rewrite HP, HN. intros [= <-] [= <-].
  apply bind_Ok_inv in H as (u9 & v9 & H9 & H).
  destruct (removeArc_tree v6 t l1 x l2 (proj1 T) Hnd (proj2 T) E) as [Hp Hq].
  destruct (decide (l1 ++ l2 = [])) as [Hnil|Hne].
  { specialize (Hp Hnil). by rewrite H9 in Hp. }
  destruct (Hq Hne) as (ns' & Hrun & Ht' & Hl & Hi).
  rewrite Hrun in H9. injection H9 as <-.
  assert (is_tree (Voronoi.Nodes v9) None (prune x t)
          /\ Voronoi.ParabolaTree v9 = Some (root_of (prune x t))) as T'
    by (by subst v9).
  clear T Hrun Ht' Hp Hq.
  run_step H T' u10 v10 H10. run_step H T' ppa v11 H11.
  run_step H T' u12 v12 H12. run_step H T' nna v13 H13.
  run_step H T' u14 v14 H14. run_step H T' p v15 H15.
  run_step H T' u16 v16 H16. run_step H T' n v17 H17.
  run_step H T' u18 v18 H18. run_step H T' f1 v19 H19.
  run_step H T' f2 v20 H20. run_step H T' ee v21 H21.
  destruct ee as [edge1 edge2].
  run_step H T' u22 v22 H22.
  assert (skeleton v' = skeleton v22) as K.
  { match type of H with
    | ?m _ = _ =>
        assert (keeps skeleton m) as K' by skel_tac;
        specialize (K' v22); by rewrite H in K'
    end. }
  apply (is_tree_skeleton _ _ _ K) in T' as [Ht' Hr'].
  apply load_inv in H15 as (_ & i & Hi1 & _).
  apply load_inv in H17 as (_ & j & Hj1 & _).
  split; [by intros ->|]. split; [by intros ->|]. done.
Qed.

End CircleEvent.

Lemma circle_event_removes_arc_witness :
  let v' := (Voronoi.handleCircleEvent (G := Reference.parabolas) 5 4%nat
               Examples.before_fourth_site).2 in
  [4%nat] <> [] /\ [7%nat; 5%nat; 1%nat] <> []
  /\ is_tree (Voronoi.Nodes v') None
       (prune 8%nat Examples.tree_before_fourth_site)
  /\ Voronoi.ParabolaTree v'
     = Some (root_of (prune 8%nat Examples.tree_before_fourth_site))
  /\ leaves (prune 8%nat Examples.tree_before_fourth_site)
     = [4%nat] ++ [7%nat; 5%nat; 1%nat]
  /\ S (length (internals (prune 8%nat Examples.tree_before_fourth_site)))
     = length (internals Examples.tree_before_fourth_site).
Proof.
  apply (circle_event_removes_arc (G := Reference.parabolas) 5 4%nat
           (Event.mk EventCircle 1 6 3 None (Some 8%nat))
           Examples.before_fourth_site _
           Examples.tree_before_fourth_site [4%nat] 8%nat
           [7%nat; 5%nat; 1%nat] before_fourth_site_is_tree).
  - apply NoDup_ListNoDup. simpl. repeat constructor; simpl; lia.
  - reflexivity.
  - reflexivity.
  - reflexivity.
  - reflexivity.
  - simpl. lia.
  - vm_compute. reflexivity.
Defined.
